(** * prysm.qpoly: Q (Forbes) polynomials

    A shallow embedding of [prysm/qpoly.py]: the Qbfs recursion constants
    [g_qbfs], [h_qbfs], [f_qbfs], the recurrences [qbfs_recurrence_P] and
    [qbfs_recurrence_Q], the two term caches [QBFSCache] and [QCONCache], and
    the sag builders [QPolySag1D.build], [QBFSSag.build], [QCONSag.build].

    Conventions of the embedding.
    - Python integers are [Z]; the floating-point arithmetic of the numeric
      engine ([prysm.mathops.engine], numpy by default, replaceable) is an
      interface, the class [Backend]; [float64] below is its IEEE binary64
      instance on Rocq's primitive floats.
    - A Python value flowing through the module is a scalar (a Python int or
      a float) or an n-dimensional array; arrays are kept as their flat
      buffer in row-major order.  Arithmetic follows numpy: int with int is
      exact, anything with a float is a float, a scalar is broadcast over an
      array, two arrays combine element by element.  All arrays met by one
      call come from one sample grid and so have one shape (on shapes that
      do not broadcast numpy raises ValueError, a case that does not occur
      here and that the element-wise combination below does not model).
    - Recursive Python functions take a [fuel] bound on the depth of the call
      stack; running out of fuel is the model of a recursion that does not
      come back (Python would end it with a RecursionError).
    - The [functools.lru_cache] decorators of the recursion constants memoise
      pure functions and are transparent to the values returned. *)

From Stdlib Require Import ZArith Lia.
From Stdlib Require PrimFloat Uint63.
From Stdlib Require Import Ascii.
From stdpp Require Import base option list sorting gmap strings.

Local Open Scope Z_scope.

(** ** The numeric engine *)

Class Backend (F : Type) := {
  fadd : F → F → F;
  fsub : F → F → F;
  fmul : F → F → F;
  fdiv : F → F → F;
  fneg : F → F;
  fsqrt : F → F;
  fpow : F → Z → F;
  of_int : Z → F;
  feq0 : F → bool;
  itemsize : Z
}.

(** ** Python values *)

Inductive number (F : Type) : Type :=
  | PyInt (z : Z)
  | PyFloat (f : F).
Arguments PyInt {F} z.
Arguments PyFloat {F} f.

Inductive value (F : Type) : Type :=
  | Num (a : number F)
  | NdArray (a : list F).
Arguments Num {F} a.
Arguments NdArray {F} a.

Declare Scope py_scope.
Delimit Scope py_scope with py.

Section Values.
Context {F : Type} `{Backend F}.

Definition int (z : Z) : value F := Num (PyInt z).

Definition to_float (a : number F) : F :=
  match a with
  | PyInt z => of_int z
  | PyFloat f => f
  end.

(** [+], [-], [*] on scalars: exact on two ints, floating otherwise. *)
Definition num_arith (iop : Z → Z → Z) (fop : F → F → F) (a b : number F) : number F :=
  match a, b with
  | PyInt x, PyInt y => PyInt (iop x y)
  | _, _ => PyFloat (fop (to_float a) (to_float b))
  end.

(** [/] is true division: always a float. *)
Definition num_truediv (a b : number F) : number F :=
  PyFloat (fdiv (to_float a) (to_float b)).

Definition num_neg (a : number F) : number F :=
  match a with
  | PyInt z => PyInt (- z)
  | PyFloat f => PyFloat (fneg f)
  end.

Definition num_pow (a : number F) (k : Z) : number F :=
  match a with
  | PyInt z => PyInt (z ^ k)
  | PyFloat f => PyFloat (fpow f k)
  end.

(** [a == 0] *)
Definition num_eq0 (a : number F) : bool :=
  match a with
  | PyInt z => z =? 0
  | PyFloat f => feq0 f
  end.

(** Broadcasting of a binary operation. *)
Definition broadcast (nop : number F → number F → number F) (fop : F → F → F)
    (a b : value F) : value F :=
  match a, b with
  | Num x, Num y => Num (nop x y)
  | Num x, NdArray ys => NdArray (map (fop (to_float x)) ys)
  | NdArray xs, Num y => NdArray (map (λ v, fop v (to_float y)) xs)
  | NdArray xs, NdArray ys => NdArray (zip_with fop xs ys)
  end.

Definition py_add : value F → value F → value F := broadcast (num_arith Z.add fadd) fadd.
Definition py_sub : value F → value F → value F := broadcast (num_arith Z.sub fsub) fsub.
Definition py_mul : value F → value F → value F := broadcast (num_arith Z.mul fmul) fmul.
Definition py_truediv : value F → value F → value F := broadcast num_truediv fdiv.

Definition py_neg (a : value F) : value F :=
  match a with
  | Num x => Num (num_neg x)
  | NdArray xs => NdArray (map fneg xs)
  end.

Definition py_pow (a : value F) (k : Z) : value F :=
  match a with
  | Num x => Num (num_pow x k)
  | NdArray xs => NdArray (map (λ v, fpow v k) xs)
  end.

(** [e.sqrt] *)
Definition sqrt (a : value F) : value F :=
  match a with
  | Num x => Num (PyFloat (fsqrt (to_float x)))
  | NdArray xs => NdArray (map fsqrt xs)
  end.

(** [e.ones_like] *)
Definition ones_like (a : value F) : value F :=
  match a with
  | Num (PyInt _) => Num (PyInt 1)
  | Num (PyFloat _) => Num (PyFloat (of_int 1))
  | NdArray xs => NdArray (map (λ _, of_int 1) xs)
  end.

(** [e.zeros(shape)], the buffer of an array of the given shape. *)
Definition zeros (shape : list Z) : value F :=
  NdArray (replicate (Z.to_nat (foldr Z.mul 1 shape)) (of_int 0)).

(** [a.nbytes]; a Python int has no such attribute. *)
Definition nbytes_of (a : value F) : option Z :=
  match a with
  | Num (PyInt _) => None
  | Num (PyFloat _) => Some itemsize
  | NdArray xs => Some (Z.of_nat (length xs) * itemsize)
  end.
End Values.

Notation "x + y" := (py_add x y) : py_scope.
Notation "x - y" := (py_sub x y) : py_scope.
Notation "x * y" := (py_mul x y) : py_scope.
Notation "x / y" := (py_truediv x y) : py_scope.
Notation "- x" := (py_neg x) : py_scope.
Notation "x ** k" := (py_pow x k) (at level 30, right associativity) : py_scope.

(** ** Recursion constants and recurrences *)

Section Recurrences.
Context {F : Type} `{Backend F}.

(** g(m-1), h(m-2) and f(m) of oe-18-19-19700, eqs. (A.15), (A.14), (A.16). *)
Fixpoint g_qbfs (fuel : nat) (n_minus_1 : Z) {struct fuel} : option (value F) :=
  match fuel with
  | O => None
  | S fuel =>
      if n_minus_1 =? 0 then Some (- int 1 / int 2)%py
      else
        let n_minus_2 := n_minus_1 - 1 in
        g ← g_qbfs fuel n_minus_2;
        h ← h_qbfs fuel n_minus_2;
        f ← f_qbfs fuel n_minus_1;
        Some (- (int 1 + g * h) / f)%py
  end
with h_qbfs (fuel : nat) (n_minus_2 : Z) {struct fuel} : option (value F) :=
  match fuel with
  | O => None
  | S fuel =>
      let n := n_minus_2 + 2 in
      f ← f_qbfs fuel n_minus_2;
      Some (int (- n * (n - 1)) / (int 2 * f))%py
  end
with f_qbfs (fuel : nat) (n : Z) {struct fuel} : option (value F) :=
  match fuel with
  | O => None
  | S fuel =>
      if n =? 0 then Some (int 2)
      else if n =? 1 then Some (sqrt (int 19) / int 2)%py
      else
        let term1 := int (n * (n + 1) + 3) in
        g ← g_qbfs fuel (n - 1);
        let term2 := (g ** 2)%py in
        h ← h_qbfs fuel (n - 2);
        let term3 := (h ** 2)%py in
        Some (sqrt (term1 - term2 - term3)%py)
  end.

(** An optional argument that is computed when the caller left it out. *)
Definition or_else {A} (given : option A) (compute : option A) : option A :=
  match given with
  | Some v => Some v
  | None => compute
  end.

(** P(m+1) of oe-18-19-19700, eq. (2.6). *)
Fixpoint qbfs_recurrence_P (fuel : nat) (n : Z) (x : value F)
    (Pnm1 Pnm2 recursion_coef : option (value F)) {struct fuel} : option (value F) :=
  match fuel with
  | O => None
  | S fuel =>
      if n =? 0 then Some (int 2)
      else if n =? 1 then Some (int 6 - int 8 * x)%py
      else
        Pnm1 ← or_else Pnm1 (qbfs_recurrence_P fuel (n - 1) x None None None);
        Pnm2 ← or_else Pnm2 (qbfs_recurrence_P fuel (n - 2) x None None None);
        let recursion_coef := default (int 2 - int 4 * x)%py recursion_coef in
        Some (recursion_coef * Pnm1 - Pnm2)%py
  end.

(** Q(m+1) of oe-18-19-19700, eq. (2.7). *)
Fixpoint qbfs_recurrence_Q (fuel : nat) (n : Z) (x : value F)
    (Pn Pnm1 Pnm2 Qnm1 Qnm2 recursion_coef : option (value F))
    {struct fuel} : option (value F) :=
  match fuel with
  | O => None
  | S fuel =>
      if n =? 0 then Some (ones_like x)
      else if n =? 1 then Some (int 1 / sqrt (int 19) * (int 13 - int 16 * x))%py
      else
        Pnm2 ← or_else Pnm2 (qbfs_recurrence_P fuel (n - 2) x None None recursion_coef);
        Pnm1 ← or_else Pnm1
                 (qbfs_recurrence_P fuel (n - 1) x None (Some Pnm2) recursion_coef);
        Pn ← or_else Pn
               (qbfs_recurrence_P fuel n x (Some Pnm1) (Some Pnm2) recursion_coef);
        Qnm2 ← or_else Qnm2
                 (qbfs_recurrence_Q fuel (n - 2) x (Some Pn) (Some Pnm1) (Some Pnm2)
                    None None recursion_coef);
        Qnm1 ← or_else Qnm1
                 (qbfs_recurrence_Q fuel (n - 1) x (Some Pn) (Some Pnm1) (Some Pnm2)
                    None (Some Qnm2) recursion_coef);
        let term1 := Pn in
        g ← g_qbfs fuel (n - 1);
        let term2 := (g * Qnm1)%py in
        h ← h_qbfs fuel (n - 2);
        let term3 := (h * Qnm2)%py in
        let numerator := (term1 - term2 - term3)%py in
        denominator ← f_qbfs fuel n;
        Some (numerator / denominator)%py
  end.
End Recurrences.

(** ** IEEE binary64 *)

(** A Python int as a float; exact up to 2^53 in absolute value. *)
Definition float_of_Z (z : Z) : PrimFloat.float :=
  if z <? 0 then PrimFloat.opp (PrimFloat.of_uint63 (Uint63.of_Z (- z)))
  else PrimFloat.of_uint63 (Uint63.of_Z z).

(** [x ** k] for the exponents met in this module (0, 1 and 2).  numpy
    squares an array as x * x; the power of a scalar is taken to be the same
    correctly rounded product. *)
Definition float_pow (x : PrimFloat.float) (k : Z) : PrimFloat.float :=
  if k =? 2 then PrimFloat.mul x x
  else if k =? 1 then x
  else float_of_Z 1.

#[export] Instance float64 : Backend PrimFloat.float := {
  fadd := PrimFloat.add;
  fsub := PrimFloat.sub;
  fmul := PrimFloat.mul;
  fdiv := PrimFloat.div;
  fneg := PrimFloat.opp;
  fsqrt := PrimFloat.sqrt;
  fpow := float_pow;
  of_int := float_of_Z;
  feq0 := λ x, PrimFloat.eqb x (float_of_Z 0);
  itemsize := 8
}.

(** ** Exceptions, and computations on a mutable cache *)

Inductive exn : Type :=
  | KeyError
  | AttributeError (attr : string)
  | ValueError.

(** What a call ends with: a value, an exception (the state keeps the writes
    made before it), or a call stack deeper than the fuel. *)
Inductive outcome (S A : Type) : Type :=
  | Normal (a : A) (s : S)
  | Raised (e : exn) (s : S)
  | OutOfFuel.
Arguments Normal {S A} a s.
Arguments Raised {S A} e s.
Arguments OutOfFuel {S A}.

Definition M (S A : Type) : Type := S → outcome S A.

#[export] Instance M_ret {S} : MRet (M S) := λ A a s, Normal a s.
#[export] Instance M_bind {S} : MBind (M S) := λ A B k m s,
  match m s with
  | Normal a s' => k a s'
  | Raised e s' => Raised e s'
  | OutOfFuel => OutOfFuel
  end.

Definition raise {S A} (e : exn) : M S A := λ s, Raised e s.
Definition out_of_fuel {S A} : M S A := λ _, OutOfFuel.
Definition gets {S A} (f : S → A) : M S A := λ s, Normal (f s) s.
Definition modify {S} (f : S → S) : M S unit := λ s, Normal () (f s).

(** The result of a pure recursive function, run inside a method. *)
Definition pure_call {S A} (r : option A) : M S A :=
  match r with
  | Some a => mret a
  | None => out_of_fuel
  end.

(** ** The stores of a cache instance *)

Record cache (F K : Type) `{Countable K} : Type := Cache {
  Qs : gmap (option Z * Z * K) (value F);
  Ps : gmap (option Z * Z * K) (value F);
  grids : gmap (Z * K) (value F)
}.
Arguments Cache {F K _ _} Qs Ps grids.
Arguments Qs {F K _ _} c.
Arguments Ps {F K _ _} c.
Arguments grids {F K _ _} c.

Section Stores.
Context {F K : Type} `{Countable K}.

(** [__init__] *)
Definition init : cache F K := Cache ∅ ∅ ∅.

Definition set_Qs (k : option Z * Z * K) (v : value F) (c : cache F K) : cache F K :=
  Cache (<[k := v]> (Qs c)) (Ps c) (grids c).
Definition set_Ps (k : option Z * Z * K) (v : value F) (c : cache F K) : cache F K :=
  Cache (Qs c) (<[k := v]> (Ps c)) (grids c).
Definition set_grids (k : Z * K) (v : value F) (c : cache F K) : cache F K :=
  Cache (Qs c) (Ps c) (<[k := v]> (grids c)).

(** [make_key]; the order is [None] when a grid is looked up. *)
Definition make_key (m : option Z) (samples : Z) (rho_max : K) : option Z * Z * K :=
  (m, samples, rho_max).

(** [key[1:]] *)
Definition key_tail (key : option Z * Z * K) : Z * K := (key.1.2, key.2).

(** [clear] *)
Definition clear : M (cache F K) unit := modify (λ _, Cache ∅ ∅ ∅).
End Stores.

(** The [nbytes] property, the same code in both cache classes.  The keys of
    [Qs] are visited in the order of the finite map, which may differ from
    Python's insertion order; the sum does not depend on it. *)
Section Nbytes.
Context {F K : Type} `{Backend F} `{Countable K}.

Definition getitem {A} `{Countable A} (d : gmap A (value F)) (k : A) : M (cache F K) (value F) :=
  match d !! k with
  | Some v => mret v
  | None => raise KeyError
  end.

Definition get_nbytes (v : value F) : M (cache F K) Z :=
  match nbytes_of v with
  | Some b => mret b
  | None => raise (AttributeError "nbytes")
  end.

Fixpoint nbytes_loop (keys : list (option Z * Z * K)) (n : Z) : M (cache F K) Z :=
  match keys with
  | [] => mret n
  | key :: keys =>
      q ← gets (λ c, Qs c) ≫= (λ d, getitem d key);
      qb ← get_nbytes q;
      let n := n + qb in
      p ← gets (λ c, Ps c) ≫= (λ d, getitem d key);
      pb ← get_nbytes p;
      let n := n + pb in
      g ← gets (λ c, grids c) ≫= (λ d, getitem d (key_tail key));
      gb ← get_nbytes g;
      let n := n + gb in
      nbytes_loop keys n
  end.

Definition nbytes : M (cache F K) Z :=
  keys ← gets (λ c, (map_to_list (Qs c)).*1);
  nbytes_loop keys 0.
End Nbytes.

(** ** QBFSCache *)

Module QBFSCache.
Section Methods.
Context {F K : Type} `{Backend F} `{Countable K}.
(** [prysm.coordinates.make_rho_phi_grid(samples, aligned, radius)], the
    external grid provider; it returns the pair (rho, phi). *)
Variable make_rho_phi_grid : Z → string → K → value F * value F.

Definition get_grid (samples : Z) (rho_max : K) : M (cache F K) (value F) :=
  let key := key_tail (make_key None samples rho_max) in
  found ← gets (λ c, grids c !! key);
  match found with
  | Some rho => mret rho
  | None =>
      let rho := (make_rho_phi_grid samples "y" rho_max).1 in
      let rho := (rho ** 2)%py in
      modify (set_grids key rho);;
      mret rho
  end.

Fixpoint get_PBFS (fuel : nat) (m samples : Z) (rho_max : K) {struct fuel}
    : M (cache F K) (value F) :=
  match fuel with
  | O => out_of_fuel
  | S fuel =>
      let key := make_key (Some m) samples rho_max in
      found ← gets (λ c, Ps c !! key);
      match found with
      | Some Pm => mret Pm
      | None =>
          rho ← get_grid samples rho_max;
          lower ← (if m >? 2 then
                     Pnm2 ← get_PBFS fuel (m - 2) samples rho_max;
                     Pnm1 ← get_PBFS fuel (m - 1) samples rho_max;
                     mret (Some Pnm1, Some Pnm2)
                   else mret (None, None));
          let '(Pnm1, Pnm2) := lower in
          Pm ← pure_call (qbfs_recurrence_P fuel m rho Pnm1 Pnm2 None);
          modify (set_Ps key Pm);;
          mret Pm
      end
  end.

Fixpoint get_QBFS (fuel : nat) (m samples : Z) (rho_max : K) {struct fuel}
    : M (cache F K) (value F) :=
  match fuel with
  | O => out_of_fuel
  | S fuel =>
      let key := make_key (Some m) samples rho_max in
      found ← gets (λ c, Qs c !! key);
      match found with
      | Some Qm => mret Qm
      | None =>
          rho ← get_grid samples rho_max;
          Pm ← get_PBFS fuel m samples rho_max;
          lower ← (if m >? 2 then
                     Pnm2 ← get_PBFS fuel (m - 2) samples rho_max;
                     Pnm1 ← get_PBFS fuel (m - 1) samples rho_max;
                     Qnm2 ← get_QBFS fuel (m - 2) samples rho_max;
                     Qnm1 ← get_QBFS fuel (m - 1) samples rho_max;
                     mret (Some Pnm1, Some Pnm2, Some Qnm1, Some Qnm2)
                   else mret (None, None, None, None));
          let '(Pnm1, Pnm2, Qnm1, Qnm2) := lower in
          Qm ← pure_call (qbfs_recurrence_Q fuel m rho (Some Pm) Pnm1 Pnm2 Qnm1 Qnm2 None);
          modify (set_Qs key Qm);;
          mret Qm
      end
  end.

(** [__call__] *)
Definition call (fuel : nat) (m samples : Z) (rho_max : K) : M (cache F K) (value F) :=
  get_QBFS fuel m samples rho_max.
End Methods.
End QBFSCache.

(** ** QCONCache *)

Module QCONCache.
Section Methods.
Context {F K : Type} `{Backend F} `{Countable K}.
Variable make_rho_phi_grid : Z → string → K → value F * value F.

(** Calling a method of [self] by name: the attribute is looked up among
    the getters the class defines, and a name that is not there raises
    AttributeError. *)
Definition invoke (self : string → option (Z → Z → K → M (cache F K) (value F)))
    (attr : string) (m samples : Z) (rho_max : K) : M (cache F K) (value F) :=
  match self attr with
  | Some method => method m samples rho_max
  | None => raise (AttributeError attr)
  end.

Definition get_grid (samples : Z) (rho_max : K) : M (cache F K) (value F) :=
  let key := key_tail (make_key None samples rho_max) in
  found ← gets (λ c, grids c !! key);
  match found with
  | Some rho => mret rho
  | None =>
      let rho := (make_rho_phi_grid samples "y" rho_max).1 in
      let rho := (rho ** 2)%py in
      let rho := (int 2 * rho - int 1)%py in
      modify (set_grids key rho);;
      mret rho
  end.

Fixpoint get_PBFS (fuel : nat) (m samples : Z) (rho_max : K) {struct fuel}
    : M (cache F K) (value F) :=
  match fuel with
  | O => out_of_fuel
  | S fuel =>
      let key := make_key (Some m) samples rho_max in
      found ← gets (λ c, Ps c !! key);
      match found with
      | Some Pm => mret Pm
      | None =>
          rho ← get_grid samples rho_max;
          lower ← (if m >? 2 then
                     Pnm2 ← get_PBFS fuel (m - 2) samples rho_max;
                     Pnm1 ← get_PBFS fuel (m - 1) samples rho_max;
                     mret (Some Pnm1, Some Pnm2)
                   else mret (None, None));
          let '(Pnm1, Pnm2) := lower in
          Pm ← pure_call (qbfs_recurrence_P fuel m rho Pnm1 Pnm2 None);
          modify (set_Ps key Pm);;
          mret Pm
      end
  end.

Fixpoint get_QCON (fuel : nat) (m samples : Z) (rho_max : K) {struct fuel}
    : M (cache F K) (value F) :=
  match fuel with
  | O => out_of_fuel
  | S fuel =>
      (** the getters of the class, as [self] resolves them *)
      let self (attr : string) :=
        if String.eqb attr "get_QCON" then Some (get_QCON fuel)
        else if String.eqb attr "get_PBFS" then Some (get_PBFS fuel)
        else None in
      let key := make_key (Some m) samples rho_max in
      found ← gets (λ c, Qs c !! key);
      match found with
      | Some Qm => mret Qm
      | None =>
          rho ← get_grid samples rho_max;
          Pm ← invoke self "get_PBFS" m samples rho_max;
          lower ← (if m >? 2 then
                     Pnm2 ← invoke self "get_PBFS" (m - 2) samples rho_max;
                     Pnm1 ← invoke self "get_PBFS" (m - 1) samples rho_max;
                     Qnm2 ← invoke self "get_QBFS" (m - 2) samples rho_max;
                     Qnm1 ← invoke self "get_QBFS" (m - 1) samples rho_max;
                     mret (Some Pnm1, Some Pnm2, Some Qnm1, Some Qnm2)
                   else mret (None, None, None, None));
          let '(Pnm1, Pnm2, Qnm1, Qnm2) := lower in
          Qm ← pure_call (qbfs_recurrence_Q fuel m rho (Some Pm) Pnm1 Pnm2 Qnm1 Qnm2 None);
          modify (set_Qs key Qm);;
          mret Qm
      end
  end.

(** [__call__] *)
Definition call (fuel : nat) (m samples : Z) (rho_max : K) : M (cache F K) (value F) :=
  get_QCON fuel m samples rho_max.
End Methods.
End QCONCache.

(** ** Sag builders *)

(** The part of a [QPolySag1D] instance the builders touch: the coefficient
    dict (a Python dict: distinct keys, kept in insertion order), the number
    of samples, and the phase array. *)
Record sag (F : Type) : Type := Sag {
  coefs : list (Z * number F);
  samples : Z;
  phase : value F
}.
Arguments Sag {F} coefs samples phase.
Arguments coefs {F} s.
Arguments samples {F} s.
Arguments phase {F} s.

Definition set_phase {F} (p : value F) (self : sag F) : sag F :=
  Sag (coefs self) (samples self) p.

(** [d[k]] on a dict kept as its list of items. *)
Fixpoint dict_get {V} (d : list (Z * V)) (k : Z) : option V :=
  match d with
  | [] => None
  | (k', v) :: d => if k' =? k then Some v else dict_get d k
  end.

Module QPolySag1D.
Section Build.
Context {F K : Type} `{Backend F} `{Countable K}.
(** The class attribute [_cache] of the subclass, a callable cache, and the
    value 1 that its parameter [rho_max] defaults to. *)
Variable _cache : nat → Z → Z → K → M (cache F K) (value F).
Variable rho_max_1 : K.

Definition getitem (d : list (Z * number F)) (k : Z) : M (cache F K) (number F) :=
  match dict_get d k with
  | Some v => mret v
  | None => raise KeyError
  end.

(** The loop over [zip(ordered_terms, ordered_values)]. *)
Fixpoint accumulate (fuel : nat) (samples : Z) (items : list (Z * number F))
    (phase : value F) : M (cache F K) (value F) :=
  match items with
  | [] => mret phase
  | (term, coef) :: items =>
      if num_eq0 coef then accumulate fuel samples items phase
      else
        t ← _cache fuel term samples rho_max_1;
        accumulate fuel samples items (phase + Num coef * t)%py
  end.

Definition build (fuel : nat) (self : sag F) : M (cache F K) (sag F) :=
  phase ← (if samples self <? 0 then raise ValueError
           else mret (zeros [samples self; samples self]));
  let ordered_terms := merge_sort Z.le (coefs self).*1 in
  ordered_values ← mapM (getitem (coefs self)) ordered_terms;
  phase ← accumulate fuel (samples self) (zip ordered_terms ordered_values) phase;
  mret (set_phase phase self).
End Build.
End QPolySag1D.

Module QBFSSag.
Section Build.
Context {F K : Type} `{Backend F} `{Countable K}.
Variable make_rho_phi_grid : Z → string → K → value F * value F.
Variable rho_max_1 : K.

Definition build (fuel : nat) (self : sag F) : M (cache F K) (sag F) :=
  self ← QPolySag1D.build (QBFSCache.call make_rho_phi_grid) rho_max_1 fuel self;
  r2 ← QBFSCache.get_grid make_rho_phi_grid (samples self) rho_max_1;
  let coef := (r2 * (int 1 - r2))%py in
  mret (set_phase (phase self * coef)%py self).
End Build.
End QBFSSag.

Module QCONSag.
Section Build.
Context {F K : Type} `{Backend F} `{Countable K}.
Variable make_rho_phi_grid : Z → string → K → value F * value F.
Variable rho_max_1 : K.

Definition build (fuel : nat) (self : sag F) : M (cache F K) (sag F) :=
  self ← QPolySag1D.build (QCONCache.call make_rho_phi_grid) rho_max_1 fuel self;
  r2 ← QCONCache.get_grid make_rho_phi_grid (samples self) rho_max_1;
  let coef := (r2 * (int 1 - r2))%py in
  mret (set_phase (phase self * coef)%py self).
End Build.
End QCONSag.

(** ** A grid provider to run the code on *)

(** [num] evenly spaced points from [start] to [stop], both included. *)
Definition linspace (start stop : PrimFloat.float) (num : Z) : list PrimFloat.float :=
  let step := PrimFloat.div (PrimFloat.sub stop start) (float_of_Z (num - 1)) in
  map (λ i, if Z.of_nat i =? 0 then start
            else if Z.of_nat i =? num - 1 then stop
            else PrimFloat.add start (PrimFloat.mul (float_of_Z (Z.of_nat i)) step))
      (seq 0 (Z.to_nat num)).

(** Modelled from the spec: the grid provider [make_rho_phi_grid] belongs to
    prysm.coordinates, which is not among the sources; the spec says of it
    that, given sample count, alignment convention and radius, it returns a
    radial/angular coordinate grid pair.  The provider below is one such,
    used to run the code on concrete inputs: it samples the square
    [-radius, radius]^2 on [samples] evenly spaced points per axis and
    returns rho = sqrt(x^2 + y^2) at each, row by row; the angular grid,
    which the caches drop, is left at zero.  The radius is an integer here. *)
Definition sample_rho_phi_grid (samples : Z) (aligned : string) (radius : Z)
    : value PrimFloat.float * value PrimFloat.float :=
  let axis := linspace (float_of_Z (- radius)) (float_of_Z radius) samples in
  let rho := y ← axis; x ← axis;
             [PrimFloat.sqrt (PrimFloat.add (PrimFloat.mul x x) (PrimFloat.mul y y))] in
  (NdArray rho, NdArray (map (λ _, float_of_Z 0) rho)).

(** ** Specification-side definitions *)

(** The P polynomial of order [n] at one sample [v], in the words of the
    spec: P(0) = 2, P(1) = 6 - 8x, P(n) = (2 - 4x) P(n-1) - P(n-2). *)
Fixpoint P_pt {F} `{Backend F} (n : nat) (v : F) : F :=
  match n with
  | O => of_int 2
  | S n1 =>
      match n1 with
      | O => fsub (of_int 6) (fmul (of_int 8) v)
      | S n2 => fsub (fmul (fsub (of_int 2) (fmul (of_int 4) v)) (P_pt n1 v)) (P_pt n2 v)
      end
  end.

(** The right-hand side of the Q recurrence in the words of the spec,
    [P(n) - g(n-1) Q(n-1) - h(n-2) Q(n-2)] / f(n), every term being what the
    code returns for it when called with no precomputed terms. *)
Definition Q_recurrence_rhs {F} `{Backend F} (fuel : nat) (n : Z) (x : value F)
    : option (value F) :=
  Pn ← qbfs_recurrence_P fuel n x None None None;
  Qnm1 ← qbfs_recurrence_Q fuel (n - 1) x None None None None None None;
  Qnm2 ← qbfs_recurrence_Q fuel (n - 2) x None None None None None None;
  g ← g_qbfs fuel (n - 1);
  h ← h_qbfs fuel (n - 2);
  f ← f_qbfs fuel n;
  Some ((Pn - g * Qnm1 - h * Qnm2) / f)%py.

(** The footprint of the cache in the words of the spec: every array held
    by one of the three stores, each counted once. *)
Definition footprint {F} `{Backend F} (v : value F) : Z := default 0 (nbytes_of v).

Definition store_bytes {F} `{Backend F} {A} `{Countable A} (d : gmap A (value F)) : Z :=
  foldr Z.add 0 (footprint <$> (map_to_list d).*2).

Definition cached_bytes {F K} `{Backend F} `{Countable K} (c : cache F K) : Z :=
  store_bytes (Qs c) + store_bytes (Ps c) + store_bytes (grids c).

(** How a computation ends from a state [s]: [Q] on a value, [E] on an
    exception, [D] when the fuel runs out. *)
Definition wp {S A} (m : M S A) (Q : A → S → Prop) (E : exn → S → Prop) (D : Prop)
    (s : S) : Prop :=
  match m s with
  | Normal a s' => Q a s'
  | Raised e s' => E e s'
  | OutOfFuel => D
  end.

(** The state a call leaves behind, if it comes back at all. *)
Definition final_state {S A} (o : outcome S A) : option S :=
  match o with
  | Normal _ s => Some s
  | Raised _ s => Some s
  | OutOfFuel => None
  end.

(** The result of a call, without the state. *)
Definition map_outcome {S A B} (f : A → B) (o : outcome S A) : outcome S B :=
  match o with
  | Normal a s => Normal (f a) s
  | Raised e s => Raised e s
  | OutOfFuel => OutOfFuel
  end.

(** The value a dict holds for a key of its own. *)
Definition lookup_or {V} (v0 : V) (d : list (Z * V)) (k : Z) : V := default v0 (dict_get d k).

(** The items a build walks through: the keys in ascending order, each with
    its coefficient. *)
Definition ordered_items {F} (d : list (Z * number F)) : list (Z * number F) :=
  (λ k, (k, lookup_or (PyInt 0) d k)) <$> merge_sort Z.le d.*1.

(** The calls that write to the process-wide cache of a family: the methods
    of the cache class, and the sag builder of the family, which goes through
    them. *)
Inductive QBFS_call (F K : Type) : Type :=
  | QBFS_get_grid (samples : Z) (rho_max : K)
  | QBFS_get_PBFS (fuel : nat) (m samples : Z) (rho_max : K)
  | QBFS_get_QBFS (fuel : nat) (m samples : Z) (rho_max : K)
  | QBFS_clear
  | QBFS_build (fuel : nat) (self : sag F).
Arguments QBFS_get_grid {F K} samples rho_max.
Arguments QBFS_get_PBFS {F K} fuel m samples rho_max.
Arguments QBFS_get_QBFS {F K} fuel m samples rho_max.
Arguments QBFS_clear {F K}.
Arguments QBFS_build {F K} fuel self.

Inductive QCON_call (F K : Type) : Type :=
  | QCON_get_grid (samples : Z) (rho_max : K)
  | QCON_get_PBFS (fuel : nat) (m samples : Z) (rho_max : K)
  | QCON_get_QCON (fuel : nat) (m samples : Z) (rho_max : K)
  | QCON_clear
  | QCON_build (fuel : nat) (self : sag F).
Arguments QCON_get_grid {F K} samples rho_max.
Arguments QCON_get_PBFS {F K} fuel m samples rho_max.
Arguments QCON_get_QCON {F K} fuel m samples rho_max.
Arguments QCON_clear {F K}.
Arguments QCON_build {F K} fuel self.

Section Reachable.
Context {F K : Type} `{Backend F} `{Countable K}.
Variable make_rho_phi_grid : Z → string → K → value F * value F.
Variable rho_max_1 : K.

Definition QBFS_run (op : QBFS_call F K) (c : cache F K) : option (cache F K) :=
  match op with
  | QBFS_get_grid s r => final_state (QBFSCache.get_grid make_rho_phi_grid s r c)
  | QBFS_get_PBFS fuel m s r => final_state (QBFSCache.get_PBFS make_rho_phi_grid fuel m s r c)
  | QBFS_get_QBFS fuel m s r => final_state (QBFSCache.get_QBFS make_rho_phi_grid fuel m s r c)
  | QBFS_clear => final_state (clear c)
  | QBFS_build fuel self => final_state (QBFSSag.build make_rho_phi_grid rho_max_1 fuel self c)
  end.

(** The states of the Qbfs cache: those its calls lead to from a new
    instance, whether they return or raise. *)
Inductive QBFS_reachable : cache F K → Prop :=
  | QBFS_reach_init : QBFS_reachable init
  | QBFS_reach_step op c c' :
      QBFS_reachable c → QBFS_run op c = Some c' → QBFS_reachable c'.

Definition QCON_run (op : QCON_call F K) (c : cache F K) : option (cache F K) :=
  match op with
  | QCON_get_grid s r => final_state (QCONCache.get_grid make_rho_phi_grid s r c)
  | QCON_get_PBFS fuel m s r => final_state (QCONCache.get_PBFS make_rho_phi_grid fuel m s r c)
  | QCON_get_QCON fuel m s r => final_state (QCONCache.get_QCON make_rho_phi_grid fuel m s r c)
  | QCON_clear => final_state (clear c)
  | QCON_build fuel self => final_state (QCONSag.build make_rho_phi_grid rho_max_1 fuel self c)
  end.

Inductive QCON_reachable : cache F K → Prop :=
  | QCON_reach_init : QCON_reachable init
  | QCON_reach_step op c c' :
      QCON_reachable c → QCON_run op c = Some c' → QCON_reachable c'.

(** Every cached grid is the transformed radial grid of its key. *)
Definition grids_are (transform : value F → value F) (c : cache F K) : Prop :=
  ∀ s r v, grids c !! (s, r) = Some v → v = transform (make_rho_phi_grid s "y" r).1.

(** The P store holds, with every order above 2, the two orders below it. *)
Definition Ps_closed (c : cache F K) : Prop :=
  ∀ m s r, 2 < m → is_Some (Ps c !! (Some m, s, r)) →
    is_Some (Ps c !! (Some (m - 1), s, r)) ∧ is_Some (Ps c !! (Some (m - 2), s, r)).

(** What holds of the Qbfs cache between calls, and of the Qcon cache. *)
Definition QBFS_inv (c : cache F K) : Prop :=
  grids_are (λ rho, rho ** 2)%py c ∧ Ps_closed c.

Definition QCON_inv (c : cache F K) : Prop :=
  grids_are (λ rho, int 2 * rho ** 2 - int 1)%py c.
End Reachable.

(** ** Recursion constants of the Qcon and Zernike families *)

(** What a true division of two Python ints ends with. *)
Inductive quotient (F : Type) : Type :=
  | Quotient (q : number F)
  | ZeroDivisionError.
Arguments Quotient {F} q.
Arguments ZeroDivisionError {F}.

Section FamilyConstants.
Context {F : Type} `{Backend F}.

(** [numerator / denominator] on two Python ints: the float nearest to the
    quotient, which for operands below 2^53 is the quotient of the two
    floats; a zero denominator raises. *)
Definition int_truediv (numerator denominator : Z) : quotient F :=
  if denominator =? 0 then ZeroDivisionError
  else Quotient (PyFloat (fdiv (of_int numerator) (of_int denominator))).




(** a(n), b(n), c(n) of oe-18-13-13861, eqs. (4.1a-c). *)
Definition a_zernike (m n : Z) : quotient F :=
  let s := m + 2 * n in
  let numerator := (s + 1) * ((s - n) ^ 2 + n ^ 2 + s) in
  let denominator := (n + 1) * (s - n + 1) * s in
  int_truediv numerator denominator.

Definition b_zernike (m n : Z) : quotient F :=
  let s := m + 2 * n in
  let numerator := (s + 2) * (s + 1) in
  let denominator := (n + 1) * (s + n - 1) in
  int_truediv numerator denominator.

Definition c_zernike (m n : Z) : quotient F :=
  let s := m + 2 * n in
  let numerator := (s + 2) * (s - n) * n in
  let denominator := (n + 1) * (s - n + 1) * s in
  int_truediv numerator denominator.
End FamilyConstants.

(** ** More specification-side definitions *)

(** The Q polynomial of order [n] over [x] by the recurrence proper: every
    lower term is the polynomial of its own order. *)
Fixpoint Q_ref {F} `{Backend F} (fuel : nat) (n : Z) (x : value F) {struct fuel}
    : option (value F) :=
  match fuel with
  | O => None
  | S fuel =>
      if n =? 0 then Some (ones_like x)
      else if n =? 1 then Some (int 1 / sqrt (int 19) * (int 13 - int 16 * x))%py
      else
        Pn ← qbfs_recurrence_P fuel n x None None None;
        Qnm1 ← Q_ref fuel (n - 1) x;
        Qnm2 ← Q_ref fuel (n - 2) x;
        g ← g_qbfs fuel (n - 1);
        h ← h_qbfs fuel (n - 2);
        f ← f_qbfs fuel n;
        Some ((Pn - g * Qnm1 - h * Qnm2) / f)%py
  end.

Section Soundness.
Context {F K : Type} `{Backend F} `{Countable K}.
Variable make_rho_phi_grid : Z → string → K → value F * value F.

(** A later state holds everything an earlier one held, unchanged. *)
Definition cache_extends (c c' : cache F K) : Prop :=
  (∀ k v, Qs c !! k = Some v → Qs c' !! k = Some v) ∧
  (∀ k v, Ps c !! k = Some v → Ps c' !! k = Some v) ∧
  (∀ k v, grids c !! k = Some v → grids c' !! k = Some v).

(** The squared radial grid of a key. *)
Definition rho_squared (samples : Z) (rho_max : K) : value F :=
  ((make_rho_phi_grid samples "y" rho_max).1 ** 2)%py.

(** What the Qbfs cache holds is what the recurrences give: a P array is the
    value of [qbfs_recurrence_P] called on the grid of its key with nothing
    precomputed, a Q array the value of the recurrence proper, and every Q
    array has its P array and its grid beside it. *)
Definition QBFS_sound (c : cache F K) : Prop :=
  QBFS_inv make_rho_phi_grid c ∧
  (∀ m s r v, Ps c !! (Some m, s, r) = Some v →
     ∃ fuel, qbfs_recurrence_P fuel m (rho_squared s r) None None None = Some v) ∧
  (∀ m s r v, Qs c !! (Some m, s, r) = Some v →
     ∃ fuel, Q_ref fuel m (rho_squared s r) = Some v) ∧
  (∀ k, is_Some (Qs c !! k) →
     (∃ m, k.1.1 = Some m) ∧ is_Some (Ps c !! k) ∧ is_Some (grids c !! key_tail k)).

(** What the Qcon cache holds besides its grids: no Q array of an order
    above 2. *)
Definition QCON_low (c : cache F K) : Prop :=
  QCON_inv make_rho_phi_grid c ∧
  ∀ m s r, is_Some (Qs c !! (Some m, s, r)) → m ≤ 2.
End Soundness.

(** A value that is an array. *)
Definition is_array {F} (v : value F) : Prop :=
  match v with
  | NdArray _ => True
  | Num _ => False
  end.

(** A value that fits a grid of [n] points: a scalar, or an array of [n]
    elements. *)
Definition fits {F} (n : nat) (v : value F) : Prop :=
  match v with
  | NdArray ys => length ys = n
  | Num _ => True
  end.

Section ByteCount.
Context {F K : Type} `{Backend F} `{Countable K}.

(** What one key of the Q store adds to [nbytes]: the footprints of the Q
    array, of the P array under the same key and of the grid under the tail
    of the key. *)
Definition key_bytes (c : cache F K) (k : option Z * Z * K) : Z :=
  from_option footprint 0 (Qs c !! k) + from_option footprint 0 (Ps c !! k) +
  from_option footprint 0 (grids c !! key_tail k).

Definition bytes_by_key (c : cache F K) : Z :=
  foldr (λ k n, key_bytes c k + n) 0 (map_to_list (Qs c)).*1.
End ByteCount.

(** ** QPolySag1D.__init__ *)

(** [d[k] = v] on a dict kept as its list of items: the value is replaced
    where the key is, and a new key goes last. *)
Fixpoint setitem {A V} `{EqDecision A} (d : list (A * V)) (k : A) (v : V) : list (A * V) :=
  match d with
  | [] => [(k, v)]
  | (k', v') :: d => if decide (k' = k) then (k', v) :: d else (k', v') :: setitem d k v
  end.

(** What [__init__] has when it reaches the call of the base class: the
    coefficient dict and the keyword arguments it passes on; or the
    exception it raised, IndexError from [key[0]] on an empty keyword or
    ValueError from [int(key[1:])]. *)
Inductive init_outcome (V : Type) : Type :=
  | Initialized (coefs : list (Z * V)) (pass_args : list (string * V))
  | InitIndexError
  | InitValueError.
Arguments Initialized {V} coefs pass_args.
Arguments InitIndexError {V}.
Arguments InitValueError {V}.

Section Init.
Context {V : Type}.
(** Python's built-in [int] on a string; [None] stands for its ValueError. *)
Variable py_int : string → option Z.

(** [key[0].lower() == 'a'], with [None] for the IndexError of an empty key.
    A string is its UTF-8 bytes: a and A are the only characters [lower]
    sends to a, and each is one byte. *)
Definition starts_with_a (key : string) : option bool :=
  match key with
  | EmptyString => None
  | String ch _ => Some (bool_decide (ch = "a"%char ∨ ch = "A"%char))
  end.

(** [key[1:]] *)
Definition after_first (key : string) : string :=
  match key with
  | EmptyString => EmptyString
  | String _ rest => rest
  end.

(** The loop over [kwargs.items()]. *)
Fixpoint init_loop (kwargs : list (string * V)) (coefs : list (Z * V))
    (pass_args : list (string * V)) : init_outcome V :=
  match kwargs with
  | [] => Initialized coefs pass_args
  | (key, value) :: kwargs =>
      match starts_with_a key with
      | None => InitIndexError
      | Some true =>
          match py_int (after_first key) with
          | None => InitValueError
          | Some idx => init_loop kwargs (setitem coefs idx value) pass_args
          end
      | Some false => init_loop kwargs coefs (setitem pass_args key value)
      end
  end.

Definition QPolySag1D_init (kwargs : list (string * V)) : init_outcome V :=
  init_loop kwargs [] [].

(** The index a keyword names, if it names a coefficient. *)
Definition coefficient_index (key : string) : option Z :=
  match starts_with_a key with
  | Some true => py_int (after_first key)
  | _ => None
  end.

(** The value of the last keyword that names the coefficient [i]. *)
Definition last_coefficient (kwargs : list (string * V)) (i : Z) : option V :=
  last (omap (λ kw, if decide (coefficient_index kw.1 = Some i) then Some kw.2 else None) kwargs).

(** A keyword [__init__] gets past: not empty, and with an integer after its
    first letter if that letter is a or A. *)
Definition keyword_ok (key : string) : Prop :=
  match starts_with_a key with
  | None => False
  | Some true => is_Some (py_int (after_first key))
  | Some false => True
  end.
End Init.

(** The built-in [int] on the strings the examples use: a non-empty string
    of ASCII decimal digits is the number it writes, and a string with any
    other character in it is refused here (Python also reads signs, spaces
    and underscores, which no example has). *)
Definition digit_value (ch : ascii) : option Z :=
  let n := Z.of_nat (nat_of_ascii ch) in
  if (48 <=? n) && (n <=? 57) then Some (n - 48) else None.

Fixpoint digits_value (acc : Z) (s : string) : option Z :=
  match s with
  | EmptyString => Some acc
  | String ch rest =>
      match digit_value ch with
      | Some d => digits_value (10 * acc + d) rest
      | None => None
      end
  end.

Definition decimal_int (s : string) : option Z :=
  match s with
  | EmptyString => None
  | _ => digits_value 0 s
  end.

(** * Properties *)

(** ** The recursion constants *)

Section ConstantFacts.
Context {F : Type} `{Backend F}.

Lemma g_qbfs_unfold fuel n_minus_1 :
  g_qbfs (F:=F) (S fuel) n_minus_1 =
    if n_minus_1 =? 0 then Some (- int 1 / int 2)%py
    else g ← g_qbfs fuel (n_minus_1 - 1);
         h ← h_qbfs fuel (n_minus_1 - 1);
         f ← f_qbfs fuel n_minus_1;
         Some (- (int 1 + g * h) / f)%py.
Proof. reflexivity. Qed.

Lemma h_qbfs_unfold fuel n_minus_2 :
  h_qbfs (F:=F) (S fuel) n_minus_2 =
    f ← f_qbfs fuel n_minus_2;
    Some (int (- (n_minus_2 + 2) * (n_minus_2 + 2 - 1)) / (int 2 * f))%py.
Proof. reflexivity. Qed.

Lemma f_qbfs_unfold fuel n :
  f_qbfs (F:=F) (S fuel) n =
    if n =? 0 then Some (int 2)
    else if n =? 1 then Some (sqrt (int 19) / int 2)%py
    else g ← g_qbfs fuel (n - 1);
         h ← h_qbfs fuel (n - 2);
         Some (sqrt (int (n * (n + 1) + 3) - g ** 2 - h ** 2)%py).
Proof. reflexivity. Qed.

(** More fuel does not change a result. *)
Lemma constants_fuel_S fuel :
  (∀ n v, g_qbfs (F:=F) fuel n = Some v → g_qbfs (S fuel) n = Some v) ∧
  (∀ n v, h_qbfs (F:=F) fuel n = Some v → h_qbfs (S fuel) n = Some v) ∧
  (∀ n v, f_qbfs (F:=F) fuel n = Some v → f_qbfs (S fuel) n = Some v).
Proof.
  induction fuel as [|fuel (IHg & IHh & IHf)]; [by repeat split|].
  repeat split; intros n v.
  - rewrite (g_qbfs_unfold (S fuel)), (g_qbfs_unfold fuel).
    destruct (n =? 0); [done|]. intros Hv.
    destruct (g_qbfs fuel (n - 1)) as [g|] eqn:Eg; [|done].
    destruct (h_qbfs fuel (n - 1)) as [h|] eqn:Eh; [|done].
    destruct (f_qbfs fuel n) as [f|] eqn:Ef; [|done].
    by rewrite (IHg _ _ Eg), (IHh _ _ Eh), (IHf _ _ Ef).
  - rewrite (h_qbfs_unfold (S fuel)), (h_qbfs_unfold fuel). intros Hv.
    destruct (f_qbfs fuel n) as [f|] eqn:Ef; [|done].
    by rewrite (IHf _ _ Ef).
  - rewrite (f_qbfs_unfold (S fuel)), (f_qbfs_unfold fuel).
    destruct (n =? 0); [done|]. destruct (n =? 1); [done|]. intros Hv.
    destruct (g_qbfs fuel (n - 1)) as [g|] eqn:Eg; [|done].
    destruct (h_qbfs fuel (n - 2)) as [h|] eqn:Eh; [|done].
    by rewrite (IHg _ _ Eg), (IHh _ _ Eh).
Qed.

Lemma constants_fuel_le fuel fuel' :
  (fuel ≤ fuel')%nat →
  (∀ n v, g_qbfs (F:=F) fuel n = Some v → g_qbfs fuel' n = Some v) ∧
  (∀ n v, h_qbfs (F:=F) fuel n = Some v → h_qbfs fuel' n = Some v) ∧
  (∀ n v, f_qbfs (F:=F) fuel n = Some v → f_qbfs fuel' n = Some v).
Proof.
  induction 1 as [|fuel' _ (IHg & IHh & IHf)]; [done|].
  destruct (constants_fuel_S fuel') as (Sg & Sh & Sf). naive_solver.
Qed.

(** The three functions come back on every order from 0 on, at a call depth
    linear in the order. *)
Lemma constants_total fuel :
  ∀ n, 0 ≤ n →
    (2 * n + 1 ≤ Z.of_nat fuel → is_Some (f_qbfs (F:=F) fuel n)) ∧
    (2 * n + 2 ≤ Z.of_nat fuel → is_Some (g_qbfs (F:=F) fuel n)) ∧
    (2 * n + 2 ≤ Z.of_nat fuel → is_Some (h_qbfs (F:=F) fuel n)).
Proof.
  induction fuel as [|fuel IH]; intros n Hn; [repeat split; lia|].
  repeat split; intros Hfuel.
  - rewrite f_qbfs_unfold.
    destruct (Z.eqb_spec n 0); [done|]. destruct (Z.eqb_spec n 1); [done|].
    destruct (IH (n - 1)) as (_ & [g ->] & _); [lia..|].
    destruct (IH (n - 2)) as (_ & _ & [h ->]); [lia..|]. done.
  - rewrite g_qbfs_unfold. destruct (Z.eqb_spec n 0); [done|].
    destruct (IH (n - 1)) as (_ & [g ->] & [h ->]); [lia..|].
    destruct (IH n) as ([f ->] & _); [lia..|]. done.
  - rewrite h_qbfs_unfold.
    destruct (IH n) as ([f ->] & _); [lia..|]. done.
Qed.

(** One step of each function, all results taken at one fuel. *)
Lemma f_qbfs_step fuel n (f_n g_n1 h_n2 : value F) :
  2 ≤ n → f_qbfs fuel n = Some f_n →
  g_qbfs fuel (n - 1) = Some g_n1 → h_qbfs fuel (n - 2) = Some h_n2 →
  f_n = sqrt (int (n * (n + 1) + 3) - g_n1 ** 2 - h_n2 ** 2)%py.
Proof.
  destruct fuel as [|fuel]; [done|]. intros Hn.
  destruct (constants_fuel_S fuel) as (Sg & Sh & _).
  rewrite f_qbfs_unfold.
  destruct (Z.eqb_spec n 0); [lia|]. destruct (Z.eqb_spec n 1); [lia|].
  destruct (g_qbfs fuel (n - 1)) as [g|] eqn:Eg; [|done].
  destruct (h_qbfs fuel (n - 2)) as [h|] eqn:Eh; [|done].
  rewrite (Sg _ _ Eg), (Sh _ _ Eh). by intros [= <-] [= <-] [= <-].
Qed.

Lemma g_qbfs_step fuel m (g_m g_m1 h_m1 f_m : value F) :
  1 ≤ m → g_qbfs fuel m = Some g_m →
  g_qbfs fuel (m - 1) = Some g_m1 → h_qbfs fuel (m - 1) = Some h_m1 →
  f_qbfs fuel m = Some f_m →
  g_m = (- (int 1 + g_m1 * h_m1) / f_m)%py.
Proof.
  destruct fuel as [|fuel]; [done|]. intros Hm.
  destruct (constants_fuel_S fuel) as (Sg & Sh & Sf).
  rewrite (g_qbfs_unfold fuel m).
  destruct (Z.eqb_spec m 0); [lia|].
  destruct (g_qbfs fuel (m - 1)) as [g|] eqn:Eg; [|done].
  destruct (h_qbfs fuel (m - 1)) as [h|] eqn:Eh; [|done].
  destruct (f_qbfs fuel m) as [f|] eqn:Ef; [|done].
  rewrite (Sg _ _ Eg), (Sh _ _ Eh), (Sf _ _ Ef).
  by intros [= <-] [= <-] [= <-] [= <-].
Qed.

Lemma h_qbfs_step fuel m (h_m f_m : value F) :
  h_qbfs fuel m = Some h_m → f_qbfs fuel m = Some f_m →
  h_m = (int (- (m + 2) * (m + 2 - 1)) / (int 2 * f_m))%py.
Proof.
  destruct fuel as [|fuel]; [done|].
  destruct (constants_fuel_S fuel) as (_ & _ & Sf).
  rewrite (h_qbfs_unfold fuel m).
  destruct (f_qbfs fuel m) as [f|] eqn:Ef; [|done].
  rewrite (Sf _ _ Ef). by intros [= <-] [= <-].
Qed.

(** C6: the recursion constants follow their closed forms and recurrences.
    f(0) = 2, f(1) = sqrt(19)/2 and g(0) = -1/2 at any positive fuel; and for
    every n >= 2, at any call depth of 2n+1 or more, f(n), g(n-1), h(n-2),
    g(n-2), f(n-1) and f(n-2) all come back and satisfy
    f(n) = sqrt(n(n+1) + 3 - g(n-1)^2 - h(n-2)^2),
    g(n-1) = -(1 + g(n-2) h(n-2)) / f(n-1) and
    h(n-2) = -n(n-1) / (2 f(n-2)). *)
Theorem recursion_constants_spec :
  (∀ fuel, f_qbfs (F:=F) (S fuel) 0 = Some (int 2)) ∧
  (∀ fuel, f_qbfs (F:=F) (S fuel) 1 = Some (sqrt (int 19) / int 2)%py) ∧
  (∀ fuel, g_qbfs (F:=F) (S fuel) 0 = Some (- int 1 / int 2)%py) ∧
  (∀ n fuel, 2 ≤ n → 2 * n + 1 ≤ Z.of_nat fuel →
    ∃ f_n g_n1 h_n2 g_n2 f_n1 f_n2 : value F,
      f_qbfs fuel n = Some f_n ∧ g_qbfs fuel (n - 1) = Some g_n1 ∧
      h_qbfs fuel (n - 2) = Some h_n2 ∧ g_qbfs fuel (n - 2) = Some g_n2 ∧
      f_qbfs fuel (n - 1) = Some f_n1 ∧ f_qbfs fuel (n - 2) = Some f_n2 ∧
      f_n = sqrt (int (n * (n + 1) + 3) - g_n1 ** 2 - h_n2 ** 2)%py ∧
      g_n1 = (- (int 1 + g_n2 * h_n2) / f_n1)%py ∧
      h_n2 = (int (- n * (n - 1)) / (int 2 * f_n2))%py).
Proof.
  split; [done|]. split; [done|]. split; [done|].
  intros n fuel Hn Hfuel.
  destruct (constants_total fuel n) as ([f_n Ef] & _); [lia..|].
  destruct (constants_total fuel (n - 1)) as ([f_n1 Ef1] & [g_n1 Eg1] & _); [lia..|].
  destruct (constants_total fuel (n - 2)) as ([f_n2 Ef2] & [g_n2 Eg2] & [h_n2 Eh2]); [lia..|].
  exists f_n, g_n1, h_n2, g_n2, f_n1, f_n2.
  repeat (split; [done|]).
  split; [by eapply f_qbfs_step|].
  split.
  - eapply (g_qbfs_step fuel (n - 1)); [lia|done|..|done];
      by replace (n - 1 - 1) with (n - 2) by lia.
  - rewrite (h_qbfs_step fuel (n - 2) h_n2 f_n2 Eh2 Ef2).
    by replace (n - 2 + 2) with n by lia.
Qed.
End ConstantFacts.

(** The recurrences of C6 at order 5 on binary64. *)
Lemma recursion_constants_spec_witness :
  ∃ f_n g_n1 h_n2 g_n2 f_n1 f_n2 : value PrimFloat.float,
    f_qbfs 11 5 = Some f_n ∧ g_qbfs 11 (5 - 1) = Some g_n1 ∧
    h_qbfs 11 (5 - 2) = Some h_n2 ∧ g_qbfs 11 (5 - 2) = Some g_n2 ∧
    f_qbfs 11 (5 - 1) = Some f_n1 ∧ f_qbfs 11 (5 - 2) = Some f_n2 ∧
    f_n = sqrt (int (5 * (5 + 1) + 3) - g_n1 ** 2 - h_n2 ** 2)%py ∧
    g_n1 = (- (int 1 + g_n2 * h_n2) / f_n1)%py ∧
    h_n2 = (int (- 5 * (5 - 1)) / (int 2 * f_n2))%py.
Proof.
  apply (proj2 (proj2 (proj2 (recursion_constants_spec (F:=PrimFloat.float)))) 5 11%nat); lia.
Defined.

(** ** The P recurrence *)

Section PFacts.
Context {F : Type} `{Backend F}.

Lemma qbfs_recurrence_P_unfold fuel n (x : value F) Pnm1 Pnm2 recursion_coef :
  qbfs_recurrence_P (S fuel) n x Pnm1 Pnm2 recursion_coef =
    if n =? 0 then Some (int 2)
    else if n =? 1 then Some (int 6 - int 8 * x)%py
    else
      Pnm1 ← or_else Pnm1 (qbfs_recurrence_P fuel (n - 1) x None None None);
      Pnm2 ← or_else Pnm2 (qbfs_recurrence_P fuel (n - 2) x None None None);
      Some (default (int 2 - int 4 * x)%py recursion_coef * Pnm1 - Pnm2)%py.
Proof. reflexivity. Qed.

Lemma zip_with_fmap_same {A B C D} (op : B → C → D) (f : A → B) (g : A → C) (l : list A) :
  zip_with op (f <$> l) (g <$> l) = (λ a, op (f a) (g a)) <$> l.
Proof. induction l as [|a l IH]; csimpl; [done|by f_equal]. Qed.

(** The call comes back at any depth above the order, whatever terms the
    caller passes in. *)
Lemma qbfs_recurrence_P_total fuel :
  ∀ n (x : value F) Pnm1 Pnm2 recursion_coef,
    0 ≤ n → n < Z.of_nat fuel →
    is_Some (qbfs_recurrence_P fuel n x Pnm1 Pnm2 recursion_coef).
Proof.
  induction fuel as [|fuel IH]; intros n x Pnm1 Pnm2 rc Hn Hfuel; [lia|].
  rewrite qbfs_recurrence_P_unfold.
  destruct (Z.eqb_spec n 0); [done|]. destruct (Z.eqb_spec n 1); [done|].
  assert (is_Some (or_else Pnm1 (qbfs_recurrence_P fuel (n - 1) x None None None)))
    as [p1 ->] by (destruct Pnm1; [done|apply IH; lia]).
  assert (is_Some (or_else Pnm2 (qbfs_recurrence_P fuel (n - 2) x None None None)))
    as [p2 ->] by (destruct Pnm2; [done|apply IH; lia]).
  done.
Qed.

(** With both lower terms passed in, one frame is enough. *)
Lemma qbfs_recurrence_P_given fuel n (x p1 p2 : value F) rc :
  n ≠ 0 → n ≠ 1 →
  qbfs_recurrence_P (S fuel) n x (Some p1) (Some p2) rc =
    Some (default (int 2 - int 4 * x)%py rc * p1 - p2)%py.
Proof.
  intros H0 H1. rewrite qbfs_recurrence_P_unfold.
  destruct (Z.eqb_spec n 0); [done|]. by destruct (Z.eqb_spec n 1).
Qed.

(** C2: called on a coordinate array with no precomputed terms, the P
    recurrence returns the constant 2 at order 0 and, at every order n >= 1,
    the array whose element at each sample x is P(n) as the spec defines it:
    6 - 8x at order 1 and (2 - 4x) P(n-1) - P(n-2) from order 2 on.  The call
    comes back at any depth above the order. *)
Theorem qbfs_recurrence_P_spec (xs : list F) (n : Z) (fuel : nat) :
  0 ≤ n → n < Z.of_nat fuel →
  qbfs_recurrence_P fuel n (NdArray xs) None None None =
    Some (if n =? 0 then int 2 else NdArray (P_pt (Z.to_nat n) <$> xs)).
Proof.
  revert n. induction fuel as [|fuel IH]; intros n Hn Hfuel; [lia|].
  rewrite qbfs_recurrence_P_unfold.
  destruct (Z.eqb_spec n 0) as [->|H0]; [done|].
  destruct (Z.eqb_spec n 1) as [->|H1].
  { simpl. by rewrite <-list_fmap_compose. }
  rewrite (IH (n - 1)), (IH (n - 2)) by lia. simpl.
  destruct (Z.eqb_spec (n - 1) 0); [lia|].
  replace (Z.to_nat n) with (S (S (Z.to_nat (n - 2)))) by lia.
  replace (Z.to_nat (n - 1)) with (S (Z.to_nat (n - 2))) by lia.
  f_equal. rewrite <-list_fmap_compose.
  destruct (Z.eqb_spec (n - 2) 0) as [->|H2]; simpl.
  - rewrite zip_with_fmap_same, <-list_fmap_compose. done.
  - by rewrite zip_with_fmap_same, zip_with_fmap_same.
Qed.
End PFacts.

(** C2 at order 4 on a three-sample array. *)
Lemma qbfs_recurrence_P_spec_witness :
  qbfs_recurrence_P 5 4 (NdArray [float_of_Z 0; float_of_Z 1; float_of_Z 2]) None None None =
    Some (NdArray (P_pt 4 <$> [float_of_Z 0; float_of_Z 1; float_of_Z 2])).
Proof.
  apply (qbfs_recurrence_P_spec (F:=PrimFloat.float)
           [float_of_Z 0; float_of_Z 1; float_of_Z 2] 4 5%nat); lia.
Defined.

(** ** The Q recurrence *)

(** Two one-element arrays whose elements differ as binary64 numbers. *)
Lemma NdArray_singleton_neq (a b : PrimFloat.float) :
  PrimFloat.eqb a a = true → PrimFloat.eqb a b = false →
  NdArray [a] ≠ NdArray [b].
Proof. intros Ha Hab [= ->]. congruence. Qed.

(** At order 2 the code and the recurrence of the spec agree. *)
Lemma qbfs_recurrence_Q_order2 {F} `{Backend F} (x : value F) (fuel : nat) :
  (5 ≤ fuel)%nat →
  qbfs_recurrence_Q fuel 2 x None None None None None None = Q_recurrence_rhs fuel 2 x.
Proof.
  intros Hfuel. do 5 (destruct fuel as [|fuel]; [lia|]). reflexivity.
Qed.

(** With the five lower terms passed in, as the cache does from order 3 on,
    the call is one step of the recurrence on those terms. *)
Lemma qbfs_recurrence_Q_given {F} `{Backend F} fuel n (x Pn Pnm1 Pnm2 Qnm1 Qnm2 : value F) rc :
  n ≠ 0 → n ≠ 1 →
  qbfs_recurrence_Q (S fuel) n x (Some Pn) (Some Pnm1) (Some Pnm2) (Some Qnm1) (Some Qnm2) rc =
    g ← g_qbfs fuel (n - 1);
    h ← h_qbfs fuel (n - 2);
    f ← f_qbfs fuel n;
    Some ((Pn - g * Qnm1 - h * Qnm2) / f)%py.
Proof.
  intros H0 H1. simpl.
  destruct (Z.eqb_spec n 0); [done|]. by destruct (Z.eqb_spec n 1).
Qed.

(** C1: the Q recurrence at order 3, called with no precomputed terms on the
    one-sample array [0.0].  The call returns a value, the recurrence of the
    spec [P(3) - g(2) Q(2) - h(1) Q(1)] / f(3) has a value, and the two
    differ: the code hands P(n-2) to the call that computes P(n-1) as that
    call's own P(n-2), and P(n), P(n-1), P(n-2) and Q(n-2) to the calls that
    compute Q(n-1) and Q(n-2) as theirs. *)
Theorem qbfs_recurrence_Q_order3_off :
  ∃ code rhs : value PrimFloat.float,
    qbfs_recurrence_Q 10 3 (NdArray [float_of_Z 0]) None None None None None None = Some code ∧
    Q_recurrence_rhs 10 3 (NdArray [float_of_Z 0]) = Some rhs ∧
    code ≠ rhs.
Proof.
  eexists _, _. split; [vm_compute; reflexivity|].
  split; [vm_compute; reflexivity|].
  apply NdArray_singleton_neq; vm_compute; reflexivity.
Qed.

(** ** Reasoning rules for computations on the cache *)

Section Rules.
Context {S A : Type}.
Implicit Types (Q : A → S → Prop) (E : exn → S → Prop) (D : Prop).

Lemma wp_ret a Q E D s : Q a s → wp (mret a) Q E D s.
Proof. done. Qed.

Lemma wp_bind {B} (m : M S B) (k : B → M S A) Q E D s :
  wp m (λ b s', wp (k b) Q E D s') E D s → wp (m ≫= k) Q E D s.
Proof. unfold wp, mbind, M_bind. by destruct (m s). Qed.

Lemma wp_mono (m : M S A) Q Q' E E' D D' s :
  wp m Q E D s →
  (∀ a s', Q a s' → Q' a s') → (∀ e s', E e s' → E' e s') → (D → D') →
  wp m Q' E' D' s.
Proof. unfold wp. destruct (m s); eauto. Qed.

Lemma wp_pure_call (r : option A) Q E D s :
  match r with Some a => Q a s | None => D end → wp (pure_call r) Q E D s.
Proof. by destruct r. Qed.

Lemma wp_raise e Q E D s : E e s → wp (raise e) Q E D s.
Proof. done. Qed.

Lemma wp_out_of_fuel Q E D s : D → wp out_of_fuel Q E D s.
Proof. done. Qed.

(** A call that comes back normally, read off its [wp]. *)
Lemma wp_normal (m : M S A) Q s :
  wp m Q (λ _ _, False) False s → ∃ a s', m s = Normal a s' ∧ Q a s'.
Proof. unfold wp. destruct (m s); naive_solver. Qed.
End Rules.

Lemma wp_gets {S A B} (f : S → B) (k : B → M S A) Q E D s :
  wp (k (f s)) Q E D s → wp (gets f ≫= k) Q E D s.
Proof. done. Qed.

Lemma wp_modify {S A} (f : S → S) (k : M S A) Q E D s :
  wp k Q E D (f s) → wp (modify f ≫= λ _, k) Q E D s.
Proof. done. Qed.

(** ** The Qbfs cache *)

Section QBFSFacts.
Context {F K : Type} `{Backend F} `{Countable K}.
Variable make_rho_phi_grid : Z → string → K → value F * value F.

Abbreviation get_grid := (QBFSCache.get_grid make_rho_phi_grid).
Abbreviation get_PBFS := (QBFSCache.get_PBFS make_rho_phi_grid).
Abbreviation get_QBFS := (QBFSCache.get_QBFS make_rho_phi_grid).
Abbreviation Inv := (QBFS_inv make_rho_phi_grid).

Lemma QBFS_get_grid_run s r c :
  get_grid s r c =
    match grids c !! (s, r) with
    | Some rho => Normal rho c
    | None =>
        let rho := ((make_rho_phi_grid s "y" r).1 ** 2)%py in
        Normal rho (set_grids (s, r) rho c)
    end.
Proof.
  unfold QBFSCache.get_grid, mbind, M_bind, gets, key_tail, make_key; simpl.
  by destruct (grids c !! (s, r)).
Qed.

Lemma QBFS_get_grid_wp s r c Q E D :
  Inv c →
  (∀ v c', Inv c' → Ps c' = Ps c → Qs c' = Qs c → Q v c') →
  wp (get_grid s r) Q E D c.
Proof.
  intros [Hg Hp] HQ. unfold wp. rewrite QBFS_get_grid_run.
  destruct (grids c !! (s, r)) as [rho|] eqn:Eg; simpl.
  - by apply HQ.
  - apply HQ; [|done..]. split; [|done].
    intros s' r' v; simpl. destruct (decide ((s, r) = (s', r'))) as [[= <- <-]|Hne].
    + rewrite lookup_insert_eq. by intros [= <-].
    + rewrite lookup_insert_ne by done. apply Hg.
Qed.

Lemma Ps_closed_insert m s r v (c : cache F K) :
  Ps_closed c →
  (2 < m → is_Some (Ps c !! (Some (m - 1), s, r)) ∧ is_Some (Ps c !! (Some (m - 2), s, r))) →
  Ps_closed (set_Ps (Some m, s, r) v c).
Proof.
  intros Hc Hm m' s' r' Hm'; simpl.
  assert (∀ k, is_Some (Ps c !! k) → is_Some (<[(Some m, s, r) := v]> (Ps c) !! k)) as Hmono.
  { intros k Hk. destruct (decide ((Some m, s, r) = k)) as [<-|];
      [rewrite lookup_insert_eq | rewrite lookup_insert_ne by done]; eauto. }
  destruct (decide ((Some m, s, r) = (Some m', s', r'))) as [[= <- <- <-]|Hne].
  - intros _. destruct (Hm Hm'). split; by apply Hmono.
  - rewrite lookup_insert_ne by done. intros Hin.
    destruct (Hc m' s' r' Hm' Hin). split; by apply Hmono.
Qed.

(** [get_PBFS] keeps the invariant, only adds to the P store, and leaves the
    requested order in it.  It raises nothing; it comes back whenever the
    order is not negative and the fuel exceeds it by two ([D] stands for
    what is claimed when the fuel runs out). *)
Lemma QBFS_get_PBFS_wp (D : Prop) fuel :
  ∀ m s r c,
    D ∨ (0 ≤ m ∧ m + 2 ≤ Z.of_nat fuel) → Inv c →
    wp (get_PBFS fuel m s r)
       (λ v c', Inv c' ∧ Ps c' !! (Some m, s, r) = Some v ∧ Qs c' = Qs c ∧
                ∀ k, is_Some (Ps c !! k) → is_Some (Ps c' !! k))
       (λ _ _, False) D c.
Proof.
  induction fuel as [|fuel IH]; intros m s r c Hfuel HI.
  { destruct Hfuel; [done|lia]. }
  simpl. apply wp_gets. unfold make_key.
  destruct (Ps c !! (Some m, s, r)) as [Pm|] eqn:EP; [by apply wp_ret|].
  apply wp_bind, QBFS_get_grid_wp; [done|]. intros rho c0 HI0 HP0 HQ0.
  apply wp_bind.
  assert (∀ (Pnm1 Pnm2 : option (value F)) c1,
    Inv c1 → Qs c1 = Qs c → (∀ k, is_Some (Ps c !! k) → is_Some (Ps c1 !! k)) →
    (D ∨ is_Some (qbfs_recurrence_P fuel m rho Pnm1 Pnm2 None)) →
    (2 < m → is_Some (Ps c1 !! (Some (m - 1), s, r)) ∧
             is_Some (Ps c1 !! (Some (m - 2), s, r))) →
    wp (pure_call (qbfs_recurrence_P fuel m rho Pnm1 Pnm2 None)
          ≫= λ Pm, modify (set_Ps (Some m, s, r) Pm) ≫= λ _, mret Pm)
       (λ v c', Inv c' ∧ Ps c' !! (Some m, s, r) = Some v ∧ Qs c' = Qs c ∧
                ∀ k, is_Some (Ps c !! k) → is_Some (Ps c' !! k))
       (λ _ _, False) D c1) as Hstore.
  { intros Pnm1 Pnm2 c1 [Hg1 Hp1] HQ1 Hmono HP Hlow.
    apply wp_bind, wp_pure_call.
    destruct (qbfs_recurrence_P fuel m rho Pnm1 Pnm2 None) as [Pm|];
      [|by destruct HP as [?|[? ?]]].
    apply wp_modify, wp_ret. split_and!.
    - split; [done|]. by apply Ps_closed_insert.
    - simpl. apply lookup_insert_eq.
    - done.
    - intros k Hk. simpl. destruct (decide ((Some m, s, r) = k)) as [<-|];
        [rewrite lookup_insert_eq | rewrite lookup_insert_ne by done]; eauto. }
  destruct (Z.gtb_spec m 2) as [Hm|Hm].
  - apply wp_bind. eapply wp_mono; [apply (IH (m - 2) s r c0); [|done]|..]; [|simpl|done..].
    { destruct Hfuel; [by left|right; lia]. }
    intros Pnm2 c1 (HI1 & HP1 & HQ1 & Hmono1).
    apply wp_bind. eapply wp_mono; [apply (IH (m - 1) s r c1); [|done]|..]; [|simpl|done..].
    { destruct Hfuel; [by left|right; lia]. }
    intros Pnm1 c2 (HI2 & HP2 & HQ2 & Hmono2).
    apply wp_ret, Hstore; [done|congruence| | |].
    + intros k Hk. apply Hmono2, Hmono1. by rewrite HP0.
    + destruct Hfuel as [?|[? ?]]; [by left|right].
      destruct fuel; [lia|]. rewrite qbfs_recurrence_P_given by lia. done.
    + intros _. split; [by rewrite HP2|]. apply Hmono2. by rewrite HP1.
  - apply wp_ret, Hstore; [done..| | |lia].
    + intros k. by rewrite HP0.
    + destruct Hfuel as [?|[? ?]]; [by left|right].
      apply qbfs_recurrence_P_total; lia.
Qed.
(** [get_QBFS] keeps the invariant and raises nothing. *)
Lemma QBFS_get_QBFS_inv fuel :
  ∀ m s r c, Inv c → wp (get_QBFS fuel m s r) (λ _ c', Inv c') (λ _ _, False) True c.
Proof.
  induction fuel as [|fuel IH]; intros m s r c HI; [done|].
  simpl. apply wp_gets.
  destruct (Qs c !! make_key (Some m) s r) as [Qm|]; [by apply wp_ret|].
  apply wp_bind, QBFS_get_grid_wp; [done|]. intros rho c0 HI0 _ _.
  apply wp_bind.
  eapply wp_mono; [apply (QBFS_get_PBFS_wp True fuel m s r c0); [by left|done]|simpl|done..].
  intros Pm c1 (HI1 & _). apply wp_bind.
  assert (∀ Pnm1 Pnm2 Qnm1 Qnm2 c2, Inv c2 →
    wp (pure_call (qbfs_recurrence_Q fuel m rho (Some Pm) Pnm1 Pnm2 Qnm1 Qnm2 None)
          ≫= λ Qm, modify (set_Qs (make_key (Some m) s r) Qm) ≫= λ _, mret Qm)
       (λ _ c', Inv c') (λ _ _, False) True c2) as Hstore.
  { intros Pnm1 Pnm2 Qnm1 Qnm2 c2 HI2. apply wp_bind, wp_pure_call.
    destruct (qbfs_recurrence_Q _ _ _ _ _ _ _ _ _); [|done].
    by apply wp_modify, wp_ret. }
  destruct (m >? 2); [|by apply wp_ret, Hstore].
  apply wp_bind.
  eapply wp_mono; [apply (QBFS_get_PBFS_wp True fuel (m - 2) s r c1); [by left|done]|simpl|done..].
  intros Pnm2 c2 (HI2 & _). apply wp_bind.
  eapply wp_mono; [apply (QBFS_get_PBFS_wp True fuel (m - 1) s r c2); [by left|done]|simpl|done..].
  intros Pnm1 c3 (HI3 & _). apply wp_bind.
  eapply wp_mono; [by apply (IH (m - 2) s r c3)|simpl|done..].
  intros Qnm2 c4 HI4. apply wp_bind.
  eapply wp_mono; [by apply (IH (m - 1) s r c4)|simpl|done..].
  intros Qnm1 c5 HI5. by apply wp_ret, Hstore.
Qed.

End QBFSFacts.

(** ** The Qcon cache *)

Section QCONFacts.
Context {F K : Type} `{Backend F} `{Countable K}.
Variable make_rho_phi_grid : Z → string → K → value F * value F.

Abbreviation get_grid := (QCONCache.get_grid make_rho_phi_grid).
Abbreviation get_PBFS := (QCONCache.get_PBFS make_rho_phi_grid).
Abbreviation get_QCON := (QCONCache.get_QCON make_rho_phi_grid).

Lemma QCON_get_grid_run s r c :
  get_grid s r c =
    match grids c !! (s, r) with
    | Some rho => Normal rho c
    | None =>
        let rho := (int 2 * (make_rho_phi_grid s "y" r).1 ** 2 - int 1)%py in
        Normal rho (set_grids (s, r) rho c)
    end.
Proof.
  unfold QCONCache.get_grid, mbind, M_bind, gets, key_tail, make_key; simpl.
  by destruct (grids c !! (s, r)).
Qed.

(** A property of the cache that writes to the P and Q stores keep and that
    [get_grid] keeps: the invariant of the grids, or no property at all. *)
Section Invariant.
Variable I : cache F K → Prop.
Hypothesis I_set_Ps : ∀ k v c, I c → I (set_Ps k v c).
Hypothesis I_set_Qs : ∀ k v c, I c → I (set_Qs k v c).
Hypothesis I_set_grids : ∀ s r c,
  I c → grids c !! (s, r) = None →
  I (set_grids (s, r) (int 2 * (make_rho_phi_grid s "y" r).1 ** 2 - int 1)%py c).

Lemma QCON_get_grid_wp s r c Q E D :
  I c → (∀ v c', I c' → Qs c' = Qs c → Q v c') → wp (get_grid s r) Q E D c.
Proof.
  intros HI HQ. unfold wp. rewrite QCON_get_grid_run.
  destruct (grids c !! (s, r)) as [rho|] eqn:Eg; simpl; apply HQ; auto.
Qed.

(** [get_PBFS] raises nothing, leaves the Q store alone, and comes back
    whenever the order is not negative and the fuel exceeds it by two. *)
Lemma QCON_get_PBFS_wp (D : Prop) fuel :
  ∀ m s r c,
    D ∨ (0 ≤ m ∧ m + 2 ≤ Z.of_nat fuel) → I c →
    wp (get_PBFS fuel m s r) (λ _ c', I c' ∧ Qs c' = Qs c) (λ _ _, False) D c.
Proof.
  induction fuel as [|fuel IH]; intros m s r c Hfuel HI.
  { destruct Hfuel; [done|lia]. }
  simpl. apply wp_gets.
  destruct (Ps c !! make_key (Some m) s r) as [Pm|]; [by apply wp_ret|].
  apply wp_bind, QCON_get_grid_wp; [done|]. intros rho c0 HI0 HQ0.
  apply wp_bind.
  assert (∀ (Pnm1 Pnm2 : option (value F)) c1,
    I c1 → Qs c1 = Qs c →
    (D ∨ is_Some (qbfs_recurrence_P fuel m rho Pnm1 Pnm2 None)) →
    wp (pure_call (qbfs_recurrence_P fuel m rho Pnm1 Pnm2 None)
          ≫= λ Pm, modify (set_Ps (make_key (Some m) s r) Pm) ≫= λ _, mret Pm)
       (λ _ c', I c' ∧ Qs c' = Qs c) (λ _ _, False) D c1) as Hstore.
  { intros Pnm1 Pnm2 c1 HI1 HQ1 HP. apply wp_bind, wp_pure_call.
    destruct (qbfs_recurrence_P fuel m rho Pnm1 Pnm2 None) as [Pm|];
      [|by destruct HP as [?|[? ?]]].
    apply wp_modify, wp_ret. split; [by apply I_set_Ps|done]. }
  destruct (Z.gtb_spec m 2) as [Hm|Hm].
  - apply wp_bind. eapply wp_mono; [apply (IH (m - 2) s r c0); [|done]|..]; [|simpl|done..].
    { destruct Hfuel; [by left|right; lia]. }
    intros Pnm2 c1 (HI1 & HQ1).
    apply wp_bind. eapply wp_mono; [apply (IH (m - 1) s r c1); [|done]|..]; [|simpl|done..].
    { destruct Hfuel; [by left|right; lia]. }
    intros Pnm1 c2 (HI2 & HQ2).
    apply wp_ret, Hstore; [done|congruence|].
    destruct Hfuel as [?|[? ?]]; [by left|right].
    destruct fuel; [lia|]. rewrite qbfs_recurrence_P_given by lia. done.
  - apply wp_ret, Hstore; [done..|].
    destruct Hfuel as [?|[? ?]]; [by left|right].
    apply qbfs_recurrence_P_total; lia.
Qed.

(** With the key of an order above 2 missing from the Q store, [get_QCON]
    ends in the AttributeError of the missing [get_QBFS]; in general it
    raises nothing else. *)
Lemma QCON_get_QCON_wp (D : Prop) fuel m s r c :
  D ∨ (2 < m ∧ m + 3 ≤ Z.of_nat fuel) → I c →
  wp (get_QCON fuel m s r)
     (λ _ c', I c' ∧ (2 < m → is_Some (Qs c !! (Some m, s, r))))
     (λ e c', I c' ∧ e = AttributeError "get_QBFS") D c.
Proof.
  intros Hfuel HI. destruct fuel as [|fuel]; [destruct Hfuel; [done|lia]|].
  simpl. apply wp_gets. unfold make_key.
  destruct (Qs c !! (Some m, s, r)) as [Qm|] eqn:EQ; [apply wp_ret; eauto|].
  apply wp_bind, QCON_get_grid_wp; [done|]. intros rho c0 HI0 HQ0.
  assert (∀ m' c1, D ∨ (0 ≤ m' ∧ m' ≤ m) → I c1 →
    wp (get_PBFS fuel m' s r) (λ _ c', I c') (λ e c', I c' ∧ e = AttributeError "get_QBFS")
       D c1) as HPBFS.
  { intros m' c1 Hm' HI1.
    eapply wp_mono; [apply (QCON_get_PBFS_wp D fuel m' s r c1); [|done]|..];
      [|by intros ? ? [? ?]|done..].
    destruct Hfuel as [?|[? ?]]; [by left|]. destruct Hm'; [by left|right; lia]. }
  apply wp_bind. unfold QCONCache.invoke at 1. simpl.
  eapply wp_mono; [apply (HPBFS m c0); [|done]|simpl|done..].
  { destruct Hfuel as [?|[? ?]]; [by left|right; lia]. }
  intros Pm c1 HI1. apply wp_bind.
  destruct (Z.gtb_spec m 2) as [Hm|Hm].
  - apply wp_bind. unfold QCONCache.invoke at 1. simpl.
    eapply wp_mono; [apply (HPBFS (m - 2) c1); [|done]|simpl|done..].
    { destruct Hfuel as [?|[? ?]]; [by left|right; lia]. }
    intros Pnm2 c2 HI2. apply wp_bind. unfold QCONCache.invoke at 1. simpl.
    eapply wp_mono; [apply (HPBFS (m - 1) c2); [|done]|simpl|done..].
    { destruct Hfuel as [?|[? ?]]; [by left|right; lia]. }
    intros Pnm1 c3 HI3. apply wp_bind. unfold QCONCache.invoke at 1. simpl.
    by apply wp_raise.
  - apply wp_ret, wp_bind, wp_pure_call.
    destruct (qbfs_recurrence_Q _ _ _ _ _ _ _ _ _) as [Qm|].
    + apply wp_modify, wp_ret. split; [by apply I_set_Qs|lia].
    + destruct Hfuel as [?|[? ?]]; [done|lia].
Qed.
End Invariant.

(** C4: for every order m > 2 whose key (m, samples, rho_max) is not in the
    Q store, whatever else the cache holds, [get_QCON(m, samples, rho_max)]
    ends in AttributeError on the attribute [get_QBFS] at any fuel of m + 3
    or more, and so does the callable entry point; on a new or cleared cache
    this is every order above 2. *)
Theorem get_QCON_raises (c : cache F K) (m samples : Z) (rho_max : K) (fuel : nat) :
  2 < m → Qs c !! (Some m, samples, rho_max) = None → m + 3 ≤ Z.of_nat fuel →
  (∃ c', get_QCON fuel m samples rho_max c = Raised (AttributeError "get_QBFS") c') ∧
  (∃ c', QCONCache.call make_rho_phi_grid fuel m samples rho_max c =
           Raised (AttributeError "get_QBFS") c') ∧
  (∃ c', get_QCON fuel m samples rho_max init = Raised (AttributeError "get_QBFS") c').
Proof.
  intros Hm Hmiss Hfuel.
  assert (∀ c0 : cache F K, Qs c0 !! (Some m, samples, rho_max) = None →
    ∃ c', get_QCON fuel m samples rho_max c0 = Raised (AttributeError "get_QBFS") c') as Hall.
  { intros c0 Hmiss0.
    pose proof (QCON_get_QCON_wp (λ _, True) (λ _ _ _ _, I) (λ _ _ _ _, I) (λ _ _ _ _ _, I) False
                  fuel m samples rho_max c0) as Hwp.
    unfold wp in Hwp.
    destruct (get_QCON fuel m samples rho_max c0) as [Qm c'|e c'|].
    - destruct Hwp as [_ [? HQ]]; [right; lia|done|lia|]. by rewrite Hmiss0 in HQ.
    - destruct Hwp as [_ ->]; [right; lia|done|]. by exists c'.
    - destruct Hwp; [right; lia|done]. }
  split; [by apply Hall|]. split; [by apply Hall|]. by apply Hall.
Qed.
End QCONFacts.

(** C4 at order 3, on a cache that holds the Q term of order 1. *)
Lemma get_QCON_raises_witness :
  (∃ c', QCONCache.get_QCON sample_rho_phi_grid 6 3 3 1
           (set_Qs (Some 1, 3, 1) (int 0) init) = Raised (AttributeError "get_QBFS") c') ∧
  (∃ c', QCONCache.call sample_rho_phi_grid 6 3 3 1
           (set_Qs (Some 1, 3, 1) (int 0) init) = Raised (AttributeError "get_QBFS") c') ∧
  (∃ c', QCONCache.get_QCON sample_rho_phi_grid 6 3 3 1 init =
           Raised (AttributeError "get_QBFS") c').
Proof.
  apply (get_QCON_raises sample_rho_phi_grid (set_Qs (Some 1, 3, 1) (int 0) init) 3 3 1 6);
    [lia|vm_compute; reflexivity|lia].
Defined.

(** ** The window of the sag builders *)

(** C3: the Qcon sag builder run on the coefficients {0: 1.0} over the
    sampled grid of 3 by 3 points, from a new cache.  The build comes back;
    at the centre of the aperture (index 4 of the buffer, where rho^2 = 0)
    the grid it reads from the cache holds 2 rho^2 - 1 = -1, the window
    r2 (1 - r2) is -2 there and so is the sag, not 0.  The Qbfs builder on
    the same input reads rho^2 = 0 and leaves the sag at 0. *)
Theorem QCONSag_build_center_nonzero :
  let self := Sag [(0, PyFloat (float_of_Z 1))] 3 (zeros [3; 3]) in
  ∃ rho2 r2 sag_con sag_bfs c_con c_bfs built_con built_bfs,
    ((sample_rho_phi_grid 3 "y" 1).1 ** 2)%py = NdArray rho2 ∧
    rho2 !! 4%nat = Some (float_of_Z 0) ∧
    QCONSag.build sample_rho_phi_grid 1 5 self init = Normal built_con c_con ∧
    grids c_con !! (3, 1) = Some (NdArray r2) ∧
    r2 !! 4%nat = Some (float_of_Z (-1)) ∧
    phase built_con = NdArray sag_con ∧
    sag_con !! 4%nat = Some (float_of_Z (-2)) ∧
    feq0 (float_of_Z (-2)) = false ∧
    QBFSSag.build sample_rho_phi_grid 1 5 self init = Normal built_bfs c_bfs ∧
    phase built_bfs = NdArray sag_bfs ∧
    sag_bfs !! 4%nat = Some (float_of_Z 0).
Proof.
  intros self. eexists _, _, _, _, _, _, _, _.
  split; [vm_compute; reflexivity|]. split; [vm_compute; reflexivity|].
  split; [vm_compute; reflexivity|]. split; [vm_compute; reflexivity|].
  split; [vm_compute; reflexivity|]. split; [vm_compute; reflexivity|].
  split; [vm_compute; reflexivity|]. split; [vm_compute; reflexivity|].
  split; [vm_compute; reflexivity|]. split; vm_compute; reflexivity.
Qed.

(** ** The byte count of a cache *)

(** C10: the Qbfs cache after [get_QBFS(1, 3, 1)] and [get_QBFS(2, 3, 1)] on
    a new instance.  It holds two Q arrays, two P arrays and one grid, each
    of 9 binary64 numbers, 360 bytes in all; [nbytes] returns 432, having
    added the one grid once for each key of the Q store.  And after
    [get_PBFS(1, 3, 1)] alone the cache holds a P array and a grid, 144
    bytes, of which [nbytes] counts none, the Q store being empty. *)
Theorem nbytes_miscounts :
  (∃ Q1 Q2 c1 c2,
     QBFSCache.get_QBFS sample_rho_phi_grid 9 1 3 1 init = Normal Q1 c1 ∧
     QBFSCache.get_QBFS sample_rho_phi_grid 9 2 3 1 c1 = Normal Q2 c2 ∧
     cached_bytes c2 = 360 ∧ nbytes c2 = Normal 432 c2) ∧
  (∃ P1 c1,
     QBFSCache.get_PBFS sample_rho_phi_grid 9 1 3 1 init = Normal P1 c1 ∧
     cached_bytes c1 = 144 ∧ nbytes c1 = Normal 0 c1).
Proof.
  split.
  - eexists _, _, _, _. split; [vm_compute; reflexivity|].
    split; [vm_compute; reflexivity|]. split; vm_compute; reflexivity.
  - eexists _, _. split; [vm_compute; reflexivity|]. split; vm_compute; reflexivity.
Qed.

(** With order 0 in the cache the P store holds the Python int 2 that
    [qbfs_recurrence_P] returns for it, and [nbytes] ends in AttributeError. *)
Lemma nbytes_order0_raises :
  ∃ Q0 c0,
    QBFSCache.get_QBFS sample_rho_phi_grid 9 0 3 1 init = Normal Q0 c0 ∧
    Ps c0 !! (Some 0, 3, 1) = Some (int 2) ∧
    nbytes c0 = Raised (AttributeError "nbytes") c0.
Proof.
  eexists _, _. split; [vm_compute; reflexivity|]. split; vm_compute; reflexivity.
Qed.

(** ** The coefficient dict *)

Section DictFacts.
Context {V : Type}.
Implicit Types (d : list (Z * V)) (k : Z) (v : V).

Lemma dict_get_Some_elem d k v : dict_get d k = Some v → (k, v) ∈ d.
Proof.
  induction d as [|[k' v'] d IH]; simpl; [done|].
  destruct (Z.eqb_spec k' k) as [->|Hne].
  - intros [= ->]. apply list_elem_of_here.
  - intros Hd. by apply list_elem_of_further, IH.
Qed.

Lemma dict_get_elem_Some d k v : NoDup d.*1 → (k, v) ∈ d → dict_get d k = Some v.
Proof.
  induction d as [|[k' v'] d IH]; simpl; [by intros _ ?%elem_of_nil|].
  intros [Hk' Hd]%NoDup_cons [[= -> ->]|Hin]%elem_of_cons.
  - by rewrite Z.eqb_refl.
  - destruct (Z.eqb_spec k' k) as [->|Hne]; [|by apply IH].
    destruct Hk'. change k with (k, v).1. by apply list_elem_of_fmap_2.
Qed.

Lemma dict_get_None d k : k ∉ d.*1 → dict_get d k = None.
Proof.
  intros Hk. destruct (dict_get d k) as [v|] eqn:Ed; [|done].
  destruct Hk. apply dict_get_Some_elem in Ed.
  change k with (k, v).1. by apply list_elem_of_fmap_2.
Qed.

Lemma dict_get_is_Some d k : k ∈ d.*1 → is_Some (dict_get d k).
Proof.
  induction d as [|[k' v'] d IH]; simpl; [by intros ?%elem_of_nil|].
  intros [->|Hin]%elem_of_cons.
  - rewrite Z.eqb_refl. eauto.
  - destruct (k' =? k); eauto.
Qed.

(** A dict read by key does not show the order its items went in. *)
Lemma dict_get_Permutation d1 d2 k :
  NoDup d1.*1 → d1 ≡ₚ d2 → dict_get d1 k = dict_get d2 k.
Proof.
  intros Hnd Hp.
  assert (NoDup d2.*1) as Hnd2 by (by rewrite <-Hp).
  destruct (dict_get d1 k) as [v|] eqn:E1.
  - symmetry. apply dict_get_elem_Some; [done|].
    rewrite <-Hp. by apply dict_get_Some_elem.
  - destruct (dict_get d2 k) as [v|] eqn:E2; [|done].
    apply dict_get_Some_elem in E2. rewrite <-Hp in E2.
    apply dict_get_elem_Some in E2; [|done]. congruence.
Qed.

(** Reading a key other than [k] skips an item under [k]. *)
Lemma dict_get_app_cons_ne d1 d2 k k' v :
  k ≠ k' → dict_get (d1 ++ (k, v) :: d2) k' = dict_get (d1 ++ d2) k'.
Proof.
  intros Hne. induction d1 as [|[k1 v1] d1 IH]; simpl.
  - by destruct (Z.eqb_spec k k').
  - by rewrite IH.
Qed.
End DictFacts.

(** Ascending lists of integers with the same elements are the same list. *)
Lemma merge_sort_Permutation_eq (l1 l2 : list Z) :
  l1 ≡ₚ l2 → merge_sort Z.le l1 = merge_sort Z.le l2.
Proof.
  intros Hp. apply (Sorted_unique Z.le); [apply Sorted_merge_sort; apply _..|].
  by rewrite !merge_sort_Permutation.
Qed.

Lemma ordered_items_keys {F} (d : list (Z * number F)) :
  (ordered_items d).*1 = merge_sort Z.le d.*1.
Proof.
  unfold ordered_items. rewrite <-list_fmap_compose.
  rewrite <-(list_fmap_id (merge_sort Z.le d.*1)) at 2. by apply list_fmap_ext.
Qed.

(** The build walks the orders in ascending numeric order. *)
Lemma ordered_items_sorted {F} (d : list (Z * number F)) :
  Sorted Z.le (ordered_items d).*1.
Proof. rewrite ordered_items_keys. apply Sorted_merge_sort; apply _. Qed.

Lemma ordered_items_Permutation {F} (d1 d2 : list (Z * number F)) :
  NoDup d1.*1 → d1 ≡ₚ d2 → ordered_items d1 = ordered_items d2.
Proof.
  intros Hnd Hp. unfold ordered_items.
  rewrite (merge_sort_Permutation_eq d1.*1 d2.*1) by (by rewrite Hp).
  apply list_fmap_ext. intros _ k _. unfold lookup_or.
  by rewrite (dict_get_Permutation d1 d2).
Qed.

(** ** The sag builder *)

Lemma filter_StronglySorted {A} (R : relation A) (P : A → Prop) `{∀ x, Decision (P x)}
    (l : list A) :
  StronglySorted R l → StronglySorted R (filter P l).
Proof.
  induction 1 as [|a l Hl IH Ha]; [constructor|].
  rewrite filter_cons. destruct (decide (P a)); [|done].
  constructor; [done|]. apply Forall_forall. intros x [_ Hx]%list_elem_of_filter.
  by eapply Forall_forall in Ha.
Qed.

Lemma filter_all {A} (P : A → Prop) `{∀ x, Decision (P x)} (l : list A) :
  Forall P l → filter P l = l.
Proof.
  induction 1 as [|a l Ha Hl IH]; [done|].
  by rewrite filter_cons_True, IH.
Qed.

(** Sorting the keys without [k] is sorting them all and dropping [k]. *)
Lemma merge_sort_without (k : Z) (l1 l2 : list Z) :
  NoDup (l1 ++ k :: l2) →
  merge_sort Z.le (l1 ++ l2) = filter (λ k', k ≠ k') (merge_sort Z.le (l1 ++ k :: l2)).
Proof.
  intros Hnd. apply (StronglySorted_unique Z.le).
  - apply StronglySorted_merge_sort; apply _.
  - apply filter_StronglySorted, StronglySorted_merge_sort; apply _.
  - rewrite !merge_sort_Permutation, filter_app, filter_cons_False by naive_solver.
    apply NoDup_app in Hnd as (_ & Hk1 & [Hk2 _]%NoDup_cons).
    rewrite !filter_all; [done|..].
    + apply Forall_forall. intros k' Hk' ->. done.
    + apply Forall_forall. intros k' Hk' ->. by apply (Hk1 k'); [|left].
Qed.

Lemma zip_fmap_same {A B} (f : A → B) (l : list A) :
  zip l (f <$> l) = (λ a, (a, f a)) <$> l.
Proof. induction l as [|a l IH]; csimpl; [done|by f_equal]. Qed.

Section BuildFacts.
Context {F K : Type} `{Backend F} `{Countable K}.
Variable _cache : nat → Z → Z → K → M (cache F K) (value F).
Variable rho_max_1 : K.

Abbreviation accumulate := (QPolySag1D.accumulate _cache rho_max_1).
Abbreviation base_build := (QPolySag1D.build _cache rho_max_1).
Abbreviation nonzero := (λ item : Z * number F, num_eq0 item.2 = false).

Lemma mapM_getitem (d : list (Z * number F)) (l : list Z) (c : cache F K) :
  Forall (λ k, k ∈ d.*1) l →
  mapM (QPolySag1D.getitem d) l c = Normal (lookup_or (PyInt 0) d <$> l) c.
Proof.
  induction 1 as [|k l Hk Hl IH]; [done|].
  simpl. unfold mbind, M_bind at 1. unfold QPolySag1D.getitem at 1, lookup_or at 1.
  destruct (dict_get_is_Some d k Hk) as [v ->]. simpl.
  unfold M_bind at 1. by rewrite IH.
Qed.

(** A build is its loop over the ordered items, from an array of zeros. *)
Lemma build_run fuel (self : sag F) (c : cache F K) :
  base_build fuel self c =
    if samples self <? 0 then Raised ValueError c
    else map_outcome (λ p, set_phase p self)
           (accumulate fuel (samples self) (ordered_items (coefs self))
              (zeros [samples self; samples self]) c).
Proof.
  unfold QPolySag1D.build, mbind, M_bind at 1.
  destruct (samples self <? 0); [done|]. simpl.
  unfold M_bind at 1. rewrite mapM_getitem.
  - rewrite zip_fmap_same. fold (ordered_items (coefs self)).
    unfold M_bind. by destruct (QPolySag1D.accumulate _ _ _ _ _ _ _).
  - apply Forall_forall. intros k. by rewrite merge_sort_Permutation.
Qed.

(** The loop passes over the items whose coefficient is zero. *)
Lemma accumulate_nonzero fuel s (items : list (Z * number F)) :
  ∀ p c, accumulate fuel s items p c = accumulate fuel s (filter nonzero items) p c.
Proof.
  induction items as [|[term coef] items IH]; intros p c; [done|].
  rewrite filter_cons. simpl. destruct (num_eq0 coef) eqn:E0.
  - rewrite decide_False by done. apply IH.
  - rewrite decide_True by done. simpl. rewrite E0.
    unfold mbind, M_bind. destruct (_cache fuel term s rho_max_1 c); [apply IH|done..].
Qed.

(** The items that count are the same with or without a zero coefficient. *)
Lemma ordered_items_without (l1 l2 : list (Z * number F)) k z :
  NoDup (l1 ++ (k, z) :: l2).*1 → num_eq0 z = true →
  filter nonzero (ordered_items (l1 ++ (k, z) :: l2)) =
    filter nonzero (ordered_items (l1 ++ l2)).
Proof.
  intros Hnd Hz. unfold ordered_items.
  assert (lookup_or (PyInt 0) (l1 ++ (k, z) :: l2) k = z) as Hk.
  { unfold lookup_or. rewrite (dict_get_elem_Some _ k z); [done..|].
    apply elem_of_app. right. left. }
  rewrite fmap_app, fmap_cons in Hnd. simpl in Hnd.
  rewrite !fmap_app, fmap_cons. simpl.
  rewrite (merge_sort_without k l1.*1 l2.*1 Hnd).
  induction (merge_sort Z.le (l1.*1 ++ k :: l2.*1)) as [|k' l IH]; [done|].
  rewrite fmap_cons, !filter_cons. destruct (decide (k = k')) as [<-|Hne].
  - simpl. rewrite Hk, decide_False by (rewrite Hz; done).
    rewrite decide_False by naive_solver. apply IH.
  - rewrite (decide_True (P:=k ≠ k')) by done. rewrite fmap_cons, filter_cons.
    assert (lookup_or (PyInt 0) (l1 ++ (k, z) :: l2) k' = lookup_or (PyInt 0) (l1 ++ l2) k')
      as -> by (unfold lookup_or; by rewrite dict_get_app_cons_ne).
    by rewrite IH.
Qed.

(** What a result shows once the coefficient dict is left out of it. *)
Lemma base_build_phase fuel (self1 self2 : sag F) c :
  samples self1 = samples self2 →
  filter nonzero (ordered_items (coefs self1)) = filter nonzero (ordered_items (coefs self2)) →
  map_outcome phase (base_build fuel self1 c) = map_outcome phase (base_build fuel self2 c).
Proof.
  intros Hs Hitems. rewrite !build_run, <-Hs.
  destruct (samples self1 <? 0); [done|].
  rewrite (accumulate_nonzero _ _ (ordered_items (coefs self1))), Hitems,
    <-(accumulate_nonzero _ _ (ordered_items (coefs self2))).
  by destruct (QPolySag1D.accumulate _ _ _ _ _ _ _).
Qed.
End BuildFacts.

(** ** The states of the caches *)

Section ReachableFacts.
Context {F K : Type} `{Backend F} `{Countable K}.
Variable make_rho_phi_grid : Z → string → K → value F * value F.
Variable rho_max_1 : K.

Lemma wp_final_state {A} (m : M (cache F K) A) (I : cache F K → Prop) c c' :
  wp m (λ _ s, I s) (λ _ s, I s) True c → final_state (m c) = Some c' → I c'.
Proof. unfold wp. destruct (m c); simpl; naive_solver. Qed.

(** A build keeps what every call of its cache keeps. *)
Lemma base_build_inv (I : cache F K → Prop)
    (_cache : nat → Z → Z → K → M (cache F K) (value F)) fuel (self : sag F) c :
  (∀ m s r c, I c → wp (_cache fuel m s r) (λ _ c', I c') (λ _ c', I c') True c) →
  I c →
  wp (QPolySag1D.build _cache rho_max_1 fuel self)
     (λ self' c', I c' ∧ samples self' = samples self) (λ _ c', I c') True c.
Proof.
  intros Hcall HI. unfold wp. rewrite build_run.
  destruct (samples self <? 0); [done|].
  assert (∀ items p c, I c →
    wp (QPolySag1D.accumulate _cache rho_max_1 fuel (samples self) items p)
       (λ _ c', I c') (λ _ c', I c') True c) as Hloop.
  { clear c HI. intros items. induction items as [|[term coef] items IH]; intros p c HI; [done|].
    simpl. destruct (num_eq0 coef); [by apply IH|].
    apply wp_bind. eapply wp_mono; [by apply Hcall|simpl|done..].
    intros t c' HI'. by apply IH. }
  specialize (Hloop (ordered_items (coefs self)) (zeros [samples self; samples self]) c HI).
  unfold wp in Hloop. by destruct (QPolySag1D.accumulate _ _ _ _ _ _ _).
Qed.

Lemma QBFS_init_inv : QBFS_inv make_rho_phi_grid (init (F:=F) (K:=K)).
Proof.
  split; [intros s r v|intros m s r _]; simpl; rewrite lookup_empty;
    [done|by intros [? ?]].
Qed.

(** The invariant holds in every state of the Qbfs cache. *)
Lemma QBFS_reachable_inv c :
  QBFS_reachable make_rho_phi_grid rho_max_1 c → QBFS_inv make_rho_phi_grid c.
Proof.
  induction 1 as [|op c c' _ IH Hrun]; [apply QBFS_init_inv|].
  destruct op as [s r|fuel m s r|fuel m s r| |fuel self]; simpl in Hrun.
  - eapply wp_final_state; [|done]. by apply QBFS_get_grid_wp.
  - eapply wp_final_state; [|done].
    eapply wp_mono; [apply (QBFS_get_PBFS_wp make_rho_phi_grid True fuel m s r c);
                       [by left|done]|..];
      [by intros ? ? [? ?]|done..].
  - eapply wp_final_state; [|done].
    eapply wp_mono; [by apply (QBFS_get_QBFS_inv make_rho_phi_grid fuel m s r c)|..]; done.
  - injection Hrun as <-. apply QBFS_init_inv.
  - eapply wp_final_state; [|done]. unfold QBFSSag.build. apply wp_bind.
    eapply wp_mono; [apply (base_build_inv (QBFS_inv make_rho_phi_grid)); [|done]|simpl|done..].
    + intros m s r c0 HI0.
      eapply wp_mono; [by apply (QBFS_get_QBFS_inv make_rho_phi_grid fuel m s r c0)|..]; done.
    + intros self' c1 [HI1 _]. apply wp_bind, QBFS_get_grid_wp; [done|].
      intros r2 c2 HI2 _ _. by apply wp_ret.
Qed.

Lemma QCON_inv_set_grids s r (c : cache F K) :
  QCON_inv make_rho_phi_grid c → grids c !! (s, r) = None →
  QCON_inv make_rho_phi_grid
    (set_grids (s, r) (int 2 * (make_rho_phi_grid s "y" r).1 ** 2 - int 1)%py c).
Proof.
  intros Hg _ s' r' v; simpl.
  destruct (decide ((s, r) = (s', r'))) as [[= <- <-]|Hne].
  - rewrite lookup_insert_eq. by intros [= <-].
  - rewrite lookup_insert_ne by done. apply Hg.
Qed.

Lemma QCON_get_QCON_inv fuel m s r c :
  QCON_inv make_rho_phi_grid c →
  wp (QCONCache.get_QCON make_rho_phi_grid fuel m s r)
     (λ _ c', QCON_inv make_rho_phi_grid c') (λ _ c', QCON_inv make_rho_phi_grid c') True c.
Proof.
  intros HI.
  eapply wp_mono;
    [apply (QCON_get_QCON_wp make_rho_phi_grid (QCON_inv make_rho_phi_grid)) with (D:=True);
       [done|done|apply QCON_inv_set_grids|by left|done]|..];
    [by intros ? ? [? ?]|by intros ? ? [? ?]|done].
Qed.

(** The invariant holds in every state of the Qcon cache. *)
Lemma QCON_reachable_inv c :
  QCON_reachable make_rho_phi_grid rho_max_1 c → QCON_inv make_rho_phi_grid c.
Proof.
  induction 1 as [|op c c' _ IH Hrun].
  { intros s r v; simpl. by rewrite lookup_empty. }
  destruct op as [s r|fuel m s r|fuel m s r| |fuel self]; simpl in Hrun.
  - eapply wp_final_state; [|done].
    apply (QCON_get_grid_wp make_rho_phi_grid (QCON_inv make_rho_phi_grid));
      [apply QCON_inv_set_grids|done..].
  - eapply wp_final_state; [|done].
    eapply wp_mono;
      [apply (QCON_get_PBFS_wp make_rho_phi_grid (QCON_inv make_rho_phi_grid)) with (D:=True);
         [done|apply QCON_inv_set_grids|by left|done]|..];
      [by intros ? ? [? ?]|done..].
  - eapply wp_final_state; [|done]. by apply QCON_get_QCON_inv.
  - injection Hrun as <-. intros s r v; simpl. by rewrite lookup_empty.
  - eapply wp_final_state; [|done]. unfold QCONSag.build. apply wp_bind.
    eapply wp_mono; [apply (base_build_inv (QCON_inv make_rho_phi_grid)); [|done]|simpl|done..].
    + intros m s r c0 HI0. by apply QCON_get_QCON_inv.
    + intros self' c1 [HI1 _].
      apply wp_bind, (QCON_get_grid_wp make_rho_phi_grid (QCON_inv make_rho_phi_grid));
        [apply QCON_inv_set_grids|done|].
      intros r2 c2 HI2 _. by apply wp_ret.
Qed.

(** C9, as the code has it: for every order n > 2, in every state of the
    Qbfs cache and at any fuel of n + 2 or more, [get_PBFS(n, samples,
    rho_max)] comes back, and the P store then holds orders n-1 and n-2 under
    the same (samples, rho_max). *)
Theorem get_PBFS_lower_orders (c : cache F K) (n samples : Z) (rho_max : K) (fuel : nat) :
  QBFS_reachable make_rho_phi_grid rho_max_1 c → 2 < n → n + 2 ≤ Z.of_nat fuel →
  ∃ Pn c', QBFSCache.get_PBFS make_rho_phi_grid fuel n samples rho_max c = Normal Pn c' ∧
    is_Some (Ps c' !! (Some (n - 1), samples, rho_max)) ∧
    is_Some (Ps c' !! (Some (n - 2), samples, rho_max)).
Proof.
  intros Hc Hn Hfuel. apply QBFS_reachable_inv in Hc.
  destruct (wp_normal (QBFSCache.get_PBFS make_rho_phi_grid fuel n samples rho_max)
              (λ v c', QBFS_inv make_rho_phi_grid c' ∧
                       Ps c' !! (Some n, samples, rho_max) = Some v ∧
                       Qs c' = Qs c ∧ ∀ k, is_Some (Ps c !! k) → is_Some (Ps c' !! k)) c)
    as (Pn & c' & Hrun & [_ Hclosed] & HPn & _).
  { apply QBFS_get_PBFS_wp; [right; lia|done]. }
  exists Pn, c'. split; [done|]. apply Hclosed; [done|by rewrite HPn].
Qed.

(** C5: in every state of the Qbfs cache [get_grid(samples, rho_max)] returns
    rho^2, and in every state of the Qcon cache it returns 2 rho^2 - 1, where
    rho is the radial grid of the provider for (samples, 'y', rho_max); the
    grid is then in the store under (samples, rho_max), so that a later call
    returns it as it is. *)
Theorem get_grid_spec (samples : Z) (rho_max : K) :
  let rho := (make_rho_phi_grid samples "y" rho_max).1 in
  (∀ c, QBFS_reachable make_rho_phi_grid rho_max_1 c →
     ∃ c', QBFSCache.get_grid make_rho_phi_grid samples rho_max c = Normal (rho ** 2)%py c' ∧
           grids c' !! (samples, rho_max) = Some (rho ** 2)%py) ∧
  (∀ c, QCON_reachable make_rho_phi_grid rho_max_1 c →
     ∃ c', QCONCache.get_grid make_rho_phi_grid samples rho_max c =
             Normal (int 2 * rho ** 2 - int 1)%py c' ∧
           grids c' !! (samples, rho_max) = Some (int 2 * rho ** 2 - int 1)%py).
Proof.
  intros rho. split; intros c Hc.
  - apply QBFS_reachable_inv in Hc as [Hg _]. rewrite QBFS_get_grid_run.
    destruct (grids c !! (samples, rho_max)) as [v|] eqn:Eg.
    + rewrite (Hg _ _ _ Eg) in Eg |- *. by exists c.
    + eexists. split; [done|]. simpl. apply lookup_insert_eq.
  - apply QCON_reachable_inv in Hc. rewrite QCON_get_grid_run.
    destruct (grids c !! (samples, rho_max)) as [v|] eqn:Eg.
    + rewrite (Hc _ _ _ Eg) in Eg |- *. by exists c.
    + eexists. split; [done|]. simpl. apply lookup_insert_eq.
Qed.
End ReachableFacts.

(** C9 at order 3, in the state a Qbfs build of the dict {2: 1.0} leaves. *)
Lemma get_PBFS_lower_orders_witness :
  ∃ c, final_state (QBFSSag.build sample_rho_phi_grid 1 9
                      (Sag [(2, PyFloat (float_of_Z 1))] 3 (zeros [3; 3])) init) = Some c ∧
  ∃ Pn c', QBFSCache.get_PBFS sample_rho_phi_grid 5 3 3 1 c = Normal Pn c' ∧
    is_Some (Ps c' !! (Some (3 - 1), 3, 1)) ∧ is_Some (Ps c' !! (Some (3 - 2), 3, 1)).
Proof.
  eexists. split; [vm_compute; reflexivity|].
  apply (get_PBFS_lower_orders sample_rho_phi_grid 1 _ 3 3 1 5); [|lia..].
  eapply (QBFS_reach_step _ _ (QBFS_build 9 (Sag [(2, PyFloat (float_of_Z 1))] 3 (zeros [3; 3]))));
    [apply QBFS_reach_init|vm_compute; reflexivity].
Defined.

(** C9 as stated fails at order 2: on a new cache [get_PBFS(2, 3, 1)] comes
    back and the P store holds order 2 alone, neither order 1 nor order 0. *)
Lemma get_PBFS_order2_caches_no_lower :
  ∃ P2 c', QBFSCache.get_PBFS sample_rho_phi_grid 5 2 3 1 init = Normal P2 c' ∧
    Ps c' !! (Some 2, 3, 1) = Some P2 ∧
    Ps c' !! (Some (2 - 1), 3, 1) = None ∧ Ps c' !! (Some (2 - 2), 3, 1) = None.
Proof.
  eexists _, _. split; [vm_compute; reflexivity|].
  split; [vm_compute; reflexivity|]. split; vm_compute; reflexivity.
Qed.

(** C5 on new caches, for the sampled grid of 3 by 3 points. *)
Lemma get_grid_spec_witness :
  (∃ c', QBFSCache.get_grid sample_rho_phi_grid 3 1 init =
           Normal ((sample_rho_phi_grid 3 "y" 1).1 ** 2)%py c' ∧
         grids c' !! (3, 1) = Some ((sample_rho_phi_grid 3 "y" 1).1 ** 2)%py) ∧
  (∃ c', QCONCache.get_grid sample_rho_phi_grid 3 1 init =
           Normal (int 2 * (sample_rho_phi_grid 3 "y" 1).1 ** 2 - int 1)%py c' ∧
         grids c' !! (3, 1) = Some (int 2 * (sample_rho_phi_grid 3 "y" 1).1 ** 2 - int 1)%py).
Proof.
  destruct (get_grid_spec sample_rho_phi_grid 1 3 1) as [HB HC].
  split; [apply HB, QBFS_reach_init|apply HC, QCON_reach_init].
Defined.

Section SagFacts.
Context {F K : Type} `{Backend F} `{Countable K}.
Variable make_rho_phi_grid : Z → string → K → value F * value F.
Variable rho_max_1 : K.

(** The subclasses build on the base class: builds of two instances that
    agree up to the coefficient dict stay in agreement under the window. *)
Lemma QBFSSag_build_phase fuel (self1 self2 : sag F) c :
  samples self1 = samples self2 →
  map_outcome phase
      (QPolySag1D.build (QBFSCache.call make_rho_phi_grid) rho_max_1 fuel self1 c) =
    map_outcome phase
      (QPolySag1D.build (QBFSCache.call make_rho_phi_grid) rho_max_1 fuel self2 c) →
  map_outcome phase (QBFSSag.build make_rho_phi_grid rho_max_1 fuel self1 c) =
    map_outcome phase (QBFSSag.build make_rho_phi_grid rho_max_1 fuel self2 c).
Proof.
  intros Hs. unfold QBFSSag.build, mbind, M_bind. rewrite !build_run, <-Hs.
  destruct (samples self1 <? 0); [done|].
  do 2 destruct (QPolySag1D.accumulate _ _ _ _ _ _ _); simpl; try done.
  intros [= -> ->]. rewrite <-Hs.
  by destruct (QBFSCache.get_grid _ _ _ _).
Qed.

Lemma QCONSag_build_phase fuel (self1 self2 : sag F) c :
  samples self1 = samples self2 →
  map_outcome phase
      (QPolySag1D.build (QCONCache.call make_rho_phi_grid) rho_max_1 fuel self1 c) =
    map_outcome phase
      (QPolySag1D.build (QCONCache.call make_rho_phi_grid) rho_max_1 fuel self2 c) →
  map_outcome phase (QCONSag.build make_rho_phi_grid rho_max_1 fuel self1 c) =
    map_outcome phase (QCONSag.build make_rho_phi_grid rho_max_1 fuel self2 c).
Proof.
  intros Hs. unfold QCONSag.build, mbind, M_bind. rewrite !build_run, <-Hs.
  destruct (samples self1 <? 0); [done|].
  do 2 destruct (QPolySag1D.accumulate _ _ _ _ _ _ _); simpl; try done.
  intros [= -> ->]. rewrite <-Hs.
  by destruct (QCONCache.get_grid _ _ _ _).
Qed.

(** C7: two coefficient dicts with the same items in any two insertion
    orders build the same sag.  From the same cache state and at the same
    fuel the build of the base class, for any cache it is given, and the
    Qbfs and Qcon builds end the same way: the same phase array, element for
    element, and the same cache state, or the same exception. *)
Theorem build_insertion_order
    (_cache : nat → Z → Z → K → M (cache F K) (value F))
    (coefs1 coefs2 : list (Z * number F)) (samples : Z) (phase1 phase2 : value F)
    (fuel : nat) (c : cache F K) :
  NoDup coefs1.*1 → coefs1 ≡ₚ coefs2 →
  map_outcome phase (QPolySag1D.build _cache rho_max_1 fuel (Sag coefs1 samples phase1) c) =
    map_outcome phase (QPolySag1D.build _cache rho_max_1 fuel (Sag coefs2 samples phase2) c) ∧
  map_outcome phase
      (QBFSSag.build make_rho_phi_grid rho_max_1 fuel (Sag coefs1 samples phase1) c) =
    map_outcome phase
      (QBFSSag.build make_rho_phi_grid rho_max_1 fuel (Sag coefs2 samples phase2) c) ∧
  map_outcome phase
      (QCONSag.build make_rho_phi_grid rho_max_1 fuel (Sag coefs1 samples phase1) c) =
    map_outcome phase
      (QCONSag.build make_rho_phi_grid rho_max_1 fuel (Sag coefs2 samples phase2) c).
Proof.
  intros Hnd Hp.
  assert (∀ cache_call,
    map_outcome phase
        (QPolySag1D.build cache_call rho_max_1 fuel (Sag coefs1 samples phase1) c) =
      map_outcome phase
        (QPolySag1D.build cache_call rho_max_1 fuel (Sag coefs2 samples phase2) c)) as Hbase.
  { intros cache_call. apply base_build_phase; [done|]. simpl.
    by rewrite (ordered_items_Permutation coefs1 coefs2). }
  split; [apply Hbase|].
  split; [by apply QBFSSag_build_phase|by apply QCONSag_build_phase].
Qed.

(** C8: a coefficient that is exactly 0 counts as no coefficient.  From the
    same cache state and at the same fuel, the build with the item (k, 0) in
    the dict and the build with the item left out end the same way, in the
    base class for any cache it is given and in the Qbfs and Qcon builders:
    the same phase array and the same cache state, so that order k has made
    no access to the cache. *)
Theorem build_zero_coefficient
    (_cache : nat → Z → Z → K → M (cache F K) (value F))
    (before after : list (Z * number F)) (k : Z) (zero : number F)
    (samples : Z) (phase1 phase2 : value F) (fuel : nat) (c : cache F K) :
  NoDup (before ++ (k, zero) :: after).*1 → num_eq0 zero = true →
  let with_zero := Sag (before ++ (k, zero) :: after) samples phase1 in
  let without := Sag (before ++ after) samples phase2 in
  map_outcome phase (QPolySag1D.build _cache rho_max_1 fuel with_zero c) =
    map_outcome phase (QPolySag1D.build _cache rho_max_1 fuel without c) ∧
  map_outcome phase (QBFSSag.build make_rho_phi_grid rho_max_1 fuel with_zero c) =
    map_outcome phase (QBFSSag.build make_rho_phi_grid rho_max_1 fuel without c) ∧
  map_outcome phase (QCONSag.build make_rho_phi_grid rho_max_1 fuel with_zero c) =
    map_outcome phase (QCONSag.build make_rho_phi_grid rho_max_1 fuel without c).
Proof.
  intros Hnd Hz with_zero without.
  assert (∀ cache_call,
    map_outcome phase (QPolySag1D.build cache_call rho_max_1 fuel with_zero c) =
      map_outcome phase (QPolySag1D.build cache_call rho_max_1 fuel without c)) as Hbase.
  { intros cache_call. apply base_build_phase; [done|]. simpl.
    by apply ordered_items_without. }
  split; [apply Hbase|].
  split; [by apply QBFSSag_build_phase|by apply QCONSag_build_phase].
Qed.
End SagFacts.

(** C7 on the dicts {0: 1.0, 2: 3, 1: 2.0} and {2: 3, 0: 1.0, 1: 2.0}, over
    the sampled grid of 3 by 3 points, from new caches. *)
Lemma build_insertion_order_witness :
  let coefs1 := [(0, PyFloat (float_of_Z 1)); (2, PyInt 3); (1, PyFloat (float_of_Z 2))] in
  let coefs2 := [(2, PyInt 3); (0, PyFloat (float_of_Z 1)); (1, PyFloat (float_of_Z 2))] in
  map_outcome phase
      (QPolySag1D.build (QBFSCache.call sample_rho_phi_grid) 1 9
         (Sag coefs1 3 (zeros [3; 3])) init) =
    map_outcome phase
      (QPolySag1D.build (QBFSCache.call sample_rho_phi_grid) 1 9
         (Sag coefs2 3 (zeros [3; 3])) init) ∧
  map_outcome phase
      (QBFSSag.build sample_rho_phi_grid 1 9 (Sag coefs1 3 (zeros [3; 3])) init) =
    map_outcome phase
      (QBFSSag.build sample_rho_phi_grid 1 9 (Sag coefs2 3 (zeros [3; 3])) init) ∧
  map_outcome phase
      (QCONSag.build sample_rho_phi_grid 1 9 (Sag coefs1 3 (zeros [3; 3])) init) =
    map_outcome phase
      (QCONSag.build sample_rho_phi_grid 1 9 (Sag coefs2 3 (zeros [3; 3])) init).
Proof.
  intros coefs1 coefs2.
  apply (build_insertion_order sample_rho_phi_grid 1 (QBFSCache.call sample_rho_phi_grid)
           coefs1 coefs2 3 (zeros [3; 3]) (zeros [3; 3]) 9 init).
  - apply (bool_decide_unpack _). vm_compute. exact I.
  - apply perm_swap.
Defined.

(** C8 on the dict {0: 1.0, 5: 0.0, 1: 2.0} and on {0: 1.0, 1: 2.0}, with the
    fuel too short for order 5 to be computed had it been asked for. *)
Lemma build_zero_coefficient_witness :
  let with_zero := Sag ([(0, PyFloat (float_of_Z 1))] ++ (5, PyFloat (float_of_Z 0)) ::
                        [(1, PyFloat (float_of_Z 2))]) 3 (zeros [3; 3]) in
  let without := Sag ([(0, PyFloat (float_of_Z 1))] ++ [(1, PyFloat (float_of_Z 2))])
                   3 (zeros [3; 3]) in
  map_outcome phase
      (QPolySag1D.build (QBFSCache.call sample_rho_phi_grid) 1 4 with_zero init) =
    map_outcome phase
      (QPolySag1D.build (QBFSCache.call sample_rho_phi_grid) 1 4 without init) ∧
  map_outcome phase (QBFSSag.build sample_rho_phi_grid 1 4 with_zero init) =
    map_outcome phase (QBFSSag.build sample_rho_phi_grid 1 4 without init) ∧
  map_outcome phase (QCONSag.build sample_rho_phi_grid 1 4 with_zero init) =
    map_outcome phase (QCONSag.build sample_rho_phi_grid 1 4 without init).
Proof.
  apply (build_zero_coefficient sample_rho_phi_grid 1 (QBFSCache.call sample_rho_phi_grid)
           [(0, PyFloat (float_of_Z 1))] [(1, PyFloat (float_of_Z 2))] 5
           (PyFloat (float_of_Z 0)) 3 (zeros [3; 3]) (zeros [3; 3]) 4 init).
  - apply (bool_decide_unpack _). vm_compute. exact I.
  - vm_compute. reflexivity.
Defined.

(** * Further properties *)

(** ** Which orders the recursions come back on *)

Section OrderFacts.
Context {F : Type} `{Backend F}.

Lemma qbfs_recurrence_P_fuel_S fuel :
  ∀ n (x : value F) Pnm1 Pnm2 rc v,
    qbfs_recurrence_P fuel n x Pnm1 Pnm2 rc = Some v →
    qbfs_recurrence_P (S fuel) n x Pnm1 Pnm2 rc = Some v.
Proof.
  induction fuel as [|fuel IH]; intros n x Pnm1 Pnm2 rc v; [done|].
  rewrite (qbfs_recurrence_P_unfold (S fuel)), (qbfs_recurrence_P_unfold fuel).
  destruct (n =? 0); [done|]. destruct (n =? 1); [done|].
  unfold or_else.
  destruct Pnm1 as [p1|]; cbv beta iota.
  - destruct Pnm2 as [p2|]; cbv beta iota; [done|].
    destruct (qbfs_recurrence_P fuel (n - 2) x None None None) as [p2|] eqn:E2; [|done].
    by rewrite (IH _ _ _ _ _ _ E2).
  - destruct (qbfs_recurrence_P fuel (n - 1) x None None None) as [p1|] eqn:E1; [|done].
    rewrite (IH _ _ _ _ _ _ E1).
    destruct Pnm2 as [p2|]; cbv beta iota; [done|].
    destruct (qbfs_recurrence_P fuel (n - 2) x None None None) as [p2|] eqn:E2; [|done].
    by rewrite (IH _ _ _ _ _ _ E2).
Qed.

Lemma qbfs_recurrence_P_fuel_le fuel fuel' n (x : value F) Pnm1 Pnm2 rc v :
  (fuel ≤ fuel')%nat →
  qbfs_recurrence_P fuel n x Pnm1 Pnm2 rc = Some v →
  qbfs_recurrence_P fuel' n x Pnm1 Pnm2 rc = Some v.
Proof. induction 1; [done|]. intros. by apply qbfs_recurrence_P_fuel_S; auto. Qed.

(** Below order 0 the recursion only goes further down. *)
Lemma qbfs_recurrence_P_negative fuel :
  ∀ n (x : value F) rc, n < 0 → qbfs_recurrence_P fuel n x None None rc = None.
Proof.
  induction fuel as [|fuel IH]; intros n x rc Hn; [done|].
  rewrite qbfs_recurrence_P_unfold.
  destruct (Z.eqb_spec n 0); [lia|]. destruct (Z.eqb_spec n 1); [lia|].
  unfold or_else. rewrite (IH (n - 1)) by lia. done.
Qed.

Lemma constants_negative fuel :
  ∀ n, n < 0 →
    g_qbfs (F:=F) fuel n = None ∧ h_qbfs (F:=F) fuel n = None ∧ f_qbfs (F:=F) fuel n = None.
Proof.
  induction fuel as [|fuel IH]; intros n Hn; [done|].
  rewrite g_qbfs_unfold, h_qbfs_unfold, f_qbfs_unfold.
  destruct (Z.eqb_spec n 0); [lia|]. destruct (Z.eqb_spec n 1); [lia|].
  destruct (IH (n - 1)) as (-> & _ & _); [lia|].
  destruct (IH n) as (_ & _ & ->); [lia|]. done.
Qed.

Lemma qbfs_recurrence_Q_unfold fuel n (x : value F) Pn Pnm1 Pnm2 Qnm1 Qnm2 rc :
  qbfs_recurrence_Q (S fuel) n x Pn Pnm1 Pnm2 Qnm1 Qnm2 rc =
    if n =? 0 then Some (ones_like x)
    else if n =? 1 then Some (int 1 / sqrt (int 19) * (int 13 - int 16 * x))%py
    else
      Pnm2 ← or_else Pnm2 (qbfs_recurrence_P fuel (n - 2) x None None rc);
      Pnm1 ← or_else Pnm1 (qbfs_recurrence_P fuel (n - 1) x None (Some Pnm2) rc);
      Pn ← or_else Pn (qbfs_recurrence_P fuel n x (Some Pnm1) (Some Pnm2) rc);
      Qnm2 ← or_else Qnm2
               (qbfs_recurrence_Q fuel (n - 2) x (Some Pn) (Some Pnm1) (Some Pnm2)
                  None None rc);
      Qnm1 ← or_else Qnm1
               (qbfs_recurrence_Q fuel (n - 1) x (Some Pn) (Some Pnm1) (Some Pnm2)
                  None (Some Qnm2) rc);
      g ← g_qbfs fuel (n - 1);
      h ← h_qbfs fuel (n - 2);
      f ← f_qbfs fuel n;
      Some ((Pn - g * Qnm1 - h * Qnm2) / f)%py.
Proof. reflexivity. Qed.

(** The Q recurrence comes back on every order from 0 on, whatever terms it
    is given, at a call depth linear in the order. *)
Lemma qbfs_recurrence_Q_total fuel :
  ∀ n (x : value F) Pn Pnm1 Pnm2 Qnm1 Qnm2 rc,
    0 ≤ n → 2 * n + 2 ≤ Z.of_nat fuel →
    is_Some (qbfs_recurrence_Q fuel n x Pn Pnm1 Pnm2 Qnm1 Qnm2 rc).
Proof.
  induction fuel as [|fuel IH]; intros n x Pn Pnm1 Pnm2 Qnm1 Qnm2 rc Hn Hfuel; [lia|].
  rewrite qbfs_recurrence_Q_unfold.
  destruct (Z.eqb_spec n 0); [done|]. destruct (Z.eqb_spec n 1); [done|].
  assert (∀ given k a b, 0 ≤ k → k ≤ n →
    is_Some (or_else given (qbfs_recurrence_P fuel k x a b rc))) as HP.
  { intros [g|] k a b Hk1 Hk2; simpl; [done|]. apply qbfs_recurrence_P_total; lia. }
  assert (∀ given k a b c d e, 0 ≤ k → k < n →
    is_Some (or_else given (qbfs_recurrence_Q fuel k x a b c d e rc))) as HQ.
  { intros [g|] k a b c d e Hk1 Hk2; simpl; [done|]. apply IH; lia. }
  destruct (HP Pnm2 (n - 2) None None) as [p2 ->]; [lia..|]. simpl.
  destruct (HP Pnm1 (n - 1) None (Some p2)) as [p1 ->]; [lia..|]. simpl.
  destruct (HP Pn n (Some p1) (Some p2)) as [p ->]; [lia..|]. simpl.
  destruct (HQ Qnm2 (n - 2) (Some p) (Some p1) (Some p2) None None) as [q2 ->]; [lia..|].
  simpl.
  destruct (HQ Qnm1 (n - 1) (Some p) (Some p1) (Some p2) None (Some q2)) as [q1 ->]; [lia..|].
  simpl.
  destruct (constants_total (F:=F) fuel (n - 1)) as (_ & [g ->] & _); [lia..|].
  destruct (constants_total (F:=F) fuel (n - 2)) as (_ & _ & [h ->]); [lia..|].
  destruct (constants_total (F:=F) fuel n) as ([f ->] & _); [lia..|]. done.
Qed.

Lemma qbfs_recurrence_Q_negative fuel n (x : value F) Pn Pnm1 Qnm1 Qnm2 rc :
  n < 0 → qbfs_recurrence_Q fuel n x Pn Pnm1 None Qnm1 Qnm2 rc = None.
Proof.
  intros Hn. destruct fuel as [|fuel]; [done|]. rewrite qbfs_recurrence_Q_unfold.
  destruct (Z.eqb_spec n 0); [lia|]. destruct (Z.eqb_spec n 1); [lia|].
  simpl. by rewrite qbfs_recurrence_P_negative by lia.
Qed.

(** X1: called with no precomputed terms, [qbfs_recurrence_P] and
    [qbfs_recurrence_Q] come back exactly on the orders n >= 0: there is a
    call depth at which they return a value if and only if the order is not
    negative; below 0 the recursion never reaches a base case. *)
Theorem recurrences_return_iff (n : Z) (x : value F) :
  ((∃ fuel, is_Some (qbfs_recurrence_P fuel n x None None None)) ↔ 0 ≤ n) ∧
  ((∃ fuel, is_Some (qbfs_recurrence_Q fuel n x None None None None None None)) ↔ 0 ≤ n).
Proof.
  split; split.
  - intros [fuel Hsome]. destruct (Z.lt_ge_cases n 0) as [Hn|Hn]; [|done].
    rewrite qbfs_recurrence_P_negative in Hsome by done. by destruct Hsome.
  - intros Hn. exists (S (Z.to_nat n)). apply qbfs_recurrence_P_total; lia.
  - intros [fuel Hsome]. destruct (Z.lt_ge_cases n 0) as [Hn|Hn]; [|done].
    rewrite qbfs_recurrence_Q_negative in Hsome by done. by destruct Hsome.
  - intros Hn. exists (Z.to_nat (2 * n + 2)). apply qbfs_recurrence_Q_total; lia.
Qed.

(** X2: each of the recursion constants g, h and f comes back exactly on the
    indices from 0 on; on a negative index the mutual recursion never
    reaches a base case. *)
Theorem constants_return_iff (n : Z) :
  ((∃ fuel, is_Some (g_qbfs (F:=F) fuel n)) ↔ 0 ≤ n) ∧
  ((∃ fuel, is_Some (h_qbfs (F:=F) fuel n)) ↔ 0 ≤ n) ∧
  ((∃ fuel, is_Some (f_qbfs (F:=F) fuel n)) ↔ 0 ≤ n).
Proof.
  assert (∀ fuel, n < 0 → ¬ is_Some (g_qbfs (F:=F) fuel n) ∧
    ¬ is_Some (h_qbfs (F:=F) fuel n) ∧ ¬ is_Some (f_qbfs (F:=F) fuel n)) as Hneg.
  { intros fuel Hn. destruct (constants_negative fuel n Hn) as (-> & -> & ->).
    repeat split; by intros [? ?]. }
  assert (0 ≤ n → is_Some (g_qbfs (F:=F) (Z.to_nat (2 * n + 2)) n) ∧
    is_Some (h_qbfs (F:=F) (Z.to_nat (2 * n + 2)) n) ∧
    is_Some (f_qbfs (F:=F) (Z.to_nat (2 * n + 2)) n)) as Hpos.
  { intros Hn. destruct (constants_total (F:=F) (Z.to_nat (2 * n + 2)) n Hn) as (Hf & Hg & Hh).
    repeat split; [apply Hg|apply Hh|apply Hf]; lia. }
  repeat split.
  - intros [fuel Hs]. destruct (Z.lt_ge_cases n 0) as [Hn|Hn]; [|done]. by destruct (Hneg fuel Hn) as (? & ? & ?).
  - intros Hn. eexists. apply (Hpos Hn).
  - intros [fuel Hs]. destruct (Z.lt_ge_cases n 0) as [Hn|Hn]; [|done]. by destruct (Hneg fuel Hn) as (? & ? & ?).
  - intros Hn. eexists. apply (Hpos Hn).
  - intros [fuel Hs]. destruct (Z.lt_ge_cases n 0) as [Hn|Hn]; [|done]. by destruct (Hneg fuel Hn) as (? & ? & ?).
  - intros Hn. eexists. apply (Hpos Hn).
Qed.
End OrderFacts.

(** ** The constants of the Qcon and Zernike recurrences *)

Section FamilyConstantFacts.
Context {F : Type} `{Backend F}.

Lemma int_truediv_raises (numerator denominator : Z) :
  int_truediv (F:=F) numerator denominator = ZeroDivisionError ↔ denominator = 0.
Proof. unfold int_truediv. by destruct (Z.eqb_spec denominator 0). Qed.


(** X4: on indices m, n >= 0 the Zernike constants raise ZeroDivisionError at
    one point each and nowhere else: [a_zernike] and [c_zernike] at
    m = n = 0, where s = m + 2n is 0, and [b_zernike] at m = 1, n = 0, where
    s + n - 1 is 0. *)
Theorem zernike_constants_raise_iff (m n : Z) :
  0 ≤ m → 0 ≤ n →
  (a_zernike (F:=F) m n = ZeroDivisionError ↔ m = 0 ∧ n = 0) ∧
  (b_zernike (F:=F) m n = ZeroDivisionError ↔ m = 1 ∧ n = 0) ∧
  (c_zernike (F:=F) m n = ZeroDivisionError ↔ m = 0 ∧ n = 0).
Proof.
  intros Hm Hn. unfold a_zernike, b_zernike, c_zernike. rewrite !int_truediv_raises.
  cbv zeta. rewrite !Z.mul_eq_0. lia.
Qed.
End FamilyConstantFacts.

(** X4 at the first indices: a(0, 0) and c(0, 0) raise, b(1, 0) raises. *)
Lemma zernike_constants_raise_iff_witness :
  a_zernike (F:=PrimFloat.float) 0 0 = ZeroDivisionError ∧
  c_zernike (F:=PrimFloat.float) 0 0 = ZeroDivisionError ∧
  b_zernike (F:=PrimFloat.float) 1 0 = ZeroDivisionError.
Proof.
  destruct (zernike_constants_raise_iff (F:=PrimFloat.float) 0 0) as (Ha & _ & Hc); [lia..|].
  destruct (zernike_constants_raise_iff (F:=PrimFloat.float) 1 0) as (_ & Hb & _); [lia..|].
  split; [by apply Ha|]. split; [by apply Hc|by apply Hb].
Defined.


(** ** What the Qbfs cache holds *)

Section SoundFacts.
Context {F K : Type} `{Backend F} `{Countable K}.
Variable make_rho_phi_grid : Z → string → K → value F * value F.
Variable rho_max_1 : K.

Abbreviation Sound := (QBFS_sound make_rho_phi_grid).
Abbreviation rho2 := (rho_squared make_rho_phi_grid).

Lemma cache_extends_refl (c : cache F K) : cache_extends c c.
Proof. by repeat split. Qed.

Lemma cache_extends_trans (c1 c2 c3 : cache F K) :
  cache_extends c1 c2 → cache_extends c2 c3 → cache_extends c1 c3.
Proof. intros (?&?&?) (?&?&?). repeat split; eauto. Qed.

Lemma insert_keeps {A} `{Countable A} {V} (d : gmap A V) k v k' v' :
  d !! k = None → d !! k' = Some v' → <[k := v]> d !! k' = Some v'.
Proof.
  intros Hk Hk'. rewrite lookup_insert_ne; [done|]. intros ->. congruence.
Qed.

Lemma insert_is_Some {A} `{Countable A} {V} (d : gmap A V) k v k' :
  is_Some (d !! k') → is_Some (<[k := v]> d !! k').
Proof.
  intros Hk'. destruct (decide (k = k')) as [->|];
    [rewrite lookup_insert_eq | rewrite lookup_insert_ne by done]; eauto.
Qed.

Lemma Q_ref_unfold fuel n (x : value F) :
  Q_ref (S fuel) n x =
    if n =? 0 then Some (ones_like x)
    else if n =? 1 then Some (int 1 / sqrt (int 19) * (int 13 - int 16 * x))%py
    else
      Pn ← qbfs_recurrence_P fuel n x None None None;
      Qnm1 ← Q_ref fuel (n - 1) x;
      Qnm2 ← Q_ref fuel (n - 2) x;
      g ← g_qbfs fuel (n - 1);
      h ← h_qbfs fuel (n - 2);
      f ← f_qbfs fuel n;
      Some ((Pn - g * Qnm1 - h * Qnm2) / f)%py.
Proof. reflexivity. Qed.

Lemma Q_ref_fuel_S fuel :
  ∀ n (x v : value F), Q_ref fuel n x = Some v → Q_ref (S fuel) n x = Some v.
Proof.
  induction fuel as [|fuel IH]; intros n x v; [done|].
  rewrite (Q_ref_unfold (S fuel)), (Q_ref_unfold fuel).
  destruct (n =? 0); [done|]. destruct (n =? 1); [done|].
  destruct (constants_fuel_S (F:=F) fuel) as (Sg & Sh & Sf).
  destruct (qbfs_recurrence_P fuel n x None None None) as [p|] eqn:EP; [|done].
  destruct (Q_ref fuel (n - 1) x) as [q1|] eqn:E1; [|done].
  destruct (Q_ref fuel (n - 2) x) as [q2|] eqn:E2; [|done].
  destruct (g_qbfs fuel (n - 1)) as [g|] eqn:Eg; [|done].
  destruct (h_qbfs fuel (n - 2)) as [h|] eqn:Eh; [|done].
  destruct (f_qbfs fuel n) as [f|] eqn:Ef; [|done].
  rewrite (qbfs_recurrence_P_fuel_S _ _ _ _ _ _ _ EP), (IH _ _ _ E1), (IH _ _ _ E2),
    (Sg _ _ Eg), (Sh _ _ Eh), (Sf _ _ Ef). done.
Qed.

Lemma Q_ref_fuel_le fuel fuel' n (x v : value F) :
  (fuel ≤ fuel')%nat → Q_ref fuel n x = Some v → Q_ref fuel' n x = Some v.
Proof. induction 1; [done|]. intros. by apply Q_ref_fuel_S; auto. Qed.

(** One step of the recurrence on sound lower terms is the next term. *)
Lemma qbfs_recurrence_P_chain fuel f1 f2 m (x p1 p2 : value F) :
  m ≠ 0 → m ≠ 1 →
  qbfs_recurrence_P f1 (m - 1) x None None None = Some p1 →
  qbfs_recurrence_P f2 (m - 2) x None None None = Some p2 →
  ∃ fuel', qbfs_recurrence_P fuel' m x None None None =
             qbfs_recurrence_P (S fuel) m x (Some p1) (Some p2) None.
Proof.
  intros Hm0 Hm1 E1 E2. exists (S (f1 `max` f2)).
  rewrite qbfs_recurrence_P_given by done. rewrite qbfs_recurrence_P_unfold.
  destruct (Z.eqb_spec m 0); [done|]. destruct (Z.eqb_spec m 1); [done|].
  rewrite (qbfs_recurrence_P_fuel_le f1 (f1 `max` f2) _ _ _ _ _ _ ltac:(lia) E1).
  rewrite (qbfs_recurrence_P_fuel_le f2 (f1 `max` f2) _ _ _ _ _ _ ltac:(lia) E2).
  done.
Qed.

Lemma Q_ref_chain fuel f0 f1 f2 m (x p q1 q2 v : value F) :
  m ≠ 0 → m ≠ 1 →
  qbfs_recurrence_P f0 m x None None None = Some p →
  Q_ref f1 (m - 1) x = Some q1 → Q_ref f2 (m - 2) x = Some q2 →
  (g ← g_qbfs fuel (m - 1); h ← h_qbfs fuel (m - 2); f ← f_qbfs fuel m;
   Some ((p - g * q1 - h * q2) / f)%py) = Some v →
  ∃ fuel', Q_ref fuel' m x = Some v.
Proof.
  intros Hm0 Hm1 EP E1 E2 Ev.
  destruct (g_qbfs fuel (m - 1)) as [g|] eqn:Eg; [|done].
  destruct (h_qbfs fuel (m - 2)) as [h|] eqn:Eh; [|done].
  destruct (f_qbfs fuel m) as [f|] eqn:Ef; [|done].
  set (N := (fuel `max` (f0 `max` (f1 `max` f2)))%nat).
  exists (S N). rewrite Q_ref_unfold.
  destruct (Z.eqb_spec m 0); [done|]. destruct (Z.eqb_spec m 1); [done|].
  destruct (constants_fuel_le (F:=F) fuel N) as (Lg & Lh & Lf); [lia|].
  rewrite (qbfs_recurrence_P_fuel_le f0 N _ _ _ _ _ _ ltac:(lia) EP).
  rewrite (Q_ref_fuel_le f1 N _ _ _ ltac:(lia) E1), (Q_ref_fuel_le f2 N _ _ _ ltac:(lia) E2).
  rewrite (Lg _ _ Eg), (Lh _ _ Eh), (Lf _ _ Ef). done.
Qed.

(** At orders 0, 1 and 2 the Q recurrence given P of its order alone is the
    recurrence proper. *)
Lemma Q_ref_low fuel f0 m (x p v : value F) :
  0 ≤ m ≤ 2 →
  qbfs_recurrence_P f0 m x None None None = Some p →
  qbfs_recurrence_Q fuel m x (Some p) None None None None None = Some v →
  ∃ fuel', Q_ref fuel' m x = Some v.
Proof.
  intros Hm EP. destruct fuel as [|fuel]; [done|].
  rewrite qbfs_recurrence_Q_unfold.
  destruct (Z.eqb_spec m 0) as [->|Hm0]; [intros [= <-]; by exists 1%nat|].
  destruct (Z.eqb_spec m 1) as [->|Hm1]; [intros [= <-]; by exists 1%nat|].
  assert (m = 2) as -> by lia.
  destruct fuel as [|fuel]; [done|]. intros Ev.
  eapply (Q_ref_chain (S fuel) f0 1 1 2 x p); [done|done|done|done|done|exact Ev].
Qed.
Lemma Sound_set_grids s r (c : cache F K) :
  Sound c → grids c !! (s, r) = None → Sound (set_grids (s, r) (rho2 s r) c).
Proof.
  intros ([Hg Hc] & HP & HQ & HB) Hnone. split_and!; [split| | |]; try done.
  - intros s' r' v; simpl. destruct (decide ((s, r) = (s', r'))) as [[= <- <-]|Hne].
    + rewrite lookup_insert_eq. by intros [= <-].
    + rewrite lookup_insert_ne by done. apply Hg.
  - intros k Hk. destruct (HB k Hk) as (Hm & HPk & Hgk). split_and!; [done..|].
    simpl. by apply insert_is_Some.
Qed.

Lemma Sound_set_Ps m s r v (c : cache F K) :
  Sound c →
  (2 < m → is_Some (Ps c !! (Some (m - 1), s, r)) ∧ is_Some (Ps c !! (Some (m - 2), s, r))) →
  (∃ fuel, qbfs_recurrence_P fuel m (rho2 s r) None None None = Some v) →
  Sound (set_Ps (Some m, s, r) v c).
Proof.
  intros ([Hg Hc] & HP & HQ & HB) Hlow Hv. split_and!; [split| | |]; try done.
  - by apply Ps_closed_insert.
  - intros m' s' r' v'; simpl.
    destruct (decide ((Some m, s, r) = (Some m', s', r'))) as [[= <- <- <-]|Hne].
    + rewrite lookup_insert_eq. by intros [= <-].
    + rewrite lookup_insert_ne by done. apply HP.
  - intros k Hk. destruct (HB k Hk) as (Hm & HPk & Hgk). split_and!; [done| |done].
    simpl. by apply insert_is_Some.
Qed.

Lemma Sound_set_Qs m s r v (c : cache F K) :
  Sound c →
  (∃ fuel, Q_ref fuel m (rho2 s r) = Some v) →
  is_Some (Ps c !! (Some m, s, r)) → is_Some (grids c !! (s, r)) →
  Sound (set_Qs (Some m, s, r) v c).
Proof.
  intros ([Hg Hc] & HP & HQ & HB) Hv HPm Hgm. split_and!; [split| | |]; try done.
  - intros m' s' r' v'; simpl.
    destruct (decide ((Some m, s, r) = (Some m', s', r'))) as [[= <- <- <-]|Hne].
    + rewrite lookup_insert_eq. by intros [= <-].
    + rewrite lookup_insert_ne by done. apply HQ.
  - intros k; simpl. destruct (decide ((Some m, s, r) = k)) as [<-|Hne].
    + intros _. split_and!; [by exists m|done..].
    + rewrite lookup_insert_ne by done. apply HB.
Qed.

Lemma QBFS_get_grid_sound s r c (Q : value F → cache F K → Prop) E D :
  Sound c →
  (∀ c', Sound c' → cache_extends c c' → Ps c' = Ps c → Qs c' = Qs c →
         grids c' !! (s, r) = Some (rho2 s r) → Q (rho2 s r) c') →
  wp (QBFSCache.get_grid make_rho_phi_grid s r) Q E D c.
Proof.
  intros HS HQ. unfold wp. rewrite QBFS_get_grid_run.
  destruct (grids c !! (s, r)) as [rho|] eqn:Eg; simpl.
  - destruct HS as ([Hg Hc] & HS). rewrite (Hg _ _ _ Eg) in Eg |- *.
    apply HQ; [done|apply cache_extends_refl|done..].
  - apply HQ; [by apply Sound_set_grids| |done|done|apply lookup_insert_eq].
    split_and!; [done..|]. intros k v Hk; simpl. by apply insert_keeps.
Qed.

(** [get_PBFS] on a sound cache: the result is in the P store, the cache is
    extended and stays sound; nothing is raised, and the call comes back
    whenever the order is not negative and the fuel exceeds it by two. *)
Lemma QBFS_get_PBFS_sound (D : Prop) fuel :
  ∀ m s r c,
    D ∨ (0 ≤ m ∧ m + 2 ≤ Z.of_nat fuel) → Sound c →
    wp (QBFSCache.get_PBFS make_rho_phi_grid fuel m s r)
       (λ v c', Sound c' ∧ cache_extends c c' ∧ Ps c' !! (Some m, s, r) = Some v ∧
                Qs c' = Qs c)
       (λ _ _, False) D c.
Proof.
  induction fuel as [|fuel IH]; intros m s r c Hfuel HS.
  { destruct Hfuel; [done|lia]. }
  simpl. apply wp_gets. unfold make_key.
  destruct (Ps c !! (Some m, s, r)) as [Pm|] eqn:EP.
  { apply wp_ret. split_and!; [done|apply cache_extends_refl|done..]. }
  apply wp_bind, QBFS_get_grid_sound; [done|]. intros c0 HS0 Hext0 HP0 HQ0 Hg0.
  apply wp_bind.
  assert (∀ (Pnm1 Pnm2 : option (value F)) c1,
    Sound c1 → cache_extends c c1 → Qs c1 = Qs c →
    (D ∨ is_Some (qbfs_recurrence_P fuel m (rho2 s r) Pnm1 Pnm2 None)) →
    (∀ v, qbfs_recurrence_P fuel m (rho2 s r) Pnm1 Pnm2 None = Some v →
          ∃ fuel', qbfs_recurrence_P fuel' m (rho2 s r) None None None = Some v) →
    (2 < m → is_Some (Ps c1 !! (Some (m - 1), s, r)) ∧
             is_Some (Ps c1 !! (Some (m - 2), s, r))) →
    wp (pure_call (qbfs_recurrence_P fuel m (rho2 s r) Pnm1 Pnm2 None)
          ≫= λ Pm, modify (set_Ps (Some m, s, r) Pm) ≫= λ _, mret Pm)
       (λ v c', Sound c' ∧ cache_extends c c' ∧ Ps c' !! (Some m, s, r) = Some v ∧
                Qs c' = Qs c)
       (λ _ _, False) D c1) as Hstore.
  { intros Pnm1 Pnm2 c1 HS1 (HeQ & HeP & Heg) HQ1 Hsome Hdirect Hlow.
    apply wp_bind, wp_pure_call.
    destruct (qbfs_recurrence_P fuel m (rho2 s r) Pnm1 Pnm2 None) as [Pm|] eqn:EPm;
      [|by destruct Hsome as [?|[? ?]]].
    apply wp_modify, wp_ret. split_and!.
    - apply Sound_set_Ps; [done..|]. by apply Hdirect.
    - split_and!; [done| |done]. intros k v Hk. simpl.
      rewrite lookup_insert_ne; [by apply HeP|]. intros <-. congruence.
    - simpl. apply lookup_insert_eq.
    - done. }
  destruct (Z.gtb_spec m 2) as [Hm|Hm].
  - apply wp_bind. eapply wp_mono; [apply (IH (m - 2) s r c0); [|done]|..]; [|simpl|done..].
    { destruct Hfuel; [by left|right; lia]. }
    intros Pnm2 c1 (HS1 & Hext1 & HP1 & HQ1).
    apply wp_bind. eapply wp_mono; [apply (IH (m - 1) s r c1); [|done]|..]; [|simpl|done..].
    { destruct Hfuel; [by left|right; lia]. }
    intros Pnm1 c2 (HS2 & Hext2 & HP2 & HQ2).
    assert (Ps c2 !! (Some (m - 2), s, r) = Some Pnm2) as HP1' by (by apply Hext2).
    apply wp_ret, Hstore; [done| |congruence| | |].
    + eauto using cache_extends_trans.
    + destruct Hfuel as [?|[? ?]]; [by left|right].
      destruct fuel; [lia|]. rewrite qbfs_recurrence_P_given by lia. done.
    + intros v Hv. destruct fuel as [|fuel']; [done|].
      destruct HS2 as (_ & HPs & _).
      destruct (HPs _ _ _ _ HP2) as [f1 E1]. destruct (HPs _ _ _ _ HP1') as [f2 E2].
      destruct (qbfs_recurrence_P_chain fuel' f1 f2 m (rho2 s r) Pnm1 Pnm2) as [fuel'' E];
        [lia..|done|done|].
      exists fuel''. by rewrite E.
    + intros _. by rewrite HP2, HP1'.
  - apply wp_ret, Hstore; [done..| | |lia].
    + destruct Hfuel as [?|[? ?]]; [by left|right].
      apply qbfs_recurrence_P_total; lia.
    + eauto.
Qed.

(** [get_QBFS] on a sound cache: likewise, with the Q store; it comes back
    whenever the order is not negative and the fuel is 2 m + 7 or more. *)
Lemma QBFS_get_QBFS_sound (D : Prop) fuel :
  ∀ m s r c,
    D ∨ (0 ≤ m ∧ 2 * m + 7 ≤ Z.of_nat fuel) → Sound c →
    wp (QBFSCache.get_QBFS make_rho_phi_grid fuel m s r)
       (λ v c', Sound c' ∧ cache_extends c c' ∧ Qs c' !! (Some m, s, r) = Some v)
       (λ _ _, False) D c.
Proof.
  induction fuel as [|fuel IH]; intros m s r c Hfuel HS.
  { destruct Hfuel; [done|lia]. }
  simpl. apply wp_gets. unfold make_key.
  destruct (Qs c !! (Some m, s, r)) as [Qm|] eqn:EQ.
  { apply wp_ret. split_and!; [done|apply cache_extends_refl|done]. }
  apply wp_bind, QBFS_get_grid_sound; [done|]. intros c0 HS0 Hext0 HP0 HQ0 Hg0.
  apply wp_bind.
  eapply wp_mono; [apply (QBFS_get_PBFS_sound D fuel m s r c0); [|done]|simpl|done..].
  { destruct Hfuel; [by left|right; lia]. }
  intros Pm c1 (HS1 & Hext1 & HPm & HQ1).
  assert (∃ f0, qbfs_recurrence_P f0 m (rho2 s r) None None None = Some Pm) as [f0 EPm].
  { destruct HS1 as (_ & HPs & _). eauto. }
  assert (0 ≤ m) as Hm0.
  { destruct (Z.lt_ge_cases m 0) as [Hneg|]; [|done].
    by rewrite qbfs_recurrence_P_negative in EPm. }
  apply wp_bind.
  assert (∀ Pnm1 Pnm2 Qnm1 Qnm2 c2,
    Sound c2 → cache_extends c c2 →
    is_Some (Ps c2 !! (Some m, s, r)) → is_Some (grids c2 !! (s, r)) →
    (D ∨ is_Some (qbfs_recurrence_Q fuel m (rho2 s r) (Some Pm) Pnm1 Pnm2 Qnm1 Qnm2 None)) →
    (∀ v, qbfs_recurrence_Q fuel m (rho2 s r) (Some Pm) Pnm1 Pnm2 Qnm1 Qnm2 None = Some v →
          ∃ fuel', Q_ref fuel' m (rho2 s r) = Some v) →
    wp (pure_call (qbfs_recurrence_Q fuel m (rho2 s r) (Some Pm) Pnm1 Pnm2 Qnm1 Qnm2 None)
          ≫= λ Qm, modify (set_Qs (Some m, s, r) Qm) ≫= λ _, mret Qm)
       (λ v c', Sound c' ∧ cache_extends c c' ∧ Qs c' !! (Some m, s, r) = Some v)
       (λ _ _, False) D c2) as Hstore.
  { intros Pnm1 Pnm2 Qnm1 Qnm2 c2 HS2 (HeQ & HeP & Heg) HPin Hgin Hsome Href.
    apply wp_bind, wp_pure_call.
    destruct (qbfs_recurrence_Q _ _ _ _ _ _ _ _ _) as [Qm|] eqn:EQm;
      [|by destruct Hsome as [?|[? ?]]].
    apply wp_modify, wp_ret. split_and!.
    - apply Sound_set_Qs; [done| |done..]. by apply Href.
    - split_and!; [|done..]. intros k v Hk. simpl.
      rewrite lookup_insert_ne; [by apply HeQ|]. intros <-. congruence.
    - simpl. apply lookup_insert_eq. }
  destruct (Z.gtb_spec m 2) as [Hm|Hm].
  - apply wp_bind.
    eapply wp_mono; [apply (QBFS_get_PBFS_sound D fuel (m - 2) s r c1); [|done]|simpl|done..].
    { destruct Hfuel; [by left|right; lia]. }
    intros Pnm2 c2 (HS2 & Hext2 & HP2 & HQ2). apply wp_bind.
    eapply wp_mono; [apply (QBFS_get_PBFS_sound D fuel (m - 1) s r c2); [|done]|simpl|done..].
    { destruct Hfuel; [by left|right; lia]. }
    intros Pnm1 c3 (HS3 & Hext3 & HP3 & HQ3). apply wp_bind.
    eapply wp_mono; [apply (IH (m - 2) s r c3); [|done]|simpl|done..].
    { destruct Hfuel; [by left|right; lia]. }
    intros Qnm2 c4 (HS4 & Hext4 & HQn2). apply wp_bind.
    eapply wp_mono; [apply (IH (m - 1) s r c4); [|done]|simpl|done..].
    { destruct Hfuel; [by left|right; lia]. }
    intros Qnm1 c5 (HS5 & Hext5 & HQn1).
    assert (cache_extends c0 c5) as Hext05 by eauto 6 using cache_extends_trans.
    assert (Qs c5 !! (Some (m - 2), s, r) = Some Qnm2) as HQn2' by (by apply Hext5).
    apply wp_ret, Hstore; [done| | | | |].
    + eauto using cache_extends_trans.
    + destruct Hext2 as (_ & E2 & _), Hext3 as (_ & E3 & _), Hext4 as (_ & E4 & _),
        Hext5 as (_ & E5 & _). rewrite (E5 _ _ (E4 _ _ (E3 _ _ (E2 _ _ HPm)))). eauto.
    + destruct Hext05 as (_ & _ & Eg). rewrite (Eg _ _ Hg0). eauto.
    + destruct Hfuel as [?|[? ?]]; [by left|right].
      destruct fuel as [|fuel']; [lia|]. rewrite qbfs_recurrence_Q_given by lia.
      destruct (constants_total (F:=F) fuel' (m - 1)) as (_ & [g ->] & _); [lia..|].
      destruct (constants_total (F:=F) fuel' (m - 2)) as (_ & _ & [h ->]); [lia..|].
      destruct (constants_total (F:=F) fuel' m) as ([f ->] & _); [lia..|]. done.
    + intros v. destruct fuel as [|fuel']; [done|].
      rewrite qbfs_recurrence_Q_given by lia. intros Ev.
      destruct HS5 as (_ & _ & HQs & _).
      destruct (HQs _ _ _ _ HQn1) as [f1 E1]. destruct (HQs _ _ _ _ HQn2') as [f2 E2].
      by eapply (Q_ref_chain fuel' f0 f1 f2 m); [lia|lia|..].
  - apply wp_ret, Hstore; [done| | | | |].
    + eauto using cache_extends_trans.
    + rewrite HPm. eauto.
    + destruct Hext1 as (_ & _ & Eg). rewrite (Eg _ _ Hg0). eauto.
    + destruct Hfuel as [?|[? ?]]; [by left|right].
      apply qbfs_recurrence_Q_total; lia.
    + intros v Ev. by eapply (Q_ref_low fuel f0 m); [lia|..].
Qed.
Lemma QBFS_init_sound : Sound (init (F:=F) (K:=K)).
Proof.
  split_and!.
  - apply QBFS_init_inv.
  - intros m s r v; simpl. by rewrite lookup_empty.
  - intros m s r v; simpl. by rewrite lookup_empty.
  - intros k; simpl. rewrite lookup_empty. by intros [? ?].
Qed.

(** What a call of the cache or of the Qbfs builder does to a sound cache:
    the state it leaves is sound and extends the one it found. *)
Lemma QBFS_run_sound (op : QBFS_call F K) c c' :
  Sound c → QBFS_run make_rho_phi_grid rho_max_1 op c = Some c' →
  Sound c' ∧ (op ≠ QBFS_clear → cache_extends c c').
Proof.
  intros HS Hrun.
  destruct op as [s r|fuel m s r|fuel m s r| |fuel self]; simpl in Hrun.
  - cut (Sound c' ∧ cache_extends c c'); [by intros [? ?]|].
    eapply (wp_final_state _ (λ c', Sound c' ∧ cache_extends c c')); [|done].
    by apply QBFS_get_grid_sound.
  - cut (Sound c' ∧ cache_extends c c'); [by intros [? ?]|].
    eapply (wp_final_state _ (λ c', Sound c' ∧ cache_extends c c')); [|done].
    eapply wp_mono; [apply (QBFS_get_PBFS_sound True fuel m s r c); [by left|done]|..];
      [by intros ? ? (? & ? & _)|done..].
  - cut (Sound c' ∧ cache_extends c c'); [by intros [? ?]|].
    eapply (wp_final_state _ (λ c', Sound c' ∧ cache_extends c c')); [|done].
    eapply wp_mono; [apply (QBFS_get_QBFS_sound True fuel m s r c); [by left|done]|..];
      [by intros ? ? (? & ? & _)|done..].
  - injection Hrun as <-. split; [apply QBFS_init_sound|done].
  - cut (Sound c' ∧ cache_extends c c'); [by intros [? ?]|].
    eapply (wp_final_state _ (λ c', Sound c' ∧ cache_extends c c')); [|done].
    unfold QBFSSag.build. apply wp_bind.
    eapply wp_mono;
      [apply (base_build_inv rho_max_1 (λ c', Sound c' ∧ cache_extends c c'));
         [|split; [done|apply cache_extends_refl]]|simpl|done..].
    + intros m s r c0 [HS0 Hext0].
      eapply wp_mono; [apply (QBFS_get_QBFS_sound True fuel m s r c0); [by left|done]|..];
        [|done..].
      intros v c1 (HS1 & Hext1 & _). split; [done|by eapply cache_extends_trans].
    + intros self' c1 [[HS1 Hext1] _]. apply wp_bind, QBFS_get_grid_sound; [done|].
      intros c2 HS2 Hext2 _ _ _. apply wp_ret. split; [done|by eapply cache_extends_trans].
Qed.

Lemma QBFS_reachable_sound c :
  QBFS_reachable make_rho_phi_grid rho_max_1 c → Sound c.
Proof.
  induction 1 as [|op c c' _ IH Hrun]; [apply QBFS_init_sound|].
  by destruct (QBFS_run_sound op c c' IH Hrun).
Qed.

(** X5: in every state of the Qbfs cache, [get_PBFS(m, samples, rho_max)]
    raises nothing; it comes back for every order m >= 0 at any fuel of
    m + 2 or more; and what it returns, from the store or built from the two
    cached lower orders, is element for element the value that
    [qbfs_recurrence_P(m, grid)] returns with nothing precomputed, grid being
    the squared radial grid of (samples, rho_max). *)
Theorem get_PBFS_is_recurrence (c : cache F K) (fuel : nat) (m samples : Z) (rho_max : K) :
  QBFS_reachable make_rho_phi_grid rho_max_1 c →
  (∀ v c', QBFSCache.get_PBFS make_rho_phi_grid fuel m samples rho_max c = Normal v c' →
     ∃ fuel', qbfs_recurrence_P fuel' m (rho2 samples rho_max) None None None = Some v) ∧
  (∀ e c', QBFSCache.get_PBFS make_rho_phi_grid fuel m samples rho_max c ≠ Raised e c') ∧
  (0 ≤ m → m + 2 ≤ Z.of_nat fuel →
     ∃ v c', QBFSCache.get_PBFS make_rho_phi_grid fuel m samples rho_max c = Normal v c').
Proof.
  intros HS%QBFS_reachable_sound.
  pose proof (QBFS_get_PBFS_sound True fuel m samples rho_max c (or_introl Logic.I) HS) as Hp.
  split_and!.
  - intros v c' Hrun. unfold wp in Hp. rewrite Hrun in Hp.
    destruct Hp as ((_ & HPs & _) & _ & Hv & _). eauto.
  - intros e c' Hrun. unfold wp in Hp. by rewrite Hrun in Hp.
  - intros Hm Hfuel.
    destruct (wp_normal _ _ _
                (QBFS_get_PBFS_sound False fuel m samples rho_max c
                   (or_intror (conj Hm Hfuel)) HS)) as (v & c' & Hrun & _).
    eauto.
Qed.

(** X6: in every state of the Qbfs cache, [get_QBFS(m, samples, rho_max)]
    and the callable entry point raise nothing; they come back for every
    order m >= 0 at any fuel of 2 m + 7 or more; and what they return is the
    Q polynomial of order m on the squared radial grid by the recurrence
    proper, Q(m) = [P(m) - g(m-1) Q(m-1) - h(m-2) Q(m-2)] / f(m) with every
    lower term the polynomial of its own order. *)
Theorem get_QBFS_is_recurrence (c : cache F K) (fuel : nat) (m samples : Z) (rho_max : K) :
  QBFS_reachable make_rho_phi_grid rho_max_1 c →
  (∀ v c', QBFSCache.call make_rho_phi_grid fuel m samples rho_max c = Normal v c' →
     ∃ fuel', Q_ref fuel' m (rho2 samples rho_max) = Some v) ∧
  (∀ e c', QBFSCache.call make_rho_phi_grid fuel m samples rho_max c ≠ Raised e c') ∧
  (0 ≤ m → 2 * m + 7 ≤ Z.of_nat fuel →
     ∃ v c', QBFSCache.call make_rho_phi_grid fuel m samples rho_max c = Normal v c').
Proof.
  intros HS%QBFS_reachable_sound. unfold QBFSCache.call.
  pose proof (QBFS_get_QBFS_sound True fuel m samples rho_max c (or_introl Logic.I) HS) as Hp.
  split_and!.
  - intros v c' Hrun. unfold wp in Hp. rewrite Hrun in Hp.
    destruct Hp as ((_ & _ & HQs & _) & _ & Hv). eauto.
  - intros e c' Hrun. unfold wp in Hp. by rewrite Hrun in Hp.
  - intros Hm Hfuel.
    destruct (wp_normal _ _ _
                (QBFS_get_QBFS_sound False fuel m samples rho_max c
                   (or_intror (conj Hm Hfuel)) HS)) as (v & c' & Hrun & _).
    eauto.
Qed.

(** X7: no call overwrites or drops what the Qbfs cache holds.  In every
    state of the cache, the state a call of [get_grid], [get_PBFS],
    [get_QBFS] or of the Qbfs sag builder leaves, whether it returns or
    raises, holds every array of the three stores that was there before,
    under the same key and unchanged; only [clear] removes. *)
Theorem QBFS_cache_only_grows (op : QBFS_call F K) (c c' : cache F K) :
  QBFS_reachable make_rho_phi_grid rho_max_1 c →
  op ≠ QBFS_clear →
  QBFS_run make_rho_phi_grid rho_max_1 op c = Some c' →
  cache_extends c c'.
Proof.
  intros HS%QBFS_reachable_sound Hop Hrun.
  by destruct (QBFS_run_sound op c c' HS Hrun) as [_ Hext]; apply Hext.
Qed.
End SoundFacts.

(** X5 at order 3 on a new cache, over the sampled grid of 3 by 3 points. *)
Lemma get_PBFS_is_recurrence_witness :
  ∃ v c', QBFSCache.get_PBFS sample_rho_phi_grid 5 3 3 1 init = Normal v c' ∧
    ∃ fuel', qbfs_recurrence_P fuel' 3 (rho_squared sample_rho_phi_grid 3 1)
               None None None = Some v.
Proof.
  destruct (get_PBFS_is_recurrence sample_rho_phi_grid 1 init 5 3 3 1 (QBFS_reach_init _ _))
    as (Hsound & _ & Htotal).
  destruct Htotal as (v & c' & Hrun); [lia..|].
  exists v, c'. split; [done|]. by eapply Hsound.
Defined.

(** X6 at order 4 on a new cache. *)
Lemma get_QBFS_is_recurrence_witness :
  ∃ v c', QBFSCache.call sample_rho_phi_grid 15 4 3 1 init = Normal v c' ∧
    ∃ fuel', Q_ref fuel' 4 (rho_squared sample_rho_phi_grid 3 1) = Some v.
Proof.
  destruct (get_QBFS_is_recurrence sample_rho_phi_grid 1 init 15 4 3 1 (QBFS_reach_init _ _))
    as (Hsound & _ & Htotal).
  destruct Htotal as (v & c' & Hrun); [lia..|].
  exists v, c'. split; [done|]. by eapply Hsound.
Defined.

(** X7 for [get_QBFS(3, 3, 1)] in the state [get_PBFS(1, 3, 1)] leaves. *)
Lemma QBFS_cache_only_grows_witness :
  ∃ c c', QBFS_run sample_rho_phi_grid 1 (QBFS_get_PBFS 5 1 3 1) init = Some c ∧
    QBFS_run sample_rho_phi_grid 1 (QBFS_get_QBFS 15 3 3 1) c = Some c' ∧
    cache_extends c c'.
Proof.
  eexists _, _. split; [vm_compute; reflexivity|]. split; [vm_compute; reflexivity|].
  eapply (QBFS_cache_only_grows sample_rho_phi_grid 1 (QBFS_get_QBFS 15 3 3 1));
    [|done|vm_compute; reflexivity].
  eapply (QBFS_reach_step _ _ (QBFS_get_PBFS 5 1 3 1)); [apply QBFS_reach_init|].
  vm_compute; reflexivity.
Defined.

(** ** A second call *)

Lemma wp_bind_last {S A B} (m : M S B) (k : B → M S A) (Q : A → S → Prop) s :
  (∀ b s', wp (k b) Q (λ _ _, True) True s') →
  wp (m ≫= k) Q (λ _ _, True) True s.
Proof. intros Hk. unfold wp, mbind, M_bind. destruct (m s); [apply Hk|done..]. Qed.

Section SecondCall.
Context {F K : Type} `{Backend F} `{Countable K}.
Variable make_rho_phi_grid : Z → string → K → value F * value F.

(** Whatever the cache held, a getter that returns has its result in the
    store under the key of the call. *)
Lemma QBFS_get_grid_stores s r (c : cache F K) :
  wp (QBFSCache.get_grid make_rho_phi_grid s r)
     (λ v c', grids c' !! (s, r) = Some v) (λ _ _, True) True c.
Proof.
  unfold wp. rewrite QBFS_get_grid_run.
  destruct (grids c !! (s, r)) eqn:E; simpl; [done|apply lookup_insert_eq].
Qed.

Lemma QBFS_get_PBFS_stores fuel m s r (c : cache F K) :
  wp (QBFSCache.get_PBFS make_rho_phi_grid fuel m s r)
     (λ v c', Ps c' !! (Some m, s, r) = Some v) (λ _ _, True) True c.
Proof.
  destruct fuel as [|fuel]; [done|]. simpl. apply wp_gets. unfold make_key.
  destruct (Ps c !! (Some m, s, r)) eqn:E; [by apply wp_ret|].
  apply wp_bind_last; intros rho c0. apply wp_bind_last; intros [Pnm1 Pnm2] c1.
  apply wp_bind_last; intros Pm c2.
  apply wp_modify, wp_ret. simpl. apply lookup_insert_eq.
Qed.

Lemma QBFS_get_QBFS_stores fuel m s r (c : cache F K) :
  wp (QBFSCache.get_QBFS make_rho_phi_grid fuel m s r)
     (λ v c', Qs c' !! (Some m, s, r) = Some v) (λ _ _, True) True c.
Proof.
  destruct fuel as [|fuel]; [done|]. simpl. apply wp_gets. unfold make_key.
  destruct (Qs c !! (Some m, s, r)) eqn:E; [by apply wp_ret|].
  apply wp_bind_last; intros rho c0. apply wp_bind_last; intros Pm c1.
  apply wp_bind_last; intros [[[Pnm1 Pnm2] Qnm1] Qnm2] c2.
  apply wp_bind_last; intros Qm c3.
  apply wp_modify, wp_ret. simpl. apply lookup_insert_eq.
Qed.

(** X8: a getter of the Qbfs cache called again with the same arguments
    returns the same array and leaves the cache as it is, from whatever
    state the first call started in and at any positive fuel: the second
    call is a lookup. *)
Theorem QBFS_second_call (c c' : cache F K) (v : value F) (fuel : nat)
    (m samples : Z) (rho_max : K) :
  (QBFSCache.get_grid make_rho_phi_grid samples rho_max c = Normal v c' →
   QBFSCache.get_grid make_rho_phi_grid samples rho_max c' = Normal v c') ∧
  (QBFSCache.get_PBFS make_rho_phi_grid fuel m samples rho_max c = Normal v c' →
   ∀ fuel', QBFSCache.get_PBFS make_rho_phi_grid (S fuel') m samples rho_max c' = Normal v c') ∧
  (QBFSCache.get_QBFS make_rho_phi_grid fuel m samples rho_max c = Normal v c' →
   ∀ fuel', QBFSCache.get_QBFS make_rho_phi_grid (S fuel') m samples rho_max c' = Normal v c').
Proof.
  split_and!.
  - intros Hrun. pose proof (QBFS_get_grid_stores samples rho_max c) as Hs.
    unfold wp in Hs. rewrite Hrun in Hs. by rewrite QBFS_get_grid_run, Hs.
  - intros Hrun fuel'. pose proof (QBFS_get_PBFS_stores fuel m samples rho_max c) as Hs.
    unfold wp in Hs. rewrite Hrun in Hs.
    simpl. unfold mbind, M_bind, gets, make_key. by rewrite Hs.
  - intros Hrun fuel'. pose proof (QBFS_get_QBFS_stores fuel m samples rho_max c) as Hs.
    unfold wp in Hs. rewrite Hrun in Hs.
    simpl. unfold mbind, M_bind, gets, make_key. by rewrite Hs.
Qed.
End SecondCall.

(** X8 for [get_QBFS(3, 3, 1)] on a new cache. *)
Lemma QBFS_second_call_witness :
  ∃ v c', QBFSCache.get_QBFS sample_rho_phi_grid 15 3 3 1 init = Normal v c' ∧
    QBFSCache.get_QBFS sample_rho_phi_grid 1 3 3 1 c' = Normal v c'.
Proof.
  eexists _, _. split; [vm_compute; reflexivity|].
  apply (proj2 (proj2 (QBFS_second_call sample_rho_phi_grid init _ _ 15 3 3 1))).
  vm_compute; reflexivity.
Defined.

(** ** The shape of what the recurrences return *)

Section ShapeFacts.
Context {F : Type} `{Backend F}.
Implicit Types (a b v x : value F) (n : nat).

Lemma broadcast_fits nop fop a b n :
  fits n a → fits n b → fits n (broadcast nop fop a b).
Proof.
  destruct a as [?|xs], b as [?|ys]; simpl; try done.
  - intros _ <-. by rewrite length_map.
  - intros <- _. by rewrite length_map.
  - intros <- Hy. rewrite length_zip_with. lia.
Qed.

Lemma broadcast_is_array_l nop fop a b : is_array a → is_array (broadcast nop fop a b).
Proof. by destruct a, b. Qed.

Lemma broadcast_is_array_r nop fop a b : is_array b → is_array (broadcast nop fop a b).
Proof. by destruct a, b. Qed.

(** The recursion constants are scalars. *)
Lemma constants_scalar fuel :
  ∀ k v, (g_qbfs fuel k = Some v ∨ h_qbfs fuel k = Some v ∨ f_qbfs fuel k = Some v) →
         ¬ is_array v.
Proof.
  induction fuel as [|fuel IH]; intros k v; [by intros [?|[?|?]]|].
  assert (∀ k' (c : value F),
    (g_qbfs fuel k' = Some c ∨ h_qbfs fuel k' = Some c ∨ f_qbfs fuel k' = Some c) →
    ∃ q : number F, c = Num q) as Hnum.
  { intros k' c Hc. apply IH in Hc. destruct c as [q|?]; [by exists q|by destruct Hc]. }
  rewrite g_qbfs_unfold, h_qbfs_unfold, f_qbfs_unfold.
  intros [Hv|[Hv|Hv]].
  - destruct (k =? 0); [injection Hv as <-; by intros []|].
    destruct (g_qbfs fuel (k - 1)) as [g|] eqn:Eg; [|done].
    destruct (h_qbfs fuel (k - 1)) as [h|] eqn:Eh; [|done].
    destruct (f_qbfs fuel k) as [f|] eqn:Ef; [|done].
    destruct (Hnum _ _ (or_introl Eg)) as [? ->].
    destruct (Hnum _ _ (or_intror (or_introl Eh))) as [? ->].
    destruct (Hnum _ _ (or_intror (or_intror Ef))) as [? ->].
    injection Hv as <-. by intros [].
  - destruct (f_qbfs fuel k) as [f|] eqn:Ef; [|done].
    destruct (Hnum _ _ (or_intror (or_intror Ef))) as [? ->].
    injection Hv as <-. by intros [].
  - destruct (k =? 0); [injection Hv as <-; by intros []|].
    destruct (k =? 1); [injection Hv as <-; by intros []|].
    destruct (g_qbfs fuel (k - 1)) as [g|] eqn:Eg; [|done].
    destruct (h_qbfs fuel (k - 2)) as [h|] eqn:Eh; [|done].
    destruct (Hnum _ _ (or_introl Eg)) as [? ->].
    destruct (Hnum _ _ (or_intror (or_introl Eh))) as [? ->].
    injection Hv as <-. by intros [].
Qed.

(** On an array of n elements the P recurrence returns the int 2 at order 0
    and an array of n elements at every other order. *)
Lemma qbfs_recurrence_P_shape fuel :
  ∀ k xs v, qbfs_recurrence_P fuel k (NdArray xs) None None None = Some v →
    fits (length xs) v ∧ (k = 0 → v = int 2) ∧ (k ≠ 0 → is_array v).
Proof.
  induction fuel as [|fuel IH]; intros k xs v; [done|].
  rewrite qbfs_recurrence_P_unfold.
  destruct (Z.eqb_spec k 0) as [->|Hk0]; [intros [= <-]; by split_and!|].
  destruct (Z.eqb_spec k 1) as [->|Hk1].
  { intros [= <-]. split_and!; [|done..]. simpl. by rewrite !length_map. }
  unfold or_else.
  destruct (qbfs_recurrence_P fuel (k - 1) _ _ _ _) as [p1|] eqn:E1; [|done].
  destruct (qbfs_recurrence_P fuel (k - 2) _ _ _ _) as [p2|] eqn:E2; [|done].
  intros Hv.
  assert (v = ((int 2 - int 4 * NdArray xs) * p1 - p2)%py) as -> by (apply (inj Some); by rewrite <-Hv).
  destruct (IH _ _ _ E1) as (F1 & _ & A1), (IH _ _ _ E2) as (F2 & _ & _).
  split_and!; [|done|intros _].
  - apply broadcast_fits; [apply broadcast_fits|]; [|done..].
    simpl. by rewrite !length_map.
  - apply broadcast_is_array_l, broadcast_is_array_l. done.
Qed.

(** On an array of n elements the recurrence proper returns an array of n
    elements at every order. *)
Lemma Q_ref_shape fuel :
  ∀ k xs v, Q_ref fuel k (NdArray xs) = Some v → fits (length xs) v ∧ is_array v.
Proof.
  induction fuel as [|fuel IH]; intros k xs v; [done|].
  rewrite Q_ref_unfold.
  destruct (k =? 0); [intros [= <-]; simpl; by rewrite length_map|].
  destruct (k =? 1); [intros [= <-]; simpl; by rewrite !length_map|].
  destruct (qbfs_recurrence_P fuel k _ _ _ _) as [p|] eqn:EP; [|done].
  destruct (Q_ref fuel (k - 1) _) as [q1|] eqn:E1; [|done].
  destruct (Q_ref fuel (k - 2) _) as [q2|] eqn:E2; [|done].
  destruct (g_qbfs fuel (k - 1)) as [g|] eqn:Eg; [|done].
  destruct (h_qbfs fuel (k - 2)) as [h|] eqn:Eh; [|done].
  destruct (f_qbfs fuel k) as [f|] eqn:Ef; [|done].
  intros Hv.
  assert (v = ((p - g * q1 - h * q2) / f)%py) as -> by (apply (inj Some); by rewrite <-Hv).
  destruct (qbfs_recurrence_P_shape _ _ _ _ EP) as (FP & _ & _).
  destruct (IH _ _ _ E1) as [F1 A1], (IH _ _ _ E2) as [F2 A2].
  assert (∀ c : value F, ¬ is_array c → fits (length xs) c) as Hsc by (by intros [?|?]).
  pose proof (constants_scalar fuel) as Hc.
  split.
  - repeat apply broadcast_fits; eauto.
  - apply broadcast_is_array_l, broadcast_is_array_r, broadcast_is_array_r. done.
Qed.
End ShapeFacts.

(** ** The shape of what the Qbfs cache holds, and its byte count *)

Section CacheShapeFacts.
Context {F K : Type} `{Backend F} `{Countable K}.
Variable make_rho_phi_grid : Z → string → K → value F * value F.
Variable rho_max_1 : K.

Lemma rho_squared_array s r xs :
  (make_rho_phi_grid s "y" r).1 = NdArray xs →
  rho_squared make_rho_phi_grid s r = NdArray ((λ v, fpow v 2) <$> xs).
Proof. unfold rho_squared. by intros ->. Qed.

(** X9: where the provider returns an array of n elements for
    (samples, rho_max), every term the Qbfs cache hands out under that key
    fits it: in every state of the cache [get_grid] returns the array of the
    n squares, [get_QBFS] returns an array of n elements at every order, and
    [get_PBFS] returns an array of n elements at every order but 0, where it
    returns the Python int 2. *)
Theorem QBFS_terms_fit_grid (c : cache F K) (samples : Z) (rho_max : K) (xs : list F) :
  QBFS_reachable make_rho_phi_grid rho_max_1 c →
  (make_rho_phi_grid samples "y" rho_max).1 = NdArray xs →
  (∃ c', QBFSCache.get_grid make_rho_phi_grid samples rho_max c =
           Normal (NdArray ((λ v, fpow v 2) <$> xs)) c') ∧
  (∀ fuel m v c',
     QBFSCache.get_QBFS make_rho_phi_grid fuel m samples rho_max c = Normal v c' →
     ∃ ys, v = NdArray ys ∧ length ys = length xs) ∧
  (∀ fuel m v c',
     QBFSCache.get_PBFS make_rho_phi_grid fuel m samples rho_max c = Normal v c' →
     if m =? 0 then v = int 2 else ∃ ys, v = NdArray ys ∧ length ys = length xs).
Proof.
  intros HS%QBFS_reachable_sound Hxs. apply rho_squared_array in Hxs.
  split_and!.
  - pose proof (QBFS_get_grid_sound make_rho_phi_grid samples rho_max c
                  (λ v c', v = rho_squared make_rho_phi_grid samples rho_max)
                  (λ _ _, False) False HS) as Hp.
    unfold wp in Hp.
    destruct (QBFSCache.get_grid _ _ _ _) as [v c'| |]; [|by destruct Hp..].
    rewrite Hp, Hxs by done. by exists c'.
  - intros fuel m v c' Hrun.
    pose proof (QBFS_get_QBFS_sound make_rho_phi_grid True fuel m samples rho_max c
                  (or_introl Logic.I) HS) as Hp.
    unfold wp in Hp. rewrite Hrun in Hp. destruct Hp as ((_ & _ & HQs & _) & _ & Hv).
    destruct (HQs _ _ _ _ Hv) as [fuel' Ev]. rewrite Hxs in Ev.
    apply Q_ref_shape in Ev as [Hfit Harr]. destruct v as [|ys]; [done|].
    exists ys. split; [done|]. simpl in Hfit. by rewrite length_map in Hfit.
  - intros fuel m v c' Hrun.
    pose proof (QBFS_get_PBFS_sound make_rho_phi_grid True fuel m samples rho_max c
                  (or_introl Logic.I) HS) as Hp.
    unfold wp in Hp. rewrite Hrun in Hp. destruct Hp as ((_ & HPs & _) & _ & Hv & _).
    destruct (HPs _ _ _ _ Hv) as [fuel' Ev]. rewrite Hxs in Ev.
    apply qbfs_recurrence_P_shape in Ev as (Hfit & H0v & Harr).
    destruct (Z.eqb_spec m 0) as [Hm|Hm]; [by apply H0v|].
    specialize (Harr Hm). destruct v as [|ys]; [done|].
    exists ys. split; [done|]. simpl in Hfit. by rewrite length_map in Hfit.
Qed.

(** What [nbytes] meets at a key of the Q store of a sound cache. *)
Lemma QBFS_key_entries (c : cache F K) k :
  QBFS_sound make_rho_phi_grid c →
  (∀ s r, is_array (make_rho_phi_grid s "y" r).1) →
  is_Some (Qs c !! k) →
  ∃ m q p g, k.1.1 = Some m ∧
    Qs c !! k = Some q ∧ is_array q ∧
    Ps c !! k = Some p ∧ (m = 0 → p = int 2) ∧ (m ≠ 0 → is_array p) ∧
    grids c !! key_tail k = Some g ∧ is_array g.
Proof.
  intros ([Hg _] & HPs & HQs & HB) Harr HQ.
  destruct (HB k HQ) as ([m Hm] & [p Hp] & [g Hgk]). destruct HQ as [q Hq].
  destruct k as [[o s] r]. simpl in Hm. subst o. unfold key_tail in *. simpl in *.
  assert (∃ xs, rho_squared make_rho_phi_grid s r = NdArray xs) as [xs Hxs].
  { unfold rho_squared. specialize (Harr s r).
    destruct ((make_rho_phi_grid s "y" r).1); [done|]. by eexists. }
  exists m, q, p, g. split_and!; try done.
  - destruct (HQs _ _ _ _ Hq) as [fuel Ev]. rewrite Hxs in Ev.
    by apply Q_ref_shape in Ev as [_ ?].
  - destruct (HPs _ _ _ _ Hp) as [fuel Ev]. rewrite Hxs in Ev.
    by apply qbfs_recurrence_P_shape in Ev as (_ & ? & _).
  - destruct (HPs _ _ _ _ Hp) as [fuel Ev]. rewrite Hxs in Ev.
    by apply qbfs_recurrence_P_shape in Ev as (_ & _ & ?).
  - rewrite (Hg _ _ _ Hgk). fold (rho_squared make_rho_phi_grid s r). by rewrite Hxs.
Qed.

Lemma nbytes_loop_run (c : cache F K) (keys : list (option Z * Z * K)) :
  QBFS_sound make_rho_phi_grid c →
  (∀ s r, is_array (make_rho_phi_grid s "y" r).1) →
  Forall (λ k, is_Some (Qs c !! k)) keys →
  ∀ n0,
    (Forall (λ k, k.1.1 ≠ Some 0) keys →
     nbytes_loop keys n0 c = Normal (n0 + foldr (λ k n, key_bytes c k + n) 0 keys) c) ∧
    (Exists (λ k, k.1.1 = Some 0) keys →
     nbytes_loop keys n0 c = Raised (AttributeError "nbytes") c).
Proof.
  intros HS Harr. induction 1 as [|k keys Hk Hkeys IH]; intros n0.
  { split; [intros _; simpl; f_equal; lia|by intros ?%Exists_nil]. }
  destruct (QBFS_key_entries c k HS Harr Hk)
    as (m & q & p & g & Hm & Hq & Aq & Hp & Hp0 & Hp1 & Hg & Ag).
  destruct q as [|qs]; [done|]. destruct g as [|gs]; [done|].
  destruct (decide (m = 0)) as [->|Hm0].
  - rewrite Hp0 in Hp by done. split.
    + intros [Hk0 _]%Forall_cons. by rewrite Hm in Hk0.
    + intros _. simpl. unfold mbind, M_bind, gets, getitem, get_nbytes.
      rewrite Hq. simpl. by rewrite Hp.
  - specialize (Hp1 Hm0). destruct p as [|ps]; [done|].
    assert (nbytes_loop (k :: keys) n0 c =
            nbytes_loop keys (n0 + Z.of_nat (length qs) * itemsize
                                 + Z.of_nat (length ps) * itemsize
                                 + Z.of_nat (length gs) * itemsize) c) as ->.
    { simpl. unfold mbind, M_bind, gets, getitem, get_nbytes.
      rewrite Hq. simpl. rewrite Hp. simpl. by rewrite Hg. }
    assert (key_bytes c k = Z.of_nat (length qs) * itemsize + Z.of_nat (length ps) * itemsize
                            + Z.of_nat (length gs) * itemsize) as Hkb.
    { unfold key_bytes. by rewrite Hq, Hp, Hg. }
    split.
    + intros [_ Hrest]%Forall_cons. rewrite (proj1 (IH _) Hrest). simpl. f_equal. lia.
    + intros [Hk0|Hrest]%Exists_cons; [rewrite Hm in Hk0; congruence|].
      by rewrite (proj2 (IH _) Hrest).
Qed.

(** X10: [nbytes] in the states of the Qbfs cache, the provider returning
    arrays.  It leaves the cache as it is and never ends in KeyError.  While
    no Q array of order 0 is cached it returns, for each key of the Q store,
    the bytes of the Q array, of the P array and of the grid of that key,
    the grid counted again for every order that shares it; once a Q array of
    order 0 is cached it raises AttributeError, the P term of order 0 being a
    Python int. *)
Theorem nbytes_in_reachable_states (c : cache F K) :
  QBFS_reachable make_rho_phi_grid rho_max_1 c →
  (∀ s r, is_array (make_rho_phi_grid s "y" r).1) →
  ((∀ s r, Qs c !! (Some 0, s, r) = None) → nbytes c = Normal (bytes_by_key c) c) ∧
  ((∃ s r, is_Some (Qs c !! (Some 0, s, r))) →
     nbytes c = Raised (AttributeError "nbytes") c).
Proof.
  intros HS%QBFS_reachable_sound Harr.
  assert (Forall (λ k, is_Some (Qs c !! k)) (map_to_list (Qs c)).*1) as Hkeys.
  { apply Forall_forall. intros k [[k' v] [-> Hin]]%list_elem_of_fmap.
    apply elem_of_map_to_list in Hin. simpl. eauto. }
  destruct (nbytes_loop_run c _ HS Harr Hkeys 0) as [Hok Hraise].
  split.
  - intros Hnone. unfold nbytes, mbind, M_bind, gets. rewrite Hok; [done|].
    apply Forall_forall. intros k [[[[o s] r] v] [-> Hin]]%list_elem_of_fmap.
    apply elem_of_map_to_list in Hin. simpl. intros ->. by rewrite Hnone in Hin.
  - intros (s & r & [v Hv]). unfold nbytes, mbind, M_bind, gets. apply Hraise.
    apply Exists_exists. exists (Some 0, s, r). split; [|done].
    apply list_elem_of_fmap. exists ((Some 0, s, r), v). split; [done|].
    by apply elem_of_map_to_list.
Qed.
End CacheShapeFacts.

(** X9 for [get_QBFS(3, 3, 1)] on a new cache: an array of 9 elements. *)
Lemma QBFS_terms_fit_grid_witness :
  ∃ v c', QBFSCache.get_QBFS sample_rho_phi_grid 15 3 3 1 init = Normal v c' ∧
    ∃ ys, v = NdArray ys ∧ length ys = 9%nat.
Proof.
  eexists _, _. split; [vm_compute; reflexivity|].
  eapply (proj1 (proj2 (QBFS_terms_fit_grid sample_rho_phi_grid 1 init 3 1 _
                          (QBFS_reach_init _ _) eq_refl)) 15%nat 3).
  vm_compute; reflexivity.
Defined.

(** X10 on a new cache, and in the state [get_QBFS(0, 3, 1)] leaves. *)
Lemma nbytes_in_reachable_states_witness :
  (let c0 : cache PrimFloat.float Z := init in nbytes c0 = Normal (bytes_by_key c0) c0) ∧
  ∃ c, QBFS_run sample_rho_phi_grid 1 (QBFS_get_QBFS 9 0 3 1) init = Some c ∧
    nbytes c = Raised (AttributeError "nbytes") c.
Proof.
  split.
  - apply (nbytes_in_reachable_states sample_rho_phi_grid 1 init (QBFS_reach_init _ _)).
    + intros s r. exact I.
    + intros s r. apply lookup_empty.
  - eexists. split; [vm_compute; reflexivity|].
    eapply (nbytes_in_reachable_states sample_rho_phi_grid 1).
    + eapply (QBFS_reach_step _ _ (QBFS_get_QBFS 9 0 3 1)); [apply QBFS_reach_init|].
      vm_compute; reflexivity.
    + intros s r. exact I.
    + exists 3, 1. vm_compute. eauto.
Defined.

(** ** What the Qcon cache can hold *)

Section QCONLowFacts.
Context {F K : Type} `{Backend F} `{Countable K}.
Variable make_rho_phi_grid : Z → string → K → value F * value F.
Variable rho_max_1 : K.

Abbreviation Low := (QCON_low make_rho_phi_grid).

Lemma QCON_low_set_Ps k v (c : cache F K) : Low c → Low (set_Ps k v c).
Proof. by intros [? ?]. Qed.

Lemma QCON_low_set_grids s r (c : cache F K) :
  Low c → grids c !! (s, r) = None →
  Low (set_grids (s, r) (int 2 * (make_rho_phi_grid s "y" r).1 ** 2 - int 1)%py c).
Proof. intros [Hg Hq] Hnone. split; [by apply QCON_inv_set_grids|done]. Qed.

Lemma QCON_low_set_Qs m s r v (c : cache F K) :
  m ≤ 2 → Low c → Low (set_Qs (Some m, s, r) v c).
Proof.
  intros Hm [Hg Hq]. split; [done|]. intros m' s' r'; simpl.
  destruct (decide ((Some m, s, r) = (Some m', s', r'))) as [[= <- <- <-]|Hne]; [done|].
  rewrite lookup_insert_ne by done. apply Hq.
Qed.

Lemma QCON_low_init : Low (init (F:=F) (K:=K)).
Proof.
  split; [intros s r v|intros m s r]; simpl; rewrite lookup_empty; [done|by intros [? ?]].
Qed.

(** [get_QCON] on a cache with no Q array above order 2: it returns only at
    orders up to 2 and raises only above, the AttributeError of the missing
    getter; either way it leaves such a cache. *)
Lemma QCON_get_QCON_low (D : Prop) fuel m s r (c : cache F K) :
  D ∨ (0 ≤ m ∧ m + 3 ≤ Z.of_nat fuel ∧ (m ≤ 2 → 7 ≤ Z.of_nat fuel)) → Low c →
  wp (QCONCache.get_QCON make_rho_phi_grid fuel m s r)
     (λ _ c', Low c' ∧ m ≤ 2)
     (λ e c', Low c' ∧ e = AttributeError "get_QBFS" ∧ 2 < m) D c.
Proof.
  intros Hfuel HL. destruct fuel as [|fuel]; [destruct Hfuel; [done|lia]|].
  simpl. apply wp_gets. unfold make_key.
  destruct (Qs c !! (Some m, s, r)) as [Qm|] eqn:EQ.
  { apply wp_ret. split; [done|]. destruct HL as [_ Hq]. apply (Hq m s r). by rewrite EQ. }
  apply wp_bind, (QCON_get_grid_wp make_rho_phi_grid Low); [apply QCON_low_set_grids|done|].
  intros rho c0 HL0 HQ0.
  assert (∀ m' c1, D ∨ (0 ≤ m' ∧ m' ≤ m) → Low c1 →
    wp (QCONCache.get_PBFS make_rho_phi_grid fuel m' s r) (λ _ c', Low c')
       (λ e c', Low c' ∧ e = AttributeError "get_QBFS" ∧ 2 < m) D c1) as HPBFS.
  { intros m' c1 Hm' HL1.
    eapply wp_mono;
      [apply (QCON_get_PBFS_wp make_rho_phi_grid Low QCON_low_set_Ps QCON_low_set_grids
                D fuel m' s r c1); [|done]|..];
      [|by intros ? ? [? ?]|done..].
    destruct Hfuel as [?|(? & ? & ?)]; [by left|]. destruct Hm'; [by left|right; lia]. }
  apply wp_bind. unfold QCONCache.invoke at 1. simpl.
  eapply wp_mono; [apply (HPBFS m c0); [|done]|simpl|done..].
  { destruct Hfuel as [?|(? & ? & ?)]; [by left|right; lia]. }
  intros Pm c1 HL1. apply wp_bind.
  destruct (Z.gtb_spec m 2) as [Hm|Hm].
  - apply wp_bind. unfold QCONCache.invoke at 1. simpl.
    eapply wp_mono; [apply (HPBFS (m - 2) c1); [|done]|simpl|done..].
    { destruct Hfuel as [?|(? & ? & ?)]; [by left|right; lia]. }
    intros Pnm2 c2 HL2. apply wp_bind. unfold QCONCache.invoke at 1. simpl.
    eapply wp_mono; [apply (HPBFS (m - 1) c2); [|done]|simpl|done..].
    { destruct Hfuel as [?|(? & ? & ?)]; [by left|right; lia]. }
    intros Pnm1 c3 HL3. apply wp_bind. unfold QCONCache.invoke at 1. simpl.
    by apply wp_raise.
  - apply wp_ret, wp_bind, wp_pure_call.
    destruct (qbfs_recurrence_Q _ _ _ _ _ _ _ _ _) as [Qm|] eqn:EQm.
    + apply wp_modify, wp_ret. split; [by apply QCON_low_set_Qs|done].
    + destruct Hfuel as [?|(? & ? & ?)]; [done|].
      destruct (qbfs_recurrence_Q_total (F:=F) fuel m rho (Some Pm) None None None None None)
        as [? E]; [lia..|]. congruence.
Qed.

(** A Qcon build leaves a cache with no Q array above order 2; if it comes
    back, no coefficient that counts was above order 2; it raises nothing
    but the AttributeError of the missing getter and ValueError. *)
Lemma QCON_accumulate_low fuel samples (items : list (Z * number F)) :
  ∀ p (c : cache F K) (D : Prop),
    D ∨ Forall (λ item, 0 ≤ item.1 ∧ item.1 + 3 ≤ Z.of_nat fuel) items ∧
        7 ≤ Z.of_nat fuel →
    Low c →
    wp (QPolySag1D.accumulate (QCONCache.call make_rho_phi_grid) rho_max_1 fuel samples items p)
       (λ _ c', Low c' ∧ Forall (λ item, num_eq0 item.2 = false → item.1 ≤ 2) items)
       (λ e c', Low c' ∧ e = AttributeError "get_QBFS") D c.
Proof.
  induction items as [|[term coef] items IH]; intros p c D Hfuel HL; [by apply wp_ret|].
  assert (D ∨ Forall (λ item, 0 ≤ item.1 ∧ item.1 + 3 ≤ Z.of_nat fuel) items ∧
              7 ≤ Z.of_nat fuel) as Hrest.
  { destruct Hfuel as [?|[[_ ?]%Forall_cons ?]]; [by left|by right]. }
  simpl. destruct (num_eq0 coef) eqn:E0.
  - eapply wp_mono; [by apply IH|simpl|done..].
    intros _ c' [HL' Hall]. split; [done|]. constructor; [simpl; congruence|done].
  - apply wp_bind. unfold QCONCache.call.
    eapply wp_mono; [apply (QCON_get_QCON_low D fuel term samples rho_max_1 c); [|done]|..];
      [|simpl|by intros ? ? (? & ? & ?)|done].
    { destruct Hfuel as [?|[[[? ?] _]%Forall_cons ?]]; [by left|right; simpl in *; lia]. }
    intros t c' [HL' Hterm].
    eapply wp_mono; [by apply IH|simpl|done..].
    intros _ c'' [HL'' Hall]. split; [done|]. by constructor.
Qed.

Lemma QCON_run_low (op : QCON_call F K) c c' :
  Low c → QCON_run make_rho_phi_grid rho_max_1 op c = Some c' → Low c'.
Proof.
  intros HL Hrun.
  destruct op as [s r|fuel m s r|fuel m s r| |fuel self]; simpl in Hrun.
  - eapply wp_final_state; [|done].
    apply (QCON_get_grid_wp make_rho_phi_grid Low); [apply QCON_low_set_grids|done..].
  - eapply wp_final_state; [|done].
    eapply wp_mono;
      [apply (QCON_get_PBFS_wp make_rho_phi_grid Low QCON_low_set_Ps QCON_low_set_grids
                True fuel m s r c); [by left|done]|..];
      [by intros ? ? [? ?]|done..].
  - eapply wp_final_state; [|done].
    eapply wp_mono; [apply (QCON_get_QCON_low True fuel m s r c); [by left|done]|..];
      [by intros ? ? [? ?]|by intros ? ? [? ?]|done].
  - injection Hrun as <-. apply QCON_low_init.
  - eapply wp_final_state; [|done]. unfold QCONSag.build. apply wp_bind.
    eapply wp_mono; [apply (base_build_inv rho_max_1 Low); [|done]|simpl|done..].
    + intros m s r c0 HL0. unfold QCONCache.call.
      eapply wp_mono; [apply (QCON_get_QCON_low True fuel m s r c0); [by left|done]|..];
        [by intros ? ? [? ?]|by intros ? ? [? ?]|done].
    + intros self' c1 [HL1 _].
      apply wp_bind, (QCON_get_grid_wp make_rho_phi_grid Low);
        [apply QCON_low_set_grids|done|].
      intros r2 c2 HL2 _. by apply wp_ret.
Qed.

Lemma QCON_reachable_low c : QCON_reachable make_rho_phi_grid rho_max_1 c → Low c.
Proof.
  induction 1 as [|op c c' _ IH Hrun]; [apply QCON_low_init|].
  by eapply QCON_run_low.
Qed.

(** X11: the Qcon cache never holds a Q array of an order above 2.  In every
    state of the cache, the orders in the Q store are at most 2;
    [get_QCON(m, ...)] ends in AttributeError on [get_QBFS] for every order
    m > 2 (at any fuel of m + 3 or more), whatever was asked of the cache
    before; and it comes back for the orders 0, 1 and 2 (at any fuel of 7 or
    more). *)
Theorem QCON_orders_above_2 (c : cache F K) :
  QCON_reachable make_rho_phi_grid rho_max_1 c →
  (∀ m s r, is_Some (Qs c !! (Some m, s, r)) → m ≤ 2) ∧
  (∀ fuel m s r, 2 < m → m + 3 ≤ Z.of_nat fuel →
     ∃ c', QCONCache.get_QCON make_rho_phi_grid fuel m s r c =
             Raised (AttributeError "get_QBFS") c') ∧
  (∀ fuel m s r, 0 ≤ m ≤ 2 → 7 ≤ Z.of_nat fuel →
     ∃ v c', QCONCache.get_QCON make_rho_phi_grid fuel m s r c = Normal v c').
Proof.
  intros HL%QCON_reachable_low. split_and!.
  - by destruct HL.
  - intros fuel m s r Hm Hfuel.
    pose proof (QCON_get_QCON_low False fuel m s r c) as Hp. unfold wp in Hp.
    destruct (QCONCache.get_QCON _ _ _ _ _ _) as [v c'|e c'|].
    + destruct Hp as [_ ?]; [right; lia|done|lia].
    + destruct Hp as (_ & -> & _); [right; lia|done|]. by exists c'.
    + destruct Hp; [right; lia|done].
  - intros fuel m s r Hm Hfuel.
    pose proof (QCON_get_QCON_low False fuel m s r c) as Hp. unfold wp in Hp.
    destruct (QCONCache.get_QCON _ _ _ _ _ _) as [v c'|e c'|].
    + by exists v, c'.
    + destruct Hp as (_ & _ & ?); [right; lia|done|lia].
    + destruct Hp; [right; lia|done].
Qed.

(** X12: a Qcon sag cannot be built with a coefficient that counts above
    order 2.  In every state of the Qcon cache, for a sample count that is
    not negative and a coefficient dict of non-negative orders, if some
    order above 2 has a coefficient other than 0 then [QCONSag.build] ends
    in AttributeError on [get_QBFS] (the fuel being 7 or more and 3 above
    every order). *)
Theorem QCONSag_build_raises (c : cache F K) (coefs : list (Z * number F))
    (samples : Z) (phase0 : value F) (fuel : nat) (k : Z) (a : number F) :
  QCON_reachable make_rho_phi_grid rho_max_1 c →
  0 ≤ samples → NoDup coefs.*1 →
  Forall (λ item, 0 ≤ item.1 ∧ item.1 + 3 ≤ Z.of_nat fuel) coefs → 7 ≤ Z.of_nat fuel →
  (k, a) ∈ coefs → 2 < k → num_eq0 a = false →
  ∃ c', QCONSag.build make_rho_phi_grid rho_max_1 fuel (Sag coefs samples phase0) c =
          Raised (AttributeError "get_QBFS") c'.
Proof.
  intros HL%QCON_reachable_low Hs Hnd Hall Hfuel Hin Hk Ha.
  unfold QCONSag.build, mbind, M_bind. rewrite build_run. simpl.
  destruct (Z.ltb_spec samples 0) as [?|_]; [lia|].
  pose proof (QCON_accumulate_low fuel samples (ordered_items coefs)
                (zeros [samples; samples]) c False) as Hp.
  unfold wp in Hp.
  destruct (QPolySag1D.accumulate _ _ _ _ _ _ _) as [p c'|e c'|]; simpl.
  - destruct Hp as [_ Hitems]; [right; split; [|done]|done|].
    + unfold ordered_items. apply Forall_fmap, Forall_forall. intros k' Hk'. simpl.
      rewrite merge_sort_Permutation in Hk'.
      apply list_elem_of_fmap in Hk' as [item [-> Hitem]].
      by eapply Forall_forall in Hall.
    + exfalso. eapply Forall_forall in Hitems.
      2:{ unfold ordered_items. apply list_elem_of_fmap. exists k. split; [done|].
          rewrite merge_sort_Permutation. apply list_elem_of_fmap. by exists (k, a). }
      simpl in Hitems. unfold lookup_or in Hitems.
      rewrite (dict_get_elem_Some coefs k a) in Hitems by done. simpl in Hitems.
      specialize (Hitems Ha). lia.
  - destruct Hp as [_ ->]; [right; split; [|done]|done|by exists c'].
    unfold ordered_items. apply Forall_fmap, Forall_forall. intros k' Hk'. simpl.
    rewrite merge_sort_Permutation in Hk'.
    apply list_elem_of_fmap in Hk' as [item [-> Hitem]].
    by eapply Forall_forall in Hall.
  - destruct Hp; [right; split; [|done]|done].
    unfold ordered_items. apply Forall_fmap, Forall_forall. intros k' Hk'. simpl.
    rewrite merge_sort_Permutation in Hk'.
    apply list_elem_of_fmap in Hk' as [item [-> Hitem]].
    by eapply Forall_forall in Hall.
Qed.
End QCONLowFacts.

(** X11 in the state [get_QCON(2, 3, 1)] leaves: order 5 raises, order 1
    comes back. *)
Lemma QCON_orders_above_2_witness :
  ∃ c, QCON_run sample_rho_phi_grid 1 (QCON_get_QCON 7 2 3 1) init = Some c ∧
    (∃ c', QCONCache.get_QCON sample_rho_phi_grid 8 5 3 1 c =
             Raised (AttributeError "get_QBFS") c') ∧
    (∃ v c', QCONCache.get_QCON sample_rho_phi_grid 7 1 3 1 c = Normal v c').
Proof.
  eexists. split; [vm_compute; reflexivity|].
  edestruct (QCON_orders_above_2 sample_rho_phi_grid 1) as (_ & Hraise & Hback).
  { eapply (QCON_reach_step _ _ (QCON_get_QCON 7 2 3 1)); [apply QCON_reach_init|].
    vm_compute; reflexivity. }
  split; [apply Hraise; lia|apply Hback; lia].
Defined.

(** X12 on the dict {1: 1.0, 3: 2.0} from a new cache. *)
Lemma QCONSag_build_raises_witness :
  ∃ c', QCONSag.build sample_rho_phi_grid 1 7
          (Sag [(1, PyFloat (float_of_Z 1)); (3, PyFloat (float_of_Z 2))] 3 (zeros [3; 3]))
          init = Raised (AttributeError "get_QBFS") c'.
Proof.
  apply (QCONSag_build_raises sample_rho_phi_grid 1 init _ 3 _ 7 3 (PyFloat (float_of_Z 2)));
    [apply QCON_reach_init|lia| |repeat constructor; simpl; lia|lia| |lia|vm_compute; reflexivity].
  - apply (bool_decide_unpack _). vm_compute. exact I.
  - apply list_elem_of_further, list_elem_of_here.
Defined.

(** ** What the builders return *)

Section BuilderFacts.
Context {F K : Type} `{Backend F} `{Countable K}.
Variable make_rho_phi_grid : Z → string → K → value F * value F.
Variable rho_max_1 : K.

(** The loop of a Qbfs build on a sound cache: it raises nothing, it comes
    back, and the phase stays an array of the size of the grid. *)
Lemma QBFS_accumulate_sound fuel samples (xs : list F) (items : list (Z * number F)) :
  rho_squared make_rho_phi_grid samples rho_max_1 = NdArray xs →
  Forall (λ item, 0 ≤ item.1 ∧ 2 * item.1 + 7 ≤ Z.of_nat fuel) items →
  ∀ p (c : cache F K),
    QBFS_sound make_rho_phi_grid c → is_array p → fits (length xs) p →
    wp (QPolySag1D.accumulate (QBFSCache.call make_rho_phi_grid) rho_max_1 fuel samples items p)
       (λ p' c', QBFS_sound make_rho_phi_grid c' ∧ cache_extends c c' ∧
                 is_array p' ∧ fits (length xs) p')
       (λ _ _, False) False c.
Proof.
  intros Hxs. induction 1 as [|[term coef] items [Hterm Hfuel] Hitems IH]; intros p c HS Ap Fp.
  { apply wp_ret. split_and!; [done|apply cache_extends_refl|done..]. }
  simpl in *. destruct (num_eq0 coef); [by apply IH|].
  apply wp_bind. unfold QBFSCache.call.
  eapply wp_mono;
    [apply (QBFS_get_QBFS_sound make_rho_phi_grid False fuel term samples rho_max_1 c);
       [right; lia|done]|simpl|done..].
  intros t c' (HS' & Hext & Ht).
  assert (is_array t ∧ fits (length xs) t) as [At Ft].
  { destruct HS' as (_ & _ & HQs & _). destruct (HQs _ _ _ _ Ht) as [fuel' Ev].
    rewrite Hxs in Ev. by apply Q_ref_shape in Ev as [? ?]. }
  destruct t as [|ts]; [done|]. destruct p as [|ps]; [done|]. simpl in Ft, Fp.
  eapply wp_mono; [apply (IH _ c' HS')|simpl|done..].
  - done.
  - simpl. rewrite length_zip_with, length_map. lia.
  - intros p' c'' (HS'' & Hext' & Ap' & Fp').
    split_and!; [done|by eapply cache_extends_trans|done..].
Qed.

(** X13: a Qbfs build comes back.  In every state of the Qbfs cache, for a
    sample count that is not negative, a provider that returns samples^2
    radial coordinates for it, and a coefficient dict of non-negative
    orders, [QBFSSag.build] raises nothing and returns (the fuel being
    2 k + 7 or more for every order k); the phase it leaves is an array of
    samples^2 elements, and the cache holds all it held before. *)
Theorem QBFSSag_build_returns (c : cache F K) (coefs : list (Z * number F))
    (samples : Z) (phase0 : value F) (fuel : nat) (xs : list F) :
  QBFS_reachable make_rho_phi_grid rho_max_1 c →
  0 ≤ samples →
  (make_rho_phi_grid samples "y" rho_max_1).1 = NdArray xs →
  length xs = Z.to_nat (samples * samples) →
  Forall (λ item, 0 ≤ item.1 ∧ 2 * item.1 + 7 ≤ Z.of_nat fuel) coefs →
  ∃ ys c',
    QBFSSag.build make_rho_phi_grid rho_max_1 fuel (Sag coefs samples phase0) c =
      Normal (Sag coefs samples (NdArray ys)) c' ∧
    length ys = Z.to_nat (samples * samples) ∧ cache_extends c c'.
Proof.
  intros HS%QBFS_reachable_sound Hs Hxs Hlen Hall.
  apply rho_squared_array in Hxs.
  assert (length ((λ v, fpow v 2) <$> xs) = Z.to_nat (samples * samples)) as Hlen'
    by (by rewrite length_fmap).
  unfold QBFSSag.build, mbind, M_bind. rewrite build_run. simpl.
  destruct (Z.ltb_spec samples 0) as [?|_]; [lia|].
  pose proof (QBFS_accumulate_sound fuel samples _ (ordered_items coefs) Hxs) as Hp.
  specialize (Hp ltac:(unfold ordered_items; apply Forall_fmap, Forall_forall;
                       intros k' Hk'; simpl; rewrite merge_sort_Permutation in Hk';
                       apply list_elem_of_fmap in Hk' as [item [-> Hitem]];
                       by eapply Forall_forall in Hall)).
  specialize (Hp (zeros [samples; samples]) c HS Logic.I).
  unfold wp in Hp.
  destruct (QPolySag1D.accumulate _ _ _ _ _ _ _) as [p c'|e c'|]; simpl.
  2,3: destruct Hp; unfold zeros; simpl; rewrite length_replicate, Hlen'; f_equal; lia.
  destruct Hp as (HS' & Hext & Ap & Fp).
  { unfold zeros; simpl. rewrite length_replicate, Hlen'. f_equal. lia. }
  pose proof (QBFS_get_grid_sound make_rho_phi_grid samples rho_max_1 c'
                (λ v c'', v = rho_squared make_rho_phi_grid samples rho_max_1 ∧
                          cache_extends c' c'')
                (λ _ _, False) False HS') as Hg.
  unfold wp in Hg.
  destruct (QBFSCache.get_grid _ _ _ _) as [r2 c''| |]; [|by destruct Hg..].
  destruct Hg as [-> Hext']; [done|]. rewrite Hxs.
  destruct p as [|ps]; [done|]. simpl in Fp.
  eexists _, c''. split; [unfold set_phase; simpl; reflexivity|].
  split; [|by eapply cache_extends_trans].
  rewrite length_zip_with, length_zip_with, !length_fmap. lia.
Qed.

(** X14: a build whose coefficients are all 0, the empty dict among them,
    asks nothing of the cache: whatever the cache given to the base-class
    build and at any fuel, for a sample count that is not negative it
    returns the array of zeros and leaves the cache as it found it. *)
Theorem build_all_zero (_cache : nat → Z → Z → K → M (cache F K) (value F))
    (coefs : list (Z * number F)) (samples : Z) (phase0 : value F) (fuel : nat)
    (c : cache F K) :
  0 ≤ samples → Forall (λ item, num_eq0 item.2 = true) coefs →
  QPolySag1D.build _cache rho_max_1 fuel (Sag coefs samples phase0) c =
    Normal (Sag coefs samples (zeros [samples; samples])) c.
Proof.
  intros Hs Hzero. rewrite build_run. simpl.
  destruct (Z.ltb_spec samples 0) as [?|_]; [lia|].
  rewrite accumulate_nonzero.
  assert (filter (λ item : Z * number F, num_eq0 item.2 = false) (ordered_items coefs) = [])
    as ->; [|done].
  unfold ordered_items.
  induction (merge_sort Z.le coefs.*1) as [|k l IH]; [done|].
  rewrite fmap_cons, filter_cons_False; [done|]. simpl. unfold lookup_or.
  destruct (dict_get coefs k) as [v|] eqn:Ek; simpl; [|done].
  apply dict_get_Some_elem in Ek. eapply Forall_forall in Hzero; [|done].
  simpl in Hzero. by rewrite Hzero.
Qed.
End BuilderFacts.

(** X13 on the dict {0: 1.0, 3: 2} from a new cache, 3 by 3 samples. *)
Lemma QBFSSag_build_returns_witness :
  ∃ ys c',
    QBFSSag.build sample_rho_phi_grid 1 13
      (Sag [(0, PyFloat (float_of_Z 1)); (3, PyInt 2)] 3 (zeros [3; 3])) init =
      Normal (Sag [(0, PyFloat (float_of_Z 1)); (3, PyInt 2)] 3 (NdArray ys)) c' ∧
    length ys = Z.to_nat (3 * 3) ∧ cache_extends init c'.
Proof.
  eapply (QBFSSag_build_returns sample_rho_phi_grid 1 init _ 3 _ 13);
    [apply QBFS_reach_init|lia|reflexivity|reflexivity|repeat constructor; simpl; lia].
Defined.

(** X14 on the dict {2: 0.0, 7: 0} with a cache that would raise if asked. *)
Lemma build_all_zero_witness :
  QPolySag1D.build (λ _ _ _ _, raise KeyError) 1 0
    (Sag [(2, PyFloat (float_of_Z 0)); (7, PyInt 0)] 3 (int 5))
    (init (F:=PrimFloat.float) (K:=Z)) =
  Normal (Sag [(2, PyFloat (float_of_Z 0)); (7, PyInt 0)] 3 (zeros [3; 3])) init.
Proof.
  apply (build_all_zero 1 (λ _ _ _ _, raise KeyError)); [lia|].
  repeat constructor.
Defined.

(** ** The keyword arguments of a sag *)

Section SetitemFacts.
Context {A V : Type} `{EqDecision A}.
Implicit Types (d : list (A * V)) (k : A) (v : V).

Lemma setitem_fresh d k v : k ∉ d.*1 → setitem d k v = d ++ [(k, v)].
Proof.
  induction d as [|[k' v'] d IH]; [done|]. simpl.
  intros [Hne Hd]%not_elem_of_cons. rewrite decide_False by done. by rewrite IH.
Qed.

Lemma setitem_present d k v : k ∈ d.*1 → (setitem d k v).*1 = d.*1.
Proof.
  induction d as [|[k' v'] d IH]; [by intros ?%elem_of_nil|]. simpl.
  intros Hin. destruct (decide (k' = k)) as [->|Hne]; [done|]. simpl. f_equal.
  apply IH. apply elem_of_cons in Hin as [->|?]; done.
Qed.

Lemma setitem_NoDup d k v : NoDup d.*1 → NoDup (setitem d k v).*1.
Proof.
  intros Hnd. destruct (decide (k ∈ d.*1)) as [Hin|Hout].
  - by rewrite setitem_present.
  - rewrite setitem_fresh, fmap_app by done. simpl.
    apply NoDup_app. split_and!; [done| |apply NoDup_singleton].
    intros k' Hk' ->%list_elem_of_singleton. done.
Qed.
End SetitemFacts.

Lemma dict_get_setitem {V} (d : list (Z * V)) k v k' :
  dict_get (setitem d k v) k' = if decide (k = k') then Some v else dict_get d k'.
Proof.
  induction d as [|[k0 v0] d IH]; simpl.
  - destruct (Z.eqb_spec k k'), (decide (k = k')); done.
  - destruct (decide (k0 = k)) as [->|Hne]; simpl.
    + destruct (Z.eqb_spec k k'), (decide (k = k')); done.
    + destruct (Z.eqb_spec k0 k') as [->|Hne']; [by rewrite decide_False|done].
Qed.

Section InitFacts.
Context {V : Type}.
Variable py_int : string → option Z.

Abbreviation passed_on := (λ kw : string * V, starts_with_a kw.1 = Some false).

Lemma last_coefficient_cons key value (kwargs : list (string * V)) i :
  last_coefficient py_int ((key, value) :: kwargs) i =
    match last_coefficient py_int kwargs i with
    | Some v => Some v
    | None => if decide (coefficient_index py_int key = Some i) then Some value else None
    end.
Proof.
  unfold last_coefficient. simpl.
  destruct (decide _); [rewrite last_cons|]; by destruct (last _).
Qed.

Lemma init_loop_spec (kwargs : list (string * V)) :
  ∀ coefs0 pass0 coefs pass,
    init_loop py_int kwargs coefs0 pass0 = Initialized coefs pass →
    (NoDup coefs0.*1 → NoDup coefs.*1) ∧
    (∀ i, dict_get coefs i = match last_coefficient py_int kwargs i with
                             | Some v => Some v
                             | None => dict_get coefs0 i
                             end) ∧
    (NoDup (pass0.*1 ++ kwargs.*1) → pass = pass0 ++ filter passed_on kwargs).
Proof.
  induction kwargs as [|[key value] kwargs IH]; intros coefs0 pass0 coefs pass; simpl.
  { intros [= <- <-]. split_and!; [done|intros i; reflexivity|].
    intros _. by rewrite filter_nil, app_nil_r. }
  destruct (starts_with_a key) as [[|]|] eqn:Ea; [| |done].
  - destruct (py_int (after_first key)) as [idx|] eqn:Ei; [|done].
    intros (Hnd & Hget & Hpass)%IH. split_and!.
    + intros Hnd0. by apply Hnd, setitem_NoDup.
    + intros i. rewrite Hget, last_coefficient_cons, dict_get_setitem.
      unfold coefficient_index. rewrite Ea, Ei.
      destruct (last_coefficient py_int kwargs i); [done|].
      destruct (decide (idx = i)) as [->|Hne]; [by rewrite decide_True|].
      rewrite decide_False; [done|congruence].
    + intros Hnd0. rewrite filter_cons_False by (simpl; congruence).
      apply Hpass. apply NoDup_app in Hnd0 as (? & Hdis & [? ?]%NoDup_cons).
      apply NoDup_app. split_and!; [done| |done].
      intros k Hk Hk'. apply (Hdis k Hk). by right.
  - intros (Hnd & Hget & Hpass)%IH. split_and!.
    + done.
    + intros i. rewrite Hget, last_coefficient_cons.
      unfold coefficient_index. rewrite Ea.
      destruct (last_coefficient py_int kwargs i); [done|]. by rewrite decide_False.
    + intros Hnd0. rewrite filter_cons_True by done.
      apply NoDup_app in Hnd0 as (Hp0 & Hdis & [Hkey Hkw]%NoDup_cons).
      assert (key ∉ pass0.*1) as Hfresh by (intros Hk; apply (Hdis key Hk); by left).
      rewrite Hpass.
      * rewrite setitem_fresh by done. by rewrite <-app_assoc.
      * rewrite setitem_fresh, fmap_app by done. simpl. rewrite <-app_assoc. simpl.
        apply NoDup_app. split_and!; [done| |by apply NoDup_cons].
        intros k Hk Hk'. apply (Hdis k Hk). done.
Qed.

Lemma init_loop_returns (kwargs : list (string * V)) :
  ∀ coefs0 pass0,
    ((∃ coefs pass, init_loop py_int kwargs coefs0 pass0 = Initialized coefs pass) ↔
     Forall (λ kw, keyword_ok py_int kw.1) kwargs) ∧
    (Forall (λ kw, kw.1 ≠ EmptyString) kwargs →
     init_loop py_int kwargs coefs0 pass0 ≠ InitIndexError).
Proof.
  induction kwargs as [|[key value] kwargs IH]; intros coefs0 pass0; simpl.
  { split; [|done]. split; [by constructor|eauto]. }
  rewrite Forall_cons. unfold keyword_ok at 1. simpl.
  destruct (starts_with_a key) as [[|]|] eqn:Ea.
  - destruct (py_int (after_first key)) as [idx|] eqn:Ei.
    + destruct (IH (setitem coefs0 idx value) pass0) as [Hiff Hne]. split.
      * rewrite Hiff. split; [intros ?; split; eauto|by intros [_ ?]].
      * intros [_ ?]%Forall_cons. by apply Hne.
    + split; [|done]. split; [by intros (? & ? & ?)|by intros [[? ?] _]].
  - destruct (IH coefs0 (setitem pass0 key value)) as [Hiff Hne]. split.
    + rewrite Hiff. split; [by intros ?; split|by intros [_ ?]].
    + intros [_ ?]%Forall_cons. by apply Hne.
  - split.
    + split; [by intros (? & ? & ?)|by intros [[] _]].
    + intros [Hkey _]%Forall_cons. by destruct key.
Qed.

(** X15: when [__init__] gets to the call of the base class, the coefficient
    dict has distinct integer keys; under each index it holds the value of
    the last keyword argument naming that index (A3 and a3 name the same),
    and nothing under an index no keyword names; and every other keyword
    argument, the names being distinct, is passed on to the base class in
    the order given. *)
Theorem QPolySag1D_init_coefs (kwargs : list (string * V)) coefs pass_args :
  QPolySag1D_init py_int kwargs = Initialized coefs pass_args →
  NoDup coefs.*1 ∧
  (∀ i, dict_get coefs i = last_coefficient py_int kwargs i) ∧
  (NoDup kwargs.*1 → pass_args = filter passed_on kwargs).
Proof.
  intros (Hnd & Hget & Hpass)%init_loop_spec. split_and!.
  - apply Hnd. constructor.
  - intros i. rewrite Hget. by destruct (last_coefficient py_int kwargs i).
  - done.
Qed.

(** X16: [__init__] gets to the call of the base class exactly when every
    keyword is non-empty and every keyword that starts with a or A has
    after that letter a string [int] accepts.  With non-empty keywords the
    failure is the ValueError of [int]: a keyword such as [aligned] cannot
    be passed to a sag. *)
Theorem QPolySag1D_init_returns_iff (kwargs : list (string * V)) :
  ((∃ coefs pass_args, QPolySag1D_init py_int kwargs = Initialized coefs pass_args) ↔
   Forall (λ kw, keyword_ok py_int kw.1) kwargs) ∧
  (Forall (λ kw, kw.1 ≠ EmptyString) kwargs →
   ¬ Forall (λ kw, keyword_ok py_int kw.1) kwargs →
   QPolySag1D_init py_int kwargs = InitValueError).
Proof.
  destruct (init_loop_returns kwargs [] []) as [Hiff Hne]. split; [done|].
  intros Hkeys Hbad. specialize (Hne Hkeys). unfold QPolySag1D_init.
  destruct (init_loop py_int kwargs [] []) as [coefs pass| |] eqn:E; [|done..].
  destruct Hbad. apply Hiff. eauto.
Qed.
End InitFacts.

(** X15 on the keywords (A4=1, samples=3, a4=2, A0=5). *)
Lemma QPolySag1D_init_coefs_witness :
  ∃ coefs pass_args,
    QPolySag1D_init decimal_int
      [("A4"%string, 1); ("samples"%string, 3); ("a4"%string, 2); ("A0"%string, 5)] =
      Initialized coefs pass_args ∧
    NoDup coefs.*1 ∧ dict_get coefs 4 = Some 2 ∧ dict_get coefs 0 = Some 5 ∧
    dict_get coefs 1 = None ∧ pass_args = [("samples"%string, 3)].
Proof.
  eexists _, _. split; [vm_compute; reflexivity|].
  edestruct (QPolySag1D_init_coefs decimal_int
               [("A4"%string, 1); ("samples"%string, 3); ("a4"%string, 2); ("A0"%string, 5)])
    as (Hnd & Hget & Hpass); [vm_compute; reflexivity|].
  split; [exact Hnd|]. rewrite !Hget. repeat split; vm_compute; reflexivity.
Defined.

(** X16 on the keywords (A2=1, aligned=0). *)
Lemma QPolySag1D_init_returns_iff_witness :
  QPolySag1D_init decimal_int [("A2"%string, 1); ("aligned"%string, 0)] = InitValueError.
Proof.
  apply (proj2 (QPolySag1D_init_returns_iff decimal_int
                  [("A2"%string, 1); ("aligned"%string, 0)])).
  - repeat constructor; done.
  - intros [_ [Hbad _]%Forall_cons]%Forall_cons. vm_compute in Hbad. by destruct Hbad.
Defined.
